(** * Client-side pagination of the asset catalog table

    A shallow embedding of [buildFlatProps], [buildNamespaceProps] and
    [filterAssetsByNamespace] of the asset catalog table, with the
    JavaScript built-ins they call ([JSON.stringify], [JSON.parse], string
    comparison, [findIndex], [slice], [Set], [sort], [some], [every]).

    JavaScript strings are sequences of UTF-16 code units and are compared
    code unit by code unit; they are modelled as lists of [N].  A call that
    throws ([TypeError] on reading a property of [undefined], [SyntaxError]
    in [JSON.parse]) is modelled by [None].

    The functions are embedded twice: as functions of the values of their
    arguments, and, in [Heap], as calls on references to arrays in a heap,
    where the writes of the code can be told from its reads. *)

From Stdlib Require Import String Ascii.
From Stdlib Require Import List NArith ZArith Bool Lia Permutation.
From Stdlib Require Import Sorting.Sorted.
Import ListNotations.

(** ** The error monad of a call that may throw *)

Definition bind {A B : Type} (m : option A) (k : A -> option B) : option B :=
  match m with
  | Some a => k a
  | None => None
  end.

Notation "x <- m ;; k" := (bind m (fun x => k))
  (at level 61, m at next level, right associativity).

Fixpoint mapM {A B : Type} (f : A -> option B) (l : list A) : option (list B) :=
  match l with
  | [] => Some []
  | x :: t => y <- f x ;; ys <- mapM f t ;; Some (y :: ys)
  end.

(** ** Strings *)

Definition code_unit := N.
Definition jsstring := list code_unit.

(** An ASCII literal as a JavaScript string. *)
Definition lit (s : string) : jsstring := map N_of_ascii (list_ascii_of_string s).

(** The comparison of the abstract relational comparison on two strings:
    the first differing code unit decides, a proper prefix is smaller. *)
Fixpoint str_compare (a b : jsstring) : comparison :=
  match a, b with
  | [], [] => Eq
  | [], _ :: _ => Lt
  | _ :: _, [] => Gt
  | x :: a', y :: b' =>
      match N.compare x y with
      | Eq => str_compare a' b'
      | c => c
      end
  end.

(** [a < b] *)
Definition str_ltb (a b : jsstring) : bool :=
  match str_compare a b with Lt => true | _ => false end.

(** [a <= b], which JavaScript evaluates as the negation of [b < a]. *)
Definition str_leb (a b : jsstring) : bool := negb (str_ltb b a).

(** [a === b] *)
Definition str_eqb (a b : jsstring) : bool :=
  match str_compare a b with Eq => true | _ => false end.

(** Truthiness of a string: every string but the empty one. *)
Definition truthy (a : jsstring) : bool :=
  match a with [] => false | _ :: _ => true end.


(** ** JSON text of an array of strings *)

Module JSON.

Definition hex_digit (n : N) : N :=
  (if n <? 10 then 48 + n else 87 + n)%N.

(** [UnicodeEscape]: a backslash, [u] and four lower-case hexadecimal
    digits. *)
Definition UnicodeEscape (c : N) : jsstring :=
  [92; 117; hex_digit ((c / 4096) mod 16); hex_digit ((c / 256) mod 16);
   hex_digit ((c / 16) mod 16); hex_digit (c mod 16)]%N.

Definition is_leading_surrogate (c : N) : bool :=
  ((55296 <=? c) && (c <=? 56319))%N.

Definition is_trailing_surrogate (c : N) : bool :=
  ((56320 <=? c) && (c <=? 57343))%N.

(** The text of a code point that is a single code unit: the two-character
    escapes of the table, a [UnicodeEscape] for the other control
    characters and for a surrogate that is not part of a pair, the code
    unit itself otherwise. *)
Definition escape_unit (c : N) : jsstring :=
  (if c =? 8 then [92; 98]
   else if c =? 9 then [92; 116]
   else if c =? 10 then [92; 110]
   else if c =? 12 then [92; 102]
   else if c =? 13 then [92; 114]
   else if c =? 34 then [92; 34]
   else if c =? 92 then [92; 92]
   else if (c <? 32) || is_leading_surrogate c || is_trailing_surrogate c
        then UnicodeEscape c
   else [c])%N.

(** The characters of [QuoteJSONString] between the two quotes.  A leading
    surrogate followed by a trailing one is one code point and is copied. *)
Fixpoint quote_body (s : jsstring) : jsstring :=
  match s with
  | [] => []
  | c :: rest =>
      match rest with
      | d :: rest' =>
          if is_leading_surrogate c && is_trailing_surrogate d
          then c :: d :: quote_body rest'
          else escape_unit c ++ quote_body rest
      | [] => escape_unit c
      end
  end.

Definition QuoteJSONString (s : jsstring) : jsstring :=
  (34 :: quote_body s ++ [34])%N.

(** The elements of [SerializeJSONArray], separated by commas. *)
Fixpoint elements (p : list jsstring) : jsstring :=
  match p with
  | [] => []
  | [s] => QuoteJSONString s
  | s :: (_ :: _) as q => (QuoteJSONString s ++ 44 :: elements q)%N
  end.

(** [JSON.stringify] of an array of strings (no indentation). *)
Definition stringify (p : list jsstring) : jsstring :=
  (91 :: elements p ++ [93])%N.

(** *** Parsing *)

Definition hex_val (d : N) : option N :=
  (if (48 <=? d) && (d <=? 57) then Some (d - 48)
   else if (97 <=? d) && (d <=? 102) then Some (d - 87)
   else if (65 <=? d) && (d <=? 70) then Some (d - 55)
   else None)%N.

(** The character a two-character escape stands for. *)
Definition unescape (e : N) : option N :=
  (if e =? 34 then Some 34
   else if e =? 92 then Some 92
   else if e =? 47 then Some 47
   else if e =? 98 then Some 8
   else if e =? 102 then Some 12
   else if e =? 110 then Some 10
   else if e =? 114 then Some 13
   else if e =? 116 then Some 9
   else None)%N.

(** Adds a code unit in front of the string being read. *)
Definition push (c : N) (r : option (list jsstring)) : option (list jsstring) :=
  match r with
  | Some (h :: t) => Some ((c :: h) :: t)
  | _ => None
  end.

(** Reads the text from inside a string literal to the end of the array:
    the result lists the string being read and the ones after it. *)
Fixpoint scan (s : jsstring) : option (list jsstring) :=
  match s with
  | [] => None
  | c :: rest =>
      (if c =? 34 then
         match rest with
         | [d] => if d =? 93 then Some [[]] else None
         | d :: e :: rest' =>
             if (d =? 44) && (e =? 34)
             then r <- scan rest' ;; Some ([] :: r)
             else None
         | [] => None
         end
       else if c =? 92 then
         match rest with
         | [] => None
         | e :: rest1 =>
             if e =? 117 then
               match rest1 with
               | h1 :: h2 :: h3 :: h4 :: rest2 =>
                   match hex_val h1, hex_val h2, hex_val h3, hex_val h4 with
                   | Some v1, Some v2, Some v3, Some v4 =>
                       push (((v1 * 16 + v2) * 16 + v3) * 16 + v4) (scan rest2)
                   | _, _, _, _ => None
                   end
               | _ => None
               end
             else
               match unescape e with
               | Some v => push v (scan rest1)
               | None => None
               end
         end
       else if c <? 32 then None
       else push c (scan rest))%N
  end.

(** [JSON.parse] on the texts of arrays of strings without white space,
    the only texts the program parses; [None] is a [SyntaxError]. *)
Definition parse (s : jsstring) : option (list jsstring) :=
  match s with
  | c :: d :: rest =>
      (if c =? 91 then
         if d =? 93 then match rest with [] => Some [] | _ :: _ => None end
         else if d =? 34 then scan rest
         else None
       else None)%N
  | _ => None
  end.

End JSON.

(** ** Arrays *)

(** [l[i]]: [None] is [undefined]. *)
Definition get {A : Type} (l : list A) (i : Z) : option A :=
  if (i <? 0)%Z then None else nth_error l (Z.to_nat i).

Fixpoint findIndex_from {A : Type} (f : A -> bool) (l : list A) (i : Z) : Z :=
  match l with
  | [] => (-1)%Z
  | x :: t => if f x then i else findIndex_from f t (i + 1)%Z
  end.

(** [l.findIndex(f)]: the index of the first element that satisfies [f],
    or -1. *)
Definition findIndex {A : Type} (f : A -> bool) (l : list A) : Z :=
  findIndex_from f l 0%Z.

(** [l.slice(start, end)]: a negative bound counts from the end of the
    array, and both bounds are clamped to the array. *)
Definition slice {A : Type} (l : list A) (start end_ : Z) : list A :=
  let len := Z.of_nat (length l) in
  let k := if (start <? 0)%Z then Z.max (len + start) 0 else Z.min start len in
  let final := if (end_ <? 0)%Z then Z.max (len + end_) 0 else Z.min end_ len in
  firstn (Z.to_nat (final - k)) (skipn (Z.to_nat k) l).

(** [Array.from(new Set(l))]: a set keeps its elements in insertion order
    and ignores the insertion of an element it holds. *)
Definition Set_add (acc : list jsstring) (x : jsstring) : list jsstring :=
  if existsb (str_eqb x) acc then acc else acc ++ [x].

Definition Array_from_Set (l : list jsstring) : list jsstring :=
  fold_left Set_add l [].

(** [l.join(",")], which is also [String(l)] for an array of strings. *)
Fixpoint join_comma (l : list jsstring) : jsstring :=
  match l with
  | [] => []
  | [s] => s
  | s :: (_ :: _) as t => (s ++ 44 :: join_comma t)%N
  end.

Definition Array_toString (l : list jsstring) : jsstring := join_comma l.

(** [l.sort()] without a comparator orders the elements by their string
    conversions and is stable: an element goes before the first element
    of the sorted rest whose string conversion is not smaller. *)
Fixpoint sort_insert (x : list jsstring) (l : list (list jsstring))
  : list (list jsstring) :=
  match l with
  | [] => [x]
  | y :: t =>
      if str_ltb (Array_toString y) (Array_toString x)
      then y :: sort_insert x t
      else x :: y :: t
  end.

Definition sort (l : list (list jsstring)) : list (list jsstring) :=
  fold_right sort_insert [] l.

(** [l.every((x, i) => f x i)], the index starting at [i]. *)
Fixpoint every_from {A : Type} (f : A -> Z -> bool) (l : list A) (i : Z) : bool :=
  match l with
  | [] => true
  | x :: t => f x i && every_from f t (i + 1)%Z
  end.

Definition every {A : Type} (f : A -> Z -> bool) (l : list A) : bool :=
  every_from f l 0%Z.

(** ** The data model *)

Record AssetKey := { path : list jsstring }.

(** A node of the asset query: its identifier and its key. *)
Record Asset := { id : jsstring; key : AssetKey }.

Record Props := {
  displayed : list Asset;
  displayPathForAsset : Asset -> list jsstring;
  prevCursor : option jsstring;
  nextCursor : option jsstring
}.

Definition PAGE_SIZE : Z := 50.

(** The test [cursor ? ... : 0]: [undefined] and the empty string are
    falsy. *)
Definition cursor_truthy (cursor : option jsstring) : option jsstring :=
  match cursor with
  | Some c => if truthy c then Some c else None
  | None => None
  end.

(** ** [buildFlatProps] *)

Section Flat.

Variable assets : list Asset.
Variable prefixPath : list jsstring.
Variable cursor : option jsstring.

Definition flat_cursorValue (asset : Asset) : jsstring :=
  JSON.stringify (prefixPath ++ path (key asset)).

(** [cursorValue(assets[i])]: reading [key] of [undefined] throws. *)
Definition flat_cursorValue_at (i : Z) : option jsstring :=
  asset <- get assets i ;; Some (flat_cursorValue asset).

Definition flat_cursorIndex : Z :=
  match cursor_truthy cursor with
  | Some c => findIndex (fun ns => str_leb c (flat_cursorValue ns)) assets
  | None => 0%Z
  end.

Definition buildFlatProps : option Props :=
  let cursorIndex := flat_cursorIndex in
  let prevPageIndex := Z.max 0 (cursorIndex - PAGE_SIZE) in
  let nextPageIndex := (cursorIndex + PAGE_SIZE)%Z in
  prev <- (if (cursorIndex >? 0)%Z
           then c <- flat_cursorValue_at prevPageIndex ;; Some (Some c)
           else Some None) ;;
  next <- (if (nextPageIndex <? Z.of_nat (length assets))%Z
           then c <- flat_cursorValue_at nextPageIndex ;; Some (Some c)
           else Some None) ;;
  Some {| displayed := slice assets cursorIndex (cursorIndex + PAGE_SIZE);
          displayPathForAsset := fun asset => path (key asset);
          prevCursor := prev;
          nextCursor := next |}.

End Flat.

(** ** [buildNamespaceProps] and [filterAssetsByNamespace] *)

(** [part === asset.key.path[i]]: a part is never [undefined]. *)
Definition same_part (p : list jsstring) (part : jsstring) (i : Z) : bool :=
  match get p i with
  | Some s => str_eqb part s
  | None => false
  end.

Definition filterAssetsByNamespace (assets : list Asset)
  (paths : list (list jsstring)) : list Asset :=
  filter
    (fun asset =>
       existsb
         (fun p => every (fun part i => same_part (path (key asset)) part i) p)
         paths)
    assets.

Section Namespace.

Variable assets : list Asset.
Variable prefixPath : list jsstring.
Variable cursor : option jsstring.

Definition namespaceForAsset (asset : Asset) : list jsstring :=
  slice (path (key asset))
        (Z.of_nat (length prefixPath))
        (Z.of_nat (length prefixPath) + 1).

Definition namespaces : option (list (list jsstring)) :=
  parsed <- mapM JSON.parse
              (Array_from_Set
                 (map (fun asset => JSON.stringify (namespaceForAsset asset))
                      assets)) ;;
  Some (sort parsed).

Definition ns_cursorValue (ns : list jsstring) : jsstring :=
  JSON.stringify (prefixPath ++ ns).

(** [cursorValue(namespaces[i])]: spreading [undefined] throws. *)
Definition ns_cursorValue_at (nss : list (list jsstring)) (i : Z)
  : option jsstring :=
  ns <- get nss i ;; Some (ns_cursorValue ns).

Definition ns_cursorIndex (nss : list (list jsstring)) : Z :=
  match cursor_truthy cursor with
  | Some c => findIndex (fun ns => str_leb c (ns_cursorValue ns)) nss
  | None => 0%Z
  end.

Definition buildNamespaceProps : option Props :=
  nss <- namespaces ;;
  let cursorIndex := ns_cursorIndex nss in
  if (cursorIndex =? -1)%Z then
    Some {| displayPathForAsset := namespaceForAsset;
            displayed := [];
            prevCursor := None;
            nextCursor := None |}
  else
    let slice_ := slice nss cursorIndex (cursorIndex + PAGE_SIZE) in
    let prevPageIndex := Z.max 0 (cursorIndex - PAGE_SIZE) in
    prev <- (if negb (cursorIndex =? 0)%Z
             then c <- ns_cursorValue_at nss prevPageIndex ;; Some (Some c)
             else Some None) ;;
    let nextPageIndex := (cursorIndex + PAGE_SIZE)%Z in
    next <- (if (Z.of_nat (length nss) >? nextPageIndex)%Z
             then c <- ns_cursorValue_at nss nextPageIndex ;; Some (Some c)
             else Some None) ;;
    Some {| nextCursor := next;
            prevCursor := prev;
            displayPathForAsset := namespaceForAsset;
            displayed :=
              filterAssetsByNamespace assets
                (map (fun ns => prefixPath ++ ns) slice_) |}.

End Namespace.

(** ** The call in [AssetsCatalogTable] *)

Inductive Mode := flat | namespace.

(** [view === 'flat' ? buildFlatProps(...) : buildNamespaceProps(...)] *)
Definition paginate (assets : list Asset) (prefixPath : list jsstring)
  (cursor : option jsstring) (mode : Mode) : option Props :=
  match mode with
  | flat => buildFlatProps assets prefixPath cursor
  | namespace => buildNamespaceProps assets prefixPath cursor
  end.

(** * Statements

    The definitions in which the properties of the paginator are stated. *)

(** [s] is the start index of the page for [cursor]: 0 without a cursor,
    and otherwise the first index whose cursor value is not below the
    cursor, -1 standing for an index that does not exist. *)
Definition IsStartIndex {A : Type} (cv : A -> jsstring) (l : list A)
  (cursor : option jsstring) (s : Z) : Prop :=
  match cursor with
  | None => s = 0%Z
  | Some c =>
      (s = (-1)%Z /\ forall a, In a l -> str_leb c (cv a) = false)
      \/ (exists a, get l s = Some a /\ str_leb c (cv a) = true
           /\ forall j b, (j < s)%Z -> get l j = Some b ->
                          str_leb c (cv b) = false)
  end.

(** The page of the flat mode that starts at index [s]. *)
Definition flat_page (assets : list Asset) (prefixPath : list jsstring)
  (s : Z) (r : Props) : Prop :=
  displayed r = slice assets s (s + PAGE_SIZE)
  /\ (prevCursor r <> None <-> (s > 0)%Z)
  /\ ((s > 0)%Z ->
      exists a, get assets (Z.max 0 (s - PAGE_SIZE)) = Some a
                /\ prevCursor r = Some (flat_cursorValue prefixPath a))
  /\ (nextCursor r <> None <-> (s + PAGE_SIZE < Z.of_nat (length assets))%Z)
  /\ ((s + PAGE_SIZE < Z.of_nat (length assets))%Z ->
      exists a, get assets (s + PAGE_SIZE) = Some a
                /\ nextCursor r = Some (flat_cursorValue prefixPath a)).

(** An asset with the given identifier and key, for the examples. *)
Definition asset_of (name : string) (p : list string) : Asset :=
  {| id := lit name; key := {| path := map lit p |} |}.

(** The cursor is strictly greater than the cursor value of every
    element. *)
Definition past_end {A : Type} (cv : A -> jsstring) (l : list A)
  (c : jsstring) : Prop :=
  forall a, In a l -> str_ltb (cv a) c = true.

Definition last_asset (assets : list Asset) : option Asset :=
  get assets (Z.of_nat (length assets) - 1).

(** The page of the flat mode for a cursor past the end, as the
    description of that case words it. *)
Definition flat_past_end_page (assets : list Asset)
  (prefixPath : list jsstring) (r : Props) : Prop :=
  displayed r = slice assets (-1) 49
  /\ ((length assets <= 49)%nat ->
      exists a, last_asset assets = Some a /\ displayed r = [a])
  /\ ((50 <= length assets)%nat -> displayed r = [])
  /\ prevCursor r = None
  /\ (nextCursor r <> None <-> (50 <= length assets)%nat)
  /\ ((50 <= length assets)%nat ->
      exists a, get assets 49 = Some a
                /\ nextCursor r = Some (flat_cursorValue prefixPath a))
  /\ ~ (displayed r = [] /\ prevCursor r = None /\ nextCursor r = None).

(** The same page, an empty collection set apart. *)
Definition flat_past_end_page_nonempty (assets : list Asset)
  (prefixPath : list jsstring) (r : Props) : Prop :=
  displayed r = slice assets (-1) 49
  /\ ((1 <= length assets <= 49)%nat ->
      exists a, last_asset assets = Some a /\ displayed r = [a])
  /\ (length assets = 0%nat \/ (50 <= length assets)%nat -> displayed r = [])
  /\ prevCursor r = None
  /\ (nextCursor r <> None <-> (50 <= length assets)%nat)
  /\ ((50 <= length assets)%nat ->
      exists a, get assets 49 = Some a
                /\ nextCursor r = Some (flat_cursorValue prefixPath a))
  /\ (assets <> [] ->
      ~ (displayed r = [] /\ prevCursor r = None /\ nextCursor r = None)).

(** The namespaces in the order of their first occurrence, two
    namespaces being the same when their JSON texts are. *)
Definition add_distinct (acc : list (list jsstring)) (x : list jsstring)
  : list (list jsstring) :=
  if existsb (fun y => str_eqb (JSON.stringify x) (JSON.stringify y)) acc
  then acc else acc ++ [x].

Definition distinct (l : list (list jsstring)) : list (list jsstring) :=
  fold_left add_distinct l [].

(** The list that [namespaces] evaluates to. *)
Definition namespace_list (assets : list Asset) (prefixPath : list jsstring)
  : list (list jsstring) :=
  sort (distinct (map (namespaceForAsset prefixPath) assets)).

(** The result of the cursor-not-found branch of the namespace mode. *)
Definition empty_page (prefixPath : list jsstring) : Props :=
  {| displayed := [];
     displayPathForAsset := namespaceForAsset prefixPath;
     prevCursor := None;
     nextCursor := None |}.

(** The page of the namespace mode whose window of namespaces starts at
    index [s] of the namespace list [nss]. *)
Definition ns_page (assets : list Asset) (prefixPath : list jsstring)
  (nss : list (list jsstring)) (s : Z) (r : Props) : Prop :=
  displayed r =
    filterAssetsByNamespace assets
      (map (fun ns => prefixPath ++ ns) (slice nss s (s + PAGE_SIZE)))
  /\ (prevCursor r <> None <-> (s > 0)%Z)
  /\ ((s > 0)%Z ->
      exists ns, get nss (Z.max 0 (s - PAGE_SIZE)) = Some ns
                 /\ prevCursor r = Some (ns_cursorValue prefixPath ns))
  /\ (nextCursor r <> None <-> (s + PAGE_SIZE < Z.of_nat (length nss))%Z)
  /\ ((s + PAGE_SIZE < Z.of_nat (length nss))%Z ->
      exists ns, get nss (s + PAGE_SIZE) = Some ns
                 /\ nextCursor r = Some (ns_cursorValue prefixPath ns)).

(** The window of namespaces that the cursor selects: empty when the
    search for the cursor fails. *)
Definition ns_window (prefixPath : list jsstring) (cursor : option jsstring)
  (nss : list (list jsstring)) : list (list jsstring) :=
  let i := ns_cursorIndex prefixPath cursor nss in
  if (i =? -1)%Z then [] else slice nss i (i + PAGE_SIZE).

(** The path [p] agrees with [ext] on every position of [ext]. *)
Definition agrees (ext p : list jsstring) : Prop :=
  forall i, (i < length ext)%nat -> nth_error p i = nth_error ext i.

(** The list is in the order of the cursor values of its elements. *)
Definition sorted_by {A : Type} (cv : A -> jsstring) (l : list A) : Prop :=
  StronglySorted (fun a b => str_leb (cv a) (cv b) = true) l.

(** A check of that order on the neighbours in the list. *)
Fixpoint sortedb {A : Type} (cv : A -> jsstring) (l : list A) : bool :=
  match l with
  | [] => true
  | a :: t =>
      match t with
      | [] => true
      | b :: _ => str_leb (cv a) (cv b) && sortedb cv t
      end
  end.

(** A key identifies one asset of the collection. *)
Definition key_identifies (assets : list Asset) : Prop :=
  forall a b, In a assets -> In b assets -> key a = key b -> a = b.

(** The lexicographic order of arrays of path segments: the first
    differing segment decides, and a proper prefix is smaller. *)
Fixpoint path_compare (p q : list jsstring) : comparison :=
  match p, q with
  | [], [] => Eq
  | [], _ :: _ => Lt
  | _ :: _, [] => Gt
  | s :: p', t :: q' =>
      match str_compare s t with
      | Eq => path_compare p' q'
      | c => c
      end
  end.

(** The order in which the first differing segment decides and an array
    comes after its proper extensions. *)
Fixpoint text_compare (p q : list jsstring) : comparison :=
  match p, q with
  | [], [] => Eq
  | [], _ :: _ => Gt
  | _ :: _, [] => Lt
  | s :: p', t :: q' =>
      match str_compare s t with
      | Eq => text_compare p' q'
      | c => c
      end
  end.

(** A code unit above the quote that [JSON.stringify] copies: neither the
    backslash nor a surrogate. *)
Definition plain_unit (c : N) : bool :=
  (35 <=? c)%N && negb (c =? 92)%N
  && negb (JSON.is_leading_surrogate c) && negb (JSON.is_trailing_surrogate c).

Definition plain_path (p : list jsstring) : bool :=
  forallb (forallb plain_unit) p.

(** What follows a string in the text of an array: the closing bracket,
    or a comma and the other strings. *)
Definition after_string (p : list jsstring) : jsstring :=
  match p with
  | [] => [93]%N
  | _ :: _ => (44 :: JSON.elements p ++ [93])%N
  end.

(** The order of the string conversions of two namespaces. *)
Definition by_name (x y : list jsstring) : Prop :=
  str_leb (Array_toString x) (Array_toString y) = true.

(** ** Example inputs *)

Section Examples.

Local Open Scope string_scope.

(** A collection of one asset and a cursor above its cursor value. *)
Definition one_asset : list Asset := [asset_of "a" ["a"]].
Definition cursor_z : jsstring := lit "z".

(** Two assets and the cursor value of the second one. *)
Definition two_assets : list Asset := [asset_of "a" ["a"]; asset_of "b" ["b"]].
Definition cursor_b : jsstring := JSON.stringify [lit "b"].

(** The asset number [n] of a numbered collection: its one segment is a
    capital letter and a digit, in the order of the numbers up to 259. *)
Definition numbered_name (n : nat) : jsstring :=
  [65 + N.of_nat (n / 10); 48 + N.of_nat (n mod 10)]%N.

Definition numbered_asset (n : nat) : Asset :=
  {| id := numbered_name n; key := {| path := [numbered_name n] |} |}.

Definition numbered_assets (k : nat) : list Asset :=
  map numbered_asset (seq 0 k).

(** Forty-eight numbered assets and three assets whose names share the
    prefix [a], two of them with a space: in the order of their cursor
    values, and in the order of their names. *)
Definition spaced_assets : list Asset :=
  numbered_assets 48
  ++ [asset_of "a !" ["a !"]; asset_of "a b" ["a b"]; asset_of "a" ["a"]].

Definition spaced_assets_by_name : list Asset :=
  numbered_assets 48
  ++ [asset_of "a" ["a"]; asset_of "a !" ["a !"]; asset_of "a b" ["a b"]].

Definition cursor_a_b : jsstring := JSON.stringify [lit "a b"].

(** Forty-nine assets [a 00] to [a 48], then [a b] and [a]: fifty-one
    namespaces, in the strict order of their cursor values. *)
Definition spaced_name (n : nat) : jsstring :=
  [97; 32; 48 + N.of_nat (n / 10); 48 + N.of_nat (n mod 10)]%N.

Definition spaced_asset (n : nat) : Asset :=
  {| id := spaced_name n; key := {| path := [spaced_name n] |} |}.

Definition repeating_assets : list Asset :=
  map spaced_asset (seq 0 49) ++ [asset_of "a b" ["a b"]; asset_of "a" ["a"]].

(** Two assets, the name of the second being the name of the first
    followed by a space and a letter. *)
Definition ab_assets : list Asset := [asset_of "a" ["a"]; asset_of "a b" ["a b"]].

(** The assets of the scenarios of the specification. *)
Definition abc_assets : list Asset :=
  [asset_of "a" ["a"]; asset_of "b" ["b"]; asset_of "c" ["c"]].

Definition xy_assets : list Asset :=
  [asset_of "x1" ["x"; "1"]; asset_of "x2" ["x"; "2"]; asset_of "y1" ["y"; "1"]].

(** The first page of fifty-one numbered assets. *)
Definition first_page_of_51 : Props :=
  {| displayed := numbered_assets 50;
     displayPathForAsset := fun asset => path (key asset);
     prevCursor := None;
     nextCursor := Some (flat_cursorValue [] (numbered_asset 50)) |}.

End Examples.

(** * The rest of the catalog

    The pagination controls of [AssetsCatalogTable], the search filter that
    feeds the paginator, and the link of [AssetLink]. *)

(** ** The pagination controls *)

(** [hasPrevCursor={!!prevCursor}] and [hasNextCursor={!!nextCursor}] *)
Definition hasPrevCursor (r : Props) : bool :=
  match prevCursor r with
  | Some c => truthy c
  | None => false
  end.

Definition hasNextCursor (r : Props) : bool :=
  match nextCursor r with
  | Some c => truthy c
  | None => false
  end.

(** The cursor after [popCursor], [advanceCursor] and [reset]: the
    argument of [setCursor]. *)
Definition popCursor (r : Props) : option jsstring := prevCursor r.
Definition advanceCursor (r : Props) : option jsstring := nextCursor r.
Definition reset : option jsstring := None.

(** The pages rendered from [cursor] on when the cursor is advanced for as
    long as there is a next cursor; [None] when a call throws or when
    [fuel] pages do not reach the last one. *)
Fixpoint forward (fuel : nat) (assets : list Asset) (prefixPath : list jsstring)
  (mode : Mode) (cursor : option jsstring) : option (list Props) :=
  match fuel with
  | O => None
  | S f =>
      r <- paginate assets prefixPath cursor mode ;;
      if hasNextCursor r
      then rest <- forward f assets prefixPath mode (advanceCursor r) ;;
           Some (r :: rest)
      else Some [r]
  end.

(** The list cut in windows of fifty elements, at least one window. *)
Fixpoint chunks {A : Type} (fuel : nat) (l : list A) : list (list A) :=
  match fuel with
  | O => []
  | S f =>
      firstn 50 l
      :: (if (50 <? length l)%nat then chunks f (skipn 50 l) else [])
  end.

(** The list is in the order of the cursor values of its elements, and no
    two elements have the same cursor value. *)
Definition strictly_sorted_by {A : Type} (cv : A -> jsstring) (l : list A)
  : Prop :=
  StronglySorted (fun a b => str_ltb (cv a) (cv b) = true) l.

Fixpoint strictly_sortedb {A : Type} (cv : A -> jsstring) (l : list A) : bool :=
  match l with
  | [] => true
  | a :: t =>
      match t with
      | [] => true
      | b :: _ => str_ltb (cv a) (cv b) && strictly_sortedb cv t
      end
  end.

(** The path of the asset starts with the prefix path. *)
Definition under_prefix (prefixPath : list jsstring) (asset : Asset) : bool :=
  every (same_part (path (key asset))) prefixPath.

(** ** The search filter *)

(** [s.split(sep)] for a separator of one code unit. *)
Fixpoint split_on (sep : N) (s : jsstring) : list jsstring :=
  match s with
  | [] => [[]]
  | c :: rest =>
      if (c =? sep)%N then [] :: split_on sep rest
      else match split_on sep rest with
           | h :: t => (c :: h) :: t
           | [] => [[c]]
           end
  end.

(** [p.replace(/\*+/g, '')]: every run of stars is removed. *)
Definition remove_stars (p : jsstring) : jsstring :=
  filter (fun c => negb (c =? 42)%N) p.

(** The white space and line terminator code points, which [trim]
    strips. *)
Definition is_white_space (c : N) : bool :=
  ((9 <=? c) && (c <=? 13) || (c =? 32) || (c =? 160) || (c =? 5760)
   || (8192 <=? c) && (c <=? 8202) || (c =? 8232) || (c =? 8233)
   || (c =? 8239) || (c =? 8287) || (c =? 12288) || (c =? 65279))%N.

Fixpoint trimStart (s : jsstring) : jsstring :=
  match s with
  | [] => []
  | c :: rest => if is_white_space c then trimStart rest else s
  end.

Definition trimEnd (s : jsstring) : jsstring := rev (trimStart (rev s)).

Definition trim (s : jsstring) : jsstring := trimEnd (trimStart s).

(** [opsQuery.split(',').map((p) => p.replace(/\*+/g, '').trim())
    .filter(Boolean)] *)
Definition searchSeparatorAgnostic (opsQuery : jsstring) : list jsstring :=
  filter truthy (map (fun p => trim (remove_stars p)) (split_on 44 opsQuery)).

Fixpoint starts_with (s t : jsstring) : bool :=
  match t, s with
  | [], _ => true
  | _ :: _, [] => false
  | x :: t', y :: s' => (x =? y)%N && starts_with s' t'
  end.

(** [s.includes(t)] *)
Fixpoint includes (s t : jsstring) : bool :=
  starts_with s t
  || match s with
     | [] => false
     | _ :: s' => includes s' t
     end.

(** The result of the assets query. *)
Inductive AssetsOrError :=
| PythonError (message : jsstring)
| AssetConnection (nodes : list Asset).

(** What the table renders: the error, the empty state with its prefix
    path, or the table with its rows, its display paths, the two flags of
    the pagination controls and the cursors that the controls set. *)
Inductive View :=
| PythonErrorInfo (message : jsstring)
| AssetsEmptyState (prefixPath : list jsstring)
| Table (rows : list Asset) (displayPath : Asset -> list jsstring)
        (hasPrev hasNext : bool) (popTo advanceTo : option jsstring).

Section Catalog.

(** [tokenForAssetKey] and [toLowerCase] are not part of these sources;
    [assetGraphData] is null or tells for an identifier whether
    [nodes[id]] is truthy. *)
Variable tokenForAssetKey : AssetKey -> jsstring.
Variable toLowerCase : jsstring -> jsstring.
Variable assetGraphData : option (jsstring -> bool).

Definition in_graph (a : Asset) : bool :=
  match assetGraphData with
  | Some nodes => nodes (id a)
  | None => false
  end.

Definition filtered (opsQuery : jsstring) (assets : list Asset) : list Asset :=
  let terms := searchSeparatorAgnostic opsQuery in
  filter
    (fun a =>
       in_graph a
       || (length terms =? 0)%nat
       || existsb
            (fun term => includes (toLowerCase (tokenForAssetKey (key a))) term)
            terms)
    assets.

(** The render function of the query result. *)
Definition render (opsQuery : jsstring) (view : Mode)
  (cursor : option jsstring) (assetsOrError : AssetsOrError) : option View :=
  match assetsOrError with
  | PythonError message => Some (PythonErrorInfo message)
  | AssetConnection assets =>
      if (length assets =? 0)%nat then Some (AssetsEmptyState [opsQuery])
      else
        r <- paginate (filtered opsQuery assets) [] cursor view ;;
        Some (Table (displayed r) (displayPathForAsset r)
                    (hasPrevCursor r) (hasNextCursor r)
                    (popCursor r) (advanceCursor r))
  end.

End Catalog.

(** ** The link of [AssetLink] *)

(** The code units that [encodeURIComponent] copies: the letters, the
    digits and the marks [- _ . ! ~ * ' ( )]. *)
Definition uriUnescaped (c : N) : bool :=
  ((65 <=? c) && (c <=? 90) || (97 <=? c) && (c <=? 122)
   || (48 <=? c) && (c <=? 57)
   || (c =? 45) || (c =? 95) || (c =? 46) || (c =? 33) || (c =? 126)
   || (c =? 42) || (c =? 39) || (c =? 40) || (c =? 41))%N.

Definition hex_upper (n : N) : N := (if n <? 10 then 48 + n else 55 + n)%N.

(** An octet as a percent sign and two upper-case hexadecimal digits. *)
Definition percent (octet : N) : jsstring :=
  [37; hex_upper (octet / 16); hex_upper (octet mod 16)]%N.

(** The octets of the UTF-8 encoding of a code point. *)
Definition utf8 (cp : N) : list N :=
  (if cp <? 128 then [cp]
   else if cp <? 2048 then [192 + cp / 64; 128 + cp mod 64]
   else if cp <? 65536
        then [224 + cp / 4096; 128 + (cp / 64) mod 64; 128 + cp mod 64]
   else [240 + cp / 262144; 128 + (cp / 4096) mod 64;
         128 + (cp / 64) mod 64; 128 + cp mod 64])%N.

(** The code point of a surrogate pair. *)
Definition code_point (lead trail : N) : N :=
  ((lead - 55296) * 1024 + (trail - 56320) + 65536)%N.

Definition percent_encode (cp : N) : jsstring :=
  concat (map percent (utf8 cp)).

(** [encodeURIComponent(s)]: [None] is the [URIError] thrown for a
    surrogate that is not part of a pair. *)
Fixpoint encodeURIComponent (s : jsstring) : option jsstring :=
  match s with
  | [] => Some []
  | c :: rest =>
      if uriUnescaped c then
        e <- encodeURIComponent rest ;; Some (c :: e)
      else if JSON.is_trailing_surrogate c then None
      else if JSON.is_leading_surrogate c then
        match rest with
        | d :: rest' =>
            if JSON.is_trailing_surrogate d
            then e <- encodeURIComponent rest' ;;
                 Some (percent_encode (code_point c d) ++ e)
            else None
        | [] => None
        end
      else e <- encodeURIComponent rest ;; Some (percent_encode c ++ e)
  end.

(** [l.join(sep)] for a separator of one code unit. *)
Fixpoint join_on (sep : N) (l : list jsstring) : jsstring :=
  match l with
  | [] => []
  | [s] => s
  | s :: (_ :: _) as t => s ++ sep :: join_on sep t
  end.

(** [url ? url : `/instance/assets/${path.map(encodeURIComponent)
    .join('/')}`] *)
Definition linkUrl (url : option jsstring) (p : list jsstring)
  : option jsstring :=
  match cursor_truthy url with
  | Some u => Some u
  | None =>
      encoded <- mapM encodeURIComponent p ;;
      Some (lit "/instance/assets/" ++ join_on 47 encoded)
  end.

(** The string has no surrogate outside of a pair. *)
Fixpoint well_formed (s : jsstring) : bool :=
  match s with
  | [] => true
  | c :: rest =>
      if JSON.is_leading_surrogate c then
        match rest with
        | d :: rest' => JSON.is_trailing_surrogate d && well_formed rest'
        | [] => false
        end
      else negb (JSON.is_trailing_surrogate c) && well_formed rest
  end.

(** The elements of the string are code units of sixteen bits. *)
Definition code_units (s : jsstring) : Prop :=
  Forall (fun c => (c < 65536)%N) s.

(** A code unit of the text of an encoded component: one that is copied,
    or the percent sign. *)
Definition uri_unit (c : N) : bool := uriUnescaped c || (c =? 37)%N.

(** The number of octets that follow the first octet of a UTF-8
    encoding. *)
Definition continuation (b : N) : nat :=
  (if b <? 128 then 0%nat
   else if b <? 224 then 1%nat
   else if b <? 240 then 2%nat
   else 3%nat)%N.

(** The children of the link: the span of a segment with its index as
    key, the fragment that separates two segments with the index of the
    segment after it in its key, a text and [null]. *)
Inductive ReactNode :=
| Span (key : nat) (text : jsstring)
| Separator (key : nat)
| TextNode (text : jsstring)
| NullNode.

(** [l.map((x, i) => f x i)], the index starting at [i]. *)
Fixpoint map_from {A B : Type} (f : A -> nat -> B) (l : list A) (i : nat)
  : list B :=
  match l with
  | [] => []
  | x :: t => f x i :: map_from f t (S i)
  end.

(** [l.reduce((accum, curr, ii) => f accum curr ii, acc)], the index
    starting at [i]. *)
Fixpoint reduce_from {A B : Type} (f : B -> A -> nat -> B) (l : list A)
  (acc : B) (i : nat) : B :=
  match l with
  | [] => acc
  | x :: t => reduce_from f t (f acc x i) (S i)
  end.

(** The children of the [span] inside the link. *)
Definition link_children (p : list jsstring) (isGroup : bool)
  : list ReactNode :=
  reduce_from
    (fun accum curr ii =>
       accum ++ [if (0 <? ii)%nat then Separator ii else NullNode; curr])
    (map_from (fun s i => Span i s) p 0)
    [] 0%nat
  ++ [if isGroup then TextNode [47%N] else NullNode].

(** The text that a child shows; the separator is a slash between two
    no-break spaces. *)
Definition node_text (n : ReactNode) : jsstring :=
  match n with
  | Span _ text => text
  | Separator _ => [160; 47; 160]%N
  | TextNode text => text
  | NullNode => []
  end.

Definition text_content (l : list ReactNode) : jsstring :=
  concat (map node_text l).

(** The segments with [sep] between them. *)
Definition join_str (sep : jsstring) (l : list jsstring) : jsstring :=
  match l with
  | [] => []
  | s :: t => s ++ concat (map (fun x => sep ++ x) t)
  end.

(** [l] is [l'] with some elements left out. *)
Inductive Subseq {A : Type} : list A -> list A -> Prop :=
| Subseq_nil : Subseq [] []
| Subseq_skip (x : A) (l l' : list A) : Subseq l l' -> Subseq l (x :: l')
| Subseq_keep (x : A) (l l' : list A) : Subseq l l' -> Subseq (x :: l) (x :: l').

(** * The arrays in the heap

    [buildFlatProps], [buildNamespaceProps] and [filterAssetsByNamespace]
    once more, with the arrays where JavaScript has them: in a heap, behind
    references.  The code assigns to no property and to no index.  The
    built-ins it calls read their arguments, and return a string, a number
    or a new array ([slice], [map], [filter], [Array.from], a spread,
    [JSON.parse]); [sort] alone writes: it sorts its receiver in place.  A
    call takes the heap and gives its result and the heap it leaves, or
    throws. *)

Module Heap.

Definition loc := nat.

(** A node of the asset query; [key.path] refers to an array of strings.
    The objects [asset] and [asset.key] are only read. *)
Record AssetKey := { path : loc }.
Record Asset := { id : jsstring; key : AssetKey }.

(** The arrays of the code: [string[]], [string[][]] and [Asset[]]. *)
Inductive cell :=
| Strings (l : list jsstring)
| Paths (l : list loc)
| Assets (l : list Asset).

Definition heap := list cell.

Definition M (A : Type) : Type := heap -> option (A * heap).

Definition ret {A : Type} (a : A) : M A := fun h => Some (a, h).

Definition throw {A : Type} : M A := fun _ => None.

Definition bind {A B : Type} (m : M A) (k : A -> M B) : M B :=
  fun h =>
    match m h with
    | Some (a, h') => k a h'
    | None => None
    end.

Notation "x <~ m ;; k" := (bind m (fun x => k))
  (at level 61, m at next level, right associativity).

(** A new array, at the end of the heap. *)
Definition alloc (c : cell) : M loc := fun h => Some (length h, h ++ [c]).

(** The elements of an array; the types of the source exclude a reference
    to an array of another kind. *)
Definition strings (a : loc) : M (list jsstring) :=
  fun h =>
    match nth_error h a with
    | Some (Strings l) => Some (l, h)
    | _ => None
    end.

Definition paths (a : loc) : M (list loc) :=
  fun h =>
    match nth_error h a with
    | Some (Paths l) => Some (l, h)
    | _ => None
    end.

Definition nodes (a : loc) : M (list Asset) :=
  fun h =>
    match nth_error h a with
    | Some (Assets l) => Some (l, h)
    | _ => None
    end.

(** The array at [a] replaced by [c]. *)
Definition write (a : loc) (c : cell) : M unit :=
  fun h =>
    if (a <? length h)%nat
    then Some (tt, firstn a h ++ c :: skipn (S a) h)
    else None.

(** ** The built-ins with a callback

    The receiver is read when the call starts: no callback of this code
    writes to an array.  [findIndex], [some] and [every] stop at the first
    element that decides the result. *)

Fixpoint amap {A B : Type} (f : A -> M B) (l : list A) : M (list B) :=
  match l with
  | [] => ret []
  | x :: t => y <~ f x ;; ys <~ amap f t ;; ret (y :: ys)
  end.

Fixpoint afilter {A : Type} (f : A -> M bool) (l : list A) : M (list A) :=
  match l with
  | [] => ret []
  | x :: t => b <~ f x ;; r <~ afilter f t ;; ret (if b then x :: r else r)
  end.

Fixpoint afindIndex_from {A : Type} (f : A -> M bool) (l : list A) (i : Z)
  : M Z :=
  match l with
  | [] => ret (-1)%Z
  | x :: t => b <~ f x ;; if b then ret i else afindIndex_from f t (i + 1)%Z
  end.

Definition afindIndex {A : Type} (f : A -> M bool) (l : list A) : M Z :=
  afindIndex_from f l 0%Z.

Fixpoint asome {A : Type} (f : A -> M bool) (l : list A) : M bool :=
  match l with
  | [] => ret false
  | x :: t => b <~ f x ;; if b then ret true else asome f t
  end.

Fixpoint aevery_from {A : Type} (f : A -> Z -> M bool) (l : list A) (i : Z)
  : M bool :=
  match l with
  | [] => ret true
  | x :: t => b <~ f x i ;; if b then aevery_from f t (i + 1)%Z else ret false
  end.

Definition aevery {A : Type} (f : A -> Z -> M bool) (l : list A) : M bool :=
  aevery_from f l 0%Z.

(** ** The other built-ins *)

(** [[...a, ...b]] *)
Definition spread (a b : loc) : M loc :=
  x <~ strings a ;; y <~ strings b ;; alloc (Strings (x ++ y)).

(** [JSON.stringify(a)] *)
Definition stringify (a : loc) : M jsstring :=
  x <~ strings a ;; ret (JSON.stringify x).

(** [JSON.parse(text)]: a new array, or a [SyntaxError]. *)
Definition parse (text : jsstring) : M loc :=
  match JSON.parse text with
  | Some x => alloc (Strings x)
  | None => throw
  end.

(** [a.sort()]: the references of [a] are put in the order of the string
    conversions of the arrays they refer to, in [a] itself, and [a] is
    returned. *)
Fixpoint sort_insert (x : loc * list jsstring) (l : list (loc * list jsstring))
  : list (loc * list jsstring) :=
  match l with
  | [] => [x]
  | y :: t =>
      if str_ltb (Array_toString (snd y)) (Array_toString (snd x))
      then y :: sort_insert x t
      else x :: y :: t
  end.

Definition sort (a : loc) : M loc :=
  refs <~ paths a ;;
  keyed <~ amap (fun r => x <~ strings r ;; ret (r, x)) refs ;;
  done <~ write a (Paths (map fst (fold_right sort_insert [] keyed))) ;;
  ret a.

(** ** The functions of the source *)

(** The function [displayPathForAsset] of a result: [(asset) =>
    asset.key.path], or [namespaceForAsset] with the [prefixPath] of its
    scope. *)
Inductive Closure :=
| PathOfKey
| NamespaceForAsset (prefixPath : loc).

Record Props := {
  displayed : loc;
  displayPathForAsset : Closure;
  prevCursor : option jsstring;
  nextCursor : option jsstring
}.

(** [asset.key.path.slice(prefixPath.length, prefixPath.length + 1)] *)
Definition namespaceForAsset (prefixPath : loc) (asset : Asset) : M loc :=
  p <~ strings prefixPath ;;
  x <~ strings (path (key asset)) ;;
  alloc (Strings (slice x (Z.of_nat (length p)) (Z.of_nat (length p) + 1))).

Definition call (f : Closure) (asset : Asset) : M loc :=
  match f with
  | PathOfKey => ret (path (key asset))
  | NamespaceForAsset prefixPath => namespaceForAsset prefixPath asset
  end.

(** [JSON.stringify([...prefixPath, ...p])] *)
Definition cursorValue (prefixPath p : loc) : M jsstring :=
  l <~ spread prefixPath p ;; stringify l.

Section Flat.

Variable assets : loc.
Variable prefixPath : loc.
Variable cursor : option jsstring.

(** [cursorValue(assets[i])]: reading [key] of [undefined] throws. *)
Definition flat_cursorValue_at (i : Z) : M jsstring :=
  l <~ nodes assets ;;
  match get l i with
  | Some asset => cursorValue prefixPath (path (key asset))
  | None => throw
  end.

Definition buildFlatProps : M Props :=
  cursorIndex <~
    match cursor_truthy cursor with
    | Some c =>
        l <~ nodes assets ;;
        afindIndex
          (fun ns => v <~ cursorValue prefixPath (path (key ns)) ;;
                     ret (str_leb c v))
          l
    | None => ret 0%Z
    end ;;
  let prevPageIndex := Z.max 0 (cursorIndex - PAGE_SIZE) in
  let nextPageIndex := (cursorIndex + PAGE_SIZE)%Z in
  l <~ nodes assets ;;
  page <~ alloc (Assets (slice l cursorIndex (cursorIndex + PAGE_SIZE))) ;;
  prev <~ (if (cursorIndex >? 0)%Z
           then c <~ flat_cursorValue_at prevPageIndex ;; ret (Some c)
           else ret None) ;;
  l' <~ nodes assets ;;
  next <~ (if (nextPageIndex <? Z.of_nat (length l'))%Z
           then c <~ flat_cursorValue_at nextPageIndex ;; ret (Some c)
           else ret None) ;;
  ret {| displayed := page;
         displayPathForAsset := PathOfKey;
         prevCursor := prev;
         nextCursor := next |}.

End Flat.

(** [assets.filter((asset) => paths.some((path) => path.every((part, i) =>
    part === asset.key.path[i])))] *)
Definition filterAssetsByNamespace (assets paths_ : loc) : M loc :=
  l <~ nodes assets ;;
  kept <~ afilter
            (fun asset =>
               ps <~ paths paths_ ;;
               asome
                 (fun p =>
                    parts <~ strings p ;;
                    aevery
                      (fun part i =>
                         x <~ strings (path (key asset)) ;;
                         ret (same_part x part i))
                      parts)
                 ps)
            l ;;
  alloc (Assets kept).

Section Namespace.

Variable assets : loc.
Variable prefixPath : loc.
Variable cursor : option jsstring.

(** [Array.from(new Set(assets.map(...))).map((x) => JSON.parse(x)).sort()] *)
Definition namespaces : M loc :=
  l <~ nodes assets ;;
  texts <~ amap (fun asset => ns <~ namespaceForAsset prefixPath asset ;;
                              stringify ns)
                l ;;
  mapped <~ alloc (Strings texts) ;;
  elements <~ strings mapped ;;
  from <~ alloc (Strings (Array_from_Set elements)) ;;
  l' <~ strings from ;;
  parsed <~ amap parse l' ;;
  table <~ alloc (Paths parsed) ;;
  sort table.

(** [cursorValue(namespaces[i])]: spreading [undefined] throws. *)
Definition ns_cursorValue_at (nss : loc) (i : Z) : M jsstring :=
  l <~ paths nss ;;
  match get l i with
  | Some ns => cursorValue prefixPath ns
  | None => throw
  end.

Definition buildNamespaceProps : M Props :=
  nss <~ namespaces ;;
  cursorIndex <~
    match cursor_truthy cursor with
    | Some c =>
        l <~ paths nss ;;
        afindIndex
          (fun ns => v <~ cursorValue prefixPath ns ;; ret (str_leb c v)) l
    | None => ret 0%Z
    end ;;
  if (cursorIndex =? -1)%Z then
    page <~ alloc (Assets []) ;;
    ret {| displayPathForAsset := NamespaceForAsset prefixPath;
           displayed := page;
           prevCursor := None;
           nextCursor := None |}
  else
    l <~ paths nss ;;
    slice_ <~ alloc (Paths (slice l cursorIndex (cursorIndex + PAGE_SIZE))) ;;
    let prevPageIndex := Z.max 0 (cursorIndex - PAGE_SIZE) in
    prev <~ (if negb (cursorIndex =? 0)%Z
             then c <~ ns_cursorValue_at nss prevPageIndex ;; ret (Some c)
             else ret None) ;;
    let nextPageIndex := (cursorIndex + PAGE_SIZE)%Z in
    l' <~ paths nss ;;
    next <~ (if (Z.of_nat (length l') >? nextPageIndex)%Z
             then c <~ ns_cursorValue_at nss nextPageIndex ;; ret (Some c)
             else ret None) ;;
    window <~ paths slice_ ;;
    spreads <~ amap (fun ns => spread prefixPath ns) window ;;
    paths_ <~ alloc (Paths spreads) ;;
    page <~ filterAssetsByNamespace assets paths_ ;;
    ret {| nextCursor := next;
           prevCursor := prev;
           displayPathForAsset := NamespaceForAsset prefixPath;
           displayed := page |}.

End Namespace.

(** [view === 'flat' ? buildFlatProps(...) : buildNamespaceProps(...)] *)
Definition paginate (assets prefixPath : loc) (cursor : option jsstring)
  (mode : Mode) : M Props :=
  match mode with
  | flat => buildFlatProps assets prefixPath cursor
  | namespace => buildNamespaceProps assets prefixPath cursor
  end.

End Heap.

(** ** What a heap holds *)

(** The strings of the array at [a], the asset that an object of the heap
    stands for, and the assets of the array at [a]. *)
Definition strings_in (h : Heap.heap) (a : Heap.loc) : list jsstring :=
  match nth_error h a with
  | Some (Heap.Strings l) => l
  | _ => []
  end.

Definition asset_in (h : Heap.heap) (asset : Heap.Asset) : Asset :=
  {| id := Heap.id asset;
     key := {| path := strings_in h (Heap.path (Heap.key asset)) |} |}.

Definition assets_in (h : Heap.heap) (a : Heap.loc) : list Asset :=
  match nth_error h a with
  | Some (Heap.Assets l) => map (asset_in h) l
  | _ => []
  end.

Definition is_strings (h : Heap.heap) (a : Heap.loc) : bool :=
  match nth_error h a with
  | Some (Heap.Strings _) => true
  | _ => false
  end.

(** The arguments have the types of the source: [assets] refers to an
    array of assets whose paths are arrays of strings, and [prefixPath] to
    an array of strings. *)
Definition well_typed (h : Heap.heap) (assets prefixPath : Heap.loc) : bool :=
  is_strings h prefixPath
  && match nth_error h assets with
     | Some (Heap.Assets l) =>
         forallb (fun asset => is_strings h (Heap.path (Heap.key asset))) l
     | _ => false
     end.

(** The heap [h'] is [h] and new arrays: nothing of [h] was written. *)
Definition grown (h h' : Heap.heap) : Prop := exists new, h' = h ++ new.

(** The call [m] returns in the heap [h], writes to nothing of [h], and its
    result and the heap it leaves satisfy [Q]. *)
Definition runs {A : Type} (m : Heap.M A) (h : Heap.heap)
  (Q : A -> Heap.heap -> Prop) : Prop :=
  exists a h', m h = Some (a, h') /\ grown h h' /\ Q a h'.

(** A heap for the examples: the paths [a] and [b], the array of their two
    assets, and the empty prefix path. *)
Definition two_assets_heap : Heap.heap :=
  [Heap.Strings [lit "a"]; Heap.Strings [lit "b"];
   Heap.Assets [{| Heap.id := lit "a"; Heap.key := {| Heap.path := 0%nat |} |};
                {| Heap.id := lit "b"; Heap.key := {| Heap.path := 1%nat |} |}];
   Heap.Strings []].

(** The result [r] of a call in the heap is the result [p] of the pure
    function: its page holds the assets of [p], in [h] and in every heap
    grown from it, and its cursors are those of [p]. *)
Definition represents (h : Heap.heap) (r : Heap.Props) (p : Props) : Prop :=
  (forall h', grown h h' -> assets_in h' (Heap.displayed r) = displayed p)
  /\ Heap.prevCursor r = prevCursor p
  /\ Heap.nextCursor r = nextCursor p.

(** The call [m] returns [a] in every heap grown from [h], and only
    allocates. *)
Definition returns {A : Type} (m : Heap.M A) (h : Heap.heap) (a : A) : Prop :=
  forall h', grown h h' -> exists h'', m h' = Some (a, h'') /\ grown h' h''.

(** The references [refs] are to the arrays of strings [xs], in this
    order. *)
Definition holds (h : Heap.heap) (refs : list Heap.loc)
  (xs : list (list jsstring)) : Prop :=
  Forall2 (fun r x => nth_error h r = Some (Heap.Strings x)) refs xs.

(** * Properties *)

(** ** The scenarios of the specification *)

(** The text of an array of two strings, and of a string with a quote, a
    line feed, a control character and a lone surrogate. *)
Example stringify_two :
  JSON.stringify [lit "a"; lit "b"]
  = ([91; 34] ++ lit "a" ++ [34; 44; 34] ++ lit "b" ++ [34; 93])%N.
Proof. reflexivity. Qed.

Example stringify_escapes :
  JSON.stringify [[34; 10; 1; 55357]%N]
  = ([91; 34] ++ [92; 34] ++ [92; 110] ++ lit "\u0001" ++ lit "\ud83d"
     ++ [34; 93])%N.
Proof. reflexivity. Qed.

Example parse_escapes :
  JSON.parse (JSON.stringify [[34; 10; 1; 55357]%N; lit "a b"])
  = Some [[34; 10; 1; 55357]%N; lit "a b"].
Proof. reflexivity. Qed.

(** Three assets with one segment each, flat mode, no cursor: one page with
    the three assets and no cursor. *)
Example flat_three_assets :
  buildFlatProps abc_assets [] None
  = Some {| displayed := abc_assets;
            displayPathForAsset := fun asset => path (key asset);
            prevCursor := None;
            nextCursor := None |}.
Proof. reflexivity. Qed.

(** Three assets in the namespaces [x] and [y], namespace mode, empty
    prefix: the namespaces are [x] and [y], the page shows the three assets
    and the first one under the path [x]. *)
Example namespace_three_assets :
  namespaces xy_assets [] = Some [[lit "x"]; [lit "y"]]
  /\ exists r,
       buildNamespaceProps xy_assets [] None = Some r
       /\ displayed r = xy_assets
       /\ displayPathForAsset r (asset_of "x1" ["x"; "1"]%string) = [lit "x"]
       /\ prevCursor r = None /\ nextCursor r = None.
Proof.
  split; [reflexivity |]. eexists. split; [reflexivity |].
  repeat split.
Qed.

(** Fifty assets and a cursor past the end, flat mode: the search gives
    -1, the page is empty and [nextCursor] is the cursor value of the last
    asset. *)
Example flat_fifty_past_end :
  exists r,
    buildFlatProps (numbered_assets 50) [] (Some cursor_z) = Some r
    /\ displayed r = [] /\ prevCursor r = None
    /\ nextCursor r = Some (flat_cursorValue [] (numbered_asset 49)).
Proof.
  eexists. split; [vm_compute; reflexivity |]. repeat split.
Qed.

(** ** [JSON.parse] inverts [JSON.stringify] *)

Section JSONFacts.

Import JSON.

Local Open Scope N_scope.

Lemma hex_val_digit (n : N) : n < 16 -> hex_val (hex_digit n) = Some n.
Proof.
  intros Hn. unfold hex_digit, hex_val.
  destruct (N.ltb_spec n 10) as [Hlt | Hge].
  - replace (48 <=? 48 + n) with true by (symmetry; apply N.leb_le; lia).
    replace (48 + n <=? 57) with true by (symmetry; apply N.leb_le; lia).
    cbn [andb]. f_equal. lia.
  - replace (87 + n <=? 57) with false by (symmetry; apply N.leb_gt; lia).
    rewrite andb_false_r.
    replace (97 <=? 87 + n) with true by (symmetry; apply N.leb_le; lia).
    replace (87 + n <=? 102) with true by (symmetry; apply N.leb_le; lia).
    cbn [andb]. f_equal. lia.
Qed.

Lemma nibbles (c : N) :
  c < 65536 ->
  ((((c / 4096) mod 16) * 16 + (c / 256) mod 16) * 16 + (c / 16) mod 16) * 16
  + c mod 16 = c.
Proof.
  intros Hc.
  assert (H1 : c / 256 = c / 16 / 16) by (rewrite N.Div0.div_div; reflexivity).
  assert (H2 : c / 4096 = c / 16 / 16 / 16)
    by (rewrite !N.Div0.div_div; reflexivity).
  assert (H3 : c / 16 / 16 / 16 < 16).
  { apply N.Div0.div_lt_upper_bound.
    apply N.Div0.div_lt_upper_bound.
    apply N.Div0.div_lt_upper_bound. lia. }
  rewrite H2, H1.
  rewrite (N.mod_small (c / 16 / 16 / 16)) by assumption.
  pose proof (N.div_mod c 16) as E0.
  pose proof (N.div_mod (c / 16) 16) as E1.
  pose proof (N.div_mod (c / 16 / 16) 16) as E2.
  lia.
Qed.

Lemma scan_cons (c : N) (rest : jsstring) :
  scan (c :: rest) =
  if c =? 34 then
    match rest with
    | [d] => if d =? 93 then Some [[]] else None
    | d :: e :: rest' =>
        if (d =? 44) && (e =? 34)
        then r <- scan rest' ;; Some ([] :: r)
        else None
    | [] => None
    end
  else if c =? 92 then
    match rest with
    | [] => None
    | e :: rest1 =>
        if e =? 117 then
          match rest1 with
          | h1 :: h2 :: h3 :: h4 :: rest2 =>
              match hex_val h1, hex_val h2, hex_val h3, hex_val h4 with
              | Some v1, Some v2, Some v3, Some v4 =>
                  push (((v1 * 16 + v2) * 16 + v3) * 16 + v4) (scan rest2)
              | _, _, _, _ => None
              end
          | _ => None
          end
        else
          match unescape e with
          | Some v => push v (scan rest1)
          | None => None
          end
    end
  else if c <? 32 then None
  else push c (scan rest).
Proof. reflexivity. Qed.

Lemma scan_plain (c : N) (rest : jsstring) :
  c <> 34 -> c <> 92 -> 32 <= c -> scan (c :: rest) = push c (scan rest).
Proof.
  intros H1 H2 H3. rewrite scan_cons.
  apply N.eqb_neq in H1. apply N.eqb_neq in H2.
  rewrite H1, H2.
  replace (c <? 32) with false by (symmetry; apply N.ltb_ge; lia).
  reflexivity.
Qed.

Lemma scan_UnicodeEscape (c : N) (rest : jsstring) :
  c < 65536 -> scan (UnicodeEscape c ++ rest) = push c (scan rest).
Proof.
  intros Hc. unfold UnicodeEscape.
  cbn [app]. rewrite scan_cons.
  change (92 =? 34) with false. change (92 =? 92) with true.
  change (117 =? 117) with true. cbv iota.
  rewrite !hex_val_digit by (apply N.mod_lt; lia).
  rewrite nibbles by assumption. reflexivity.
Qed.

Lemma scan_escape_unit (c : N) (rest : jsstring) :
  scan (escape_unit c ++ rest) = push c (scan rest).
Proof.
  unfold escape_unit.
  destruct (N.eqb_spec c 8) as [-> | N8]; [reflexivity |].
  destruct (N.eqb_spec c 9) as [-> | N9]; [reflexivity |].
  destruct (N.eqb_spec c 10) as [-> | N10]; [reflexivity |].
  destruct (N.eqb_spec c 12) as [-> | N12]; [reflexivity |].
  destruct (N.eqb_spec c 13) as [-> | N13]; [reflexivity |].
  destruct (N.eqb_spec c 34) as [-> | N34]; [reflexivity |].
  destruct (N.eqb_spec c 92) as [-> | N92]; [reflexivity |].
  destruct ((c <? 32) || is_leading_surrogate c || is_trailing_surrogate c)
    eqn:E.
  - apply scan_UnicodeEscape.
    unfold is_leading_surrogate, is_trailing_surrogate in E.
    apply orb_true_iff in E. destruct E as [E | E].
    + apply orb_true_iff in E. destruct E as [E | E].
      * apply N.ltb_lt in E. lia.
      * apply andb_true_iff in E. destruct E as [_ E].
        apply N.leb_le in E. lia.
    + apply andb_true_iff in E. destruct E as [_ E].
      apply N.leb_le in E. lia.
  - apply orb_false_iff in E. destruct E as [E _].
    apply orb_false_iff in E. destruct E as [E _].
    apply N.ltb_ge in E.
    cbn [app]. apply scan_plain; assumption.
Qed.

Lemma scan_surrogate (c : N) (rest : jsstring) :
  is_leading_surrogate c || is_trailing_surrogate c = true ->
  scan (c :: rest) = push c (scan rest).
Proof.
  intros E. unfold is_leading_surrogate, is_trailing_surrogate in E.
  apply orb_true_iff in E.
  destruct E as [E | E]; apply andb_true_iff in E; destruct E as [E _];
    apply N.leb_le in E; apply scan_plain; lia.
Qed.

Lemma quote_body_pair (c d : N) (s : jsstring) :
  quote_body (c :: d :: s) =
  if is_leading_surrogate c && is_trailing_surrogate d
  then c :: d :: quote_body s
  else escape_unit c ++ quote_body (d :: s).
Proof. reflexivity. Qed.

(** Reading the text of a string gives the string back, in front of what
    the rest of the text reads as. *)
Lemma scan_quote_body (s rest : jsstring) :
  scan (quote_body s ++ rest) = fold_right push (scan rest) s.
Proof.
  remember (List.length s) as n eqn:Hn.
  assert (Hle : (List.length s <= n)%nat) by lia. clear Hn.
  revert s Hle. induction n as [| n IH]; intros s Hle.
  - destruct s; [reflexivity | simpl in Hle; lia].
  - destruct s as [| c [| d s']].
    + reflexivity.
    + cbn [quote_body fold_right]. apply scan_escape_unit.
    + rewrite quote_body_pair.
      destruct (is_leading_surrogate c && is_trailing_surrogate d) eqn:E.
      * apply andb_true_iff in E. destruct E as [Ec Ed].
        cbn [app fold_right].
        rewrite scan_surrogate by (rewrite Ec; reflexivity).
        rewrite scan_surrogate by (rewrite Ed; apply orb_true_r).
        rewrite IH by (simpl in Hle; lia). reflexivity.
      * rewrite <- app_assoc, scan_escape_unit.
        rewrite IH by (simpl in Hle |- *; lia). reflexivity.
Qed.

Lemma fold_push (s h : jsstring) (t : list jsstring) :
  fold_right push (Some (h :: t)) s = Some ((s ++ h) :: t).
Proof.
  induction s as [| c s IH]; [reflexivity |].
  cbn [fold_right]. rewrite IH. reflexivity.
Qed.

Lemma elements_cons (s : jsstring) (p : list jsstring) :
  elements (s :: p) ++ [93] =
  34 :: quote_body s ++ 34 ::
    match p with [] => [93] | _ :: _ => 44 :: elements p ++ [93] end.
Proof.
  destruct p as [| q p].
  - cbn [elements]. unfold QuoteJSONString.
    cbn [app]. rewrite <- app_assoc. reflexivity.
  - change (elements (s :: q :: p))
      with (QuoteJSONString s ++ 44 :: elements (q :: p)).
    unfold QuoteJSONString at 1. cbn [app].
    rewrite <- !app_assoc. reflexivity.
Qed.

Lemma scan_elements (p : list jsstring) (s : jsstring) :
  scan (quote_body s ++ 34 ::
          match p with [] => [93] | _ :: _ => 44 :: elements p ++ [93] end)
  = Some (s :: p).
Proof.
  revert s. induction p as [| q p IH]; intros s; rewrite scan_quote_body.
  - rewrite scan_cons. change (34 =? 34) with true. cbv iota.
    change (93 =? 93) with true. cbv iota.
    rewrite fold_push, app_nil_r. reflexivity.
  - cbv iota. rewrite elements_cons. rewrite scan_cons.
    change (34 =? 34) with true. cbv iota.
    change (44 =? 44) with true. cbn [andb].
    rewrite IH. cbn [bind].
    rewrite fold_push, app_nil_r. reflexivity.
Qed.

Lemma parse_stringify (p : list jsstring) : parse (stringify p) = Some p.
Proof.
  unfold stringify. destruct p as [| s p].
  - reflexivity.
  - rewrite elements_cons. unfold parse.
    change (91 =? 91) with true. change (34 =? 93) with false.
    change (34 =? 34) with true. cbv iota.
    apply scan_elements.
Qed.

Lemma stringify_inj (p q : list jsstring) :
  stringify p = stringify q -> p = q.
Proof.
  intros H. apply (f_equal parse) in H.
  rewrite !parse_stringify in H. congruence.
Qed.

End JSONFacts.

(** ** The order on strings *)

Section StringOrder.

Lemma str_compare_refl (a : jsstring) : str_compare a a = Eq.
Proof.
  induction a as [| x a IH]; [reflexivity |].
  cbn [str_compare]. rewrite N.compare_refl. exact IH.
Qed.

Lemma str_compare_eq (a b : jsstring) : str_compare a b = Eq -> a = b.
Proof.
  revert b. induction a as [| x a IH]; intros [| y b] H;
    try reflexivity; try discriminate.
  cbn [str_compare] in H.
  destruct (N.compare_spec x y) as [-> | Hlt | Hgt]; try discriminate.
  f_equal. apply IH. exact H.
Qed.

Lemma str_compare_antisym (a b : jsstring) :
  str_compare b a = CompOpp (str_compare a b).
Proof.
  revert b. induction a as [| x a IH]; intros [| y b]; try reflexivity.
  cbn [str_compare]. rewrite (N.compare_antisym x y).
  destruct (N.compare x y); cbn [CompOpp]; auto.
Qed.

Lemma str_compare_lt_trans (a b c : jsstring) :
  str_compare a b = Lt -> str_compare b c = Lt -> str_compare a c = Lt.
Proof.
  revert b c. induction a as [| x a IH]; intros [| y b] [| z c] Hab Hbc;
    try reflexivity; try discriminate.
  cbn [str_compare] in *.
  destruct (N.compare_spec x y) as [-> | Hxy | Hxy]; try discriminate.
  - destruct (N.compare y z); try discriminate; try reflexivity.
    eapply IH; eassumption.
  - destruct (N.compare_spec y z) as [-> | Hyz | Hyz]; try discriminate.
    + apply N.compare_lt_iff in Hxy. rewrite Hxy. reflexivity.
    + assert (Hxz : (x < z)%N) by lia.
      apply N.compare_lt_iff in Hxz. rewrite Hxz. reflexivity.
Qed.

Lemma str_ltb_lt (a b : jsstring) : str_ltb a b = true <-> str_compare a b = Lt.
Proof.
  unfold str_ltb. destruct (str_compare a b); split; congruence.
Qed.

Lemma str_leb_spec (a b : jsstring) :
  str_leb a b = true <-> str_compare a b <> Gt.
Proof.
  unfold str_leb, str_ltb. rewrite (str_compare_antisym a b).
  destruct (str_compare a b); cbn; split; congruence.
Qed.

Lemma str_leb_refl (a : jsstring) : str_leb a a = true.
Proof. apply str_leb_spec. rewrite str_compare_refl. discriminate. Qed.

Lemma str_leb_antisym (a b : jsstring) :
  str_leb a b = true -> str_leb b a = true -> a = b.
Proof.
  rewrite !str_leb_spec. rewrite (str_compare_antisym a b).
  intros H1 H2. apply str_compare_eq.
  destruct (str_compare a b); cbn in *; congruence.
Qed.

Lemma str_leb_trans (a b c : jsstring) :
  str_leb a b = true -> str_leb b c = true -> str_leb a c = true.
Proof.
  rewrite !str_leb_spec. intros H1 H2 H3.
  assert (Hca : str_compare c a = Lt).
  { rewrite (str_compare_antisym a c), H3. reflexivity. }
  destruct (str_compare a b) eqn:Eab; try congruence.
  - apply str_compare_eq in Eab. subst b. congruence.
  - destruct (str_compare b c) eqn:Ebc; try congruence.
    + apply str_compare_eq in Ebc. subst c.
      rewrite (str_compare_antisym a b), Eab in Hca. discriminate.
    + pose proof (str_compare_lt_trans _ _ _ Ebc Hca) as Hba.
      rewrite (str_compare_antisym a b), Eab in Hba. discriminate.
Qed.

Lemma str_leb_total (a b : jsstring) :
  str_leb a b = true \/ str_leb b a = true.
Proof.
  rewrite !str_leb_spec. rewrite (str_compare_antisym a b).
  destruct (str_compare a b); cbn; [left | left | right]; congruence.
Qed.

Lemma str_leb_nil (a : jsstring) : str_leb [] a = true.
Proof. destruct a; reflexivity. Qed.

Lemma str_eqb_eq (a b : jsstring) : str_eqb a b = true <-> a = b.
Proof.
  unfold str_eqb. split.
  - destruct (str_compare a b) eqn:E; try discriminate.
    intros _. apply str_compare_eq. exact E.
  - intros ->. rewrite str_compare_refl. reflexivity.
Qed.

End StringOrder.

(** ** Arrays *)

Section ArrayFacts.

Context {A : Type}.

Lemma get_Some (l : list A) (i : Z) :
  (0 <= i < Z.of_nat (length l))%Z -> exists a, get l i = Some a.
Proof.
  intros H. unfold get.
  replace (i <? 0)%Z with false by (symmetry; apply Z.ltb_ge; lia).
  destruct (nth_error l (Z.to_nat i)) as [a |] eqn:E; [eauto |].
  apply nth_error_None in E. lia.
Qed.

Lemma get_In (l : list A) (i : Z) (a : A) : get l i = Some a -> In a l.
Proof.
  unfold get. destruct (i <? 0)%Z; [discriminate |].
  apply nth_error_In.
Qed.

Lemma get_range (l : list A) (i : Z) (a : A) :
  get l i = Some a -> (0 <= i < Z.of_nat (length l))%Z.
Proof.
  unfold get. destruct (Z.ltb_spec i 0); [discriminate |].
  intros E. assert (Z.to_nat i < length l)%nat
    by (apply nth_error_Some; congruence).
  lia.
Qed.

Lemma get_of_nat (l : list A) (n : nat) :
  get l (Z.of_nat n) = nth_error l n.
Proof.
  unfold get.
  replace (Z.of_nat n <? 0)%Z with false by (symmetry; apply Z.ltb_ge; lia).
  rewrite Nat2Z.id. reflexivity.
Qed.

Lemma findIndex_from_spec (f : A -> bool) (l : list A) (i : Z) :
  (findIndex_from f l i = (-1)%Z /\ forall x, In x l -> f x = false)
  \/ exists n x,
       findIndex_from f l i = (i + Z.of_nat n)%Z
       /\ nth_error l n = Some x /\ f x = true
       /\ forall m y, (m < n)%nat -> nth_error l m = Some y -> f y = false.
Proof.
  revert i. induction l as [| a l IH]; intros i.
  - left. split; [reflexivity | intros x []].
  - cbn [findIndex_from]. destruct (f a) eqn:Fa.
    + right. exists 0%nat, a. repeat split; try assumption.
      * lia.
      * intros m y Hm. lia.
    + destruct (IH (i + 1)%Z) as [[E H] | (n & x & E & Hn & Fx & Hmin)].
      * left. split; [exact E |].
        intros x [<- | Hx]; auto.
      * right. exists (S n), x. repeat split; try assumption.
        -- rewrite E. lia.
        -- intros [| m] y Hm Hy.
           ++ cbn in Hy. congruence.
           ++ cbn in Hy. apply (Hmin m); [lia | exact Hy].
Qed.

(** [findIndex] returns -1 when no element satisfies [f], and otherwise
    the index of the first element that does. *)
Lemma findIndex_spec (f : A -> bool) (l : list A) :
  (findIndex f l = (-1)%Z /\ forall x, In x l -> f x = false)
  \/ exists n x,
       findIndex f l = Z.of_nat n
       /\ nth_error l n = Some x /\ f x = true
       /\ forall m y, (m < n)%nat -> nth_error l m = Some y -> f y = false.
Proof.
  unfold findIndex.
  destruct (findIndex_from_spec f l 0) as [H | (n & x & E & H)]; [left; exact H |].
  right. exists n, x. split; [rewrite E; lia | exact H].
Qed.

Lemma findIndex_range (f : A -> bool) (l : list A) :
  (-1 <= findIndex f l < Z.of_nat (length l))%Z.
Proof.
  destruct (findIndex_spec f l) as [[E _] | (n & x & E & Hn & _)].
  - rewrite E. lia.
  - rewrite E. assert (n < length l)%nat by (apply nth_error_Some; congruence).
    lia.
Qed.

(** A slice from a non-negative start is the window of [end_ - start]
    elements that begins there. *)
Lemma slice_nonneg (l : list A) (s e : Z) :
  (0 <= s)%Z -> (0 <= e)%Z ->
  slice l s e = firstn (Z.to_nat (e - s)) (skipn (Z.to_nat s) l).
Proof.
  intros Hs He. unfold slice.
  replace (s <? 0)%Z with false by (symmetry; apply Z.ltb_ge; lia).
  replace (e <? 0)%Z with false by (symmetry; apply Z.ltb_ge; lia).
  set (len := Z.of_nat (length l)).
  destruct (Z.le_gt_cases s len) as [Hle | Hgt].
  - rewrite (Z.min_l s len) by lia.
    destruct (Z.le_gt_cases e len) as [Hle' | Hgt'].
    + rewrite (Z.min_l e len) by lia. reflexivity.
    + rewrite (Z.min_r e len) by lia.
      rewrite !firstn_all2; try reflexivity;
        rewrite length_skipn; unfold len in *; lia.
  - rewrite (Z.min_r s len) by lia.
    rewrite (skipn_all2 l (n := Z.to_nat len)) by (unfold len; lia).
    rewrite (skipn_all2 l (n := Z.to_nat s)) by (unfold len in *; lia).
    rewrite !firstn_nil. reflexivity.
Qed.

Lemma hd_slice (l : list A) (s e : Z) :
  (0 <= s)%Z -> (s < e)%Z -> hd_error (slice l s e) = get l s.
Proof.
  intros Hs He. rewrite slice_nonneg by lia.
  unfold get. replace (s <? 0)%Z with false by (symmetry; apply Z.ltb_ge; lia).
  destruct (Z.to_nat (e - s)) as [| k] eqn:Ek; [lia |].
  generalize (Z.to_nat s) as n. clear.
  intros n. revert l. induction n as [| n IH]; intros [| a l]; try reflexivity.
  cbn [skipn nth_error]. apply IH.
Qed.

End ArrayFacts.

(** ** The flat mode *)

Section FlatFacts.

Variable assets : list Asset.
Variable prefixPath : list jsstring.

Lemma flat_cursorIndex_range (cursor : option jsstring) :
  (-1 <= flat_cursorIndex assets prefixPath cursor
   <= Z.of_nat (length assets))%Z.
Proof.
  unfold flat_cursorIndex. destruct (cursor_truthy cursor) as [c |].
  - pose proof (findIndex_range
                  (fun ns => str_leb c (flat_cursorValue prefixPath ns)) assets).
    lia.
  - lia.
Qed.

(** The result of [buildFlatProps] in terms of the index it computes; in
    particular the two array reads never meet [undefined]. *)
Lemma buildFlatProps_page (cursor : option jsstring) :
  exists r,
    buildFlatProps assets prefixPath cursor = Some r
    /\ displayPathForAsset r = (fun asset => path (key asset))
    /\ flat_page assets prefixPath
                 (flat_cursorIndex assets prefixPath cursor) r.
Proof.
  pose proof (flat_cursorIndex_range cursor) as Hi.
  unfold buildFlatProps, flat_page.
  set (i := flat_cursorIndex assets prefixPath cursor) in *.
  unfold PAGE_SIZE in *.
  destruct (Z.gtb_spec i 0) as [Hpos | Hnpos];
    destruct (Z.ltb_spec (i + 50) (Z.of_nat (length assets))) as [Hnx | Hnnx].
  - destruct (get_Some assets (Z.max 0 (i - 50))) as [a Ha]; [lia |].
    destruct (get_Some assets ((i + 50)%Z)) as [b Hb]; [lia |].
    unfold flat_cursorValue_at. rewrite Ha, Hb. cbn [bind].
    eexists. split; [reflexivity |]. cbn.
    repeat split; try congruence; try lia; eauto.
  - destruct (get_Some assets (Z.max 0 (i - 50))) as [a Ha]; [lia |].
    unfold flat_cursorValue_at. rewrite Ha. cbn [bind].
    eexists. split; [reflexivity |]. cbn.
    repeat split; try congruence; try lia; eauto.
  - destruct (get_Some assets ((i + 50)%Z)) as [b Hb]; [lia |].
    unfold flat_cursorValue_at. rewrite Hb. cbn [bind].
    eexists. split; [reflexivity |]. cbn.
    repeat split; try congruence; try lia; eauto.
  - cbn [bind].
    eexists. split; [reflexivity |]. cbn.
    repeat split; try congruence; try lia; eauto.
Qed.

Lemma findIndex_IsStartIndex {A : Type} (cv : A -> jsstring) (l : list A)
  (c : jsstring) :
  IsStartIndex cv l (Some c) (findIndex (fun x => str_leb c (cv x)) l).
Proof.
  unfold IsStartIndex.
  destruct (findIndex_spec (fun x => str_leb c (cv x)) l)
    as [[E H] | (n & x & E & Hn & Fx & Hmin)].
  - left. split; assumption.
  - right. exists x. rewrite E, get_of_nat. repeat split; try assumption.
    intros j b Hj Hb. pose proof (get_range _ _ _ Hb) as Hr.
    apply (Hmin (Z.to_nat j)); [lia |].
    rewrite <- get_of_nat, Z2Nat.id by lia. exact Hb.
Qed.

End FlatFacts.

Lemma buildFlatProps_nil (prefixPath : list jsstring)
  (cursor : option jsstring) :
  buildFlatProps [] prefixPath cursor =
  Some {| displayed := [];
          displayPathForAsset := fun asset => path (key asset);
          prevCursor := None;
          nextCursor := None |}.
Proof. destruct cursor as [[| x c] |]; reflexivity. Qed.

(** The page of the flat mode in terms of the start index. *)
Lemma flat_start_page (assets : list Asset) (prefixPath : list jsstring)
  (cursor : option jsstring) :
  exists s r,
    IsStartIndex (flat_cursorValue prefixPath) assets cursor s
    /\ buildFlatProps assets prefixPath cursor = Some r
    /\ flat_page assets prefixPath s r.
Proof.
  destruct (buildFlatProps_page assets prefixPath cursor) as (r & Hr & _ & Hp).
  destruct cursor as [[| x c] |].
  - (* the empty string is falsy: the code starts at 0 *)
    destruct assets as [| a l].
    + exists (-1)%Z, r. split; [left; split; [reflexivity | intros ? []] |].
      split; [exact Hr |].
      rewrite buildFlatProps_nil in Hr. injection Hr as <-.
      unfold flat_page, PAGE_SIZE. cbn. intuition (congruence || lia).
    + exists 0%Z, r. split; [| split; assumption].
      right. exists a. repeat split.
      intros j b Hj Hb. apply get_range in Hb. lia.
  - exists (flat_cursorIndex assets prefixPath (Some (x :: c))), r.
    split; [| split; assumption].
    apply findIndex_IsStartIndex.
  - exists 0%Z, r. split; [reflexivity | split; assumption].
Qed.

Lemma IsStartIndex_unique {A : Type} (cv : A -> jsstring) (l : list A)
  (cursor : option jsstring) (s s' : Z) :
  IsStartIndex cv l cursor s -> IsStartIndex cv l cursor s' -> s = s'.
Proof.
  unfold IsStartIndex. destruct cursor as [c |]; [| congruence].
  intros [[-> H] | (a & Ha & Fa & Hmin)] [[-> H'] | (a' & Ha' & Fa' & Hmin')].
  - reflexivity.
  - apply get_In in Ha'. rewrite (H a' Ha') in Fa'. discriminate.
  - apply get_In in Ha. rewrite (H' a Ha) in Fa. discriminate.
  - destruct (Z.lt_trichotomy s s') as [Hlt | [Heq | Hgt]]; [| exact Heq |].
    + rewrite (Hmin' s a Hlt Ha) in Fa. discriminate.
    + rewrite (Hmin s' a' Hgt Ha') in Fa'. discriminate.
Qed.

(** C1: in flat mode, with the start index 0 for an undefined cursor and
    otherwise the first index whose cursor value is not below the cursor
    (-1 when there is none), [displayed] is the slice of fifty assets from
    the start index, [prevCursor] is defined exactly when the start index is
    positive and is then the cursor value of the asset fifty places before
    (or of the first asset), and [nextCursor] is defined exactly when the
    start index plus fifty is inside the list and is then the cursor value
    of the asset there.  The start index is unique, and from a start index
    inside the list the slice is the window of at most fifty assets that
    begins there. *)
Theorem flat_contract (assets : list Asset) (prefixPath : list jsstring)
  (cursor : option jsstring) :
  exists s r,
    IsStartIndex (flat_cursorValue prefixPath) assets cursor s
    /\ (forall s', IsStartIndex (flat_cursorValue prefixPath) assets cursor s'
                  -> s' = s)
    /\ buildFlatProps assets prefixPath cursor = Some r
    /\ flat_page assets prefixPath s r
    /\ ((0 <= s)%Z ->
        displayed r = firstn 50 (skipn (Z.to_nat s) assets)).
Proof.
  destruct (flat_start_page assets prefixPath cursor) as (s & r & Hs & Hr & Hp).
  exists s, r. split; [exact Hs |].
  split; [intros s' Hs'; eapply IsStartIndex_unique; eassumption |].
  split; [exact Hr |]. split; [exact Hp |].
  intros H0. destruct Hp as [Hd _]. rewrite Hd.
  unfold PAGE_SIZE. rewrite slice_nonneg by lia.
  replace (Z.to_nat (s + 50 - s)) with 50%nat by lia. reflexivity.
Qed.

Lemma past_end_not_found {A : Type} (cv : A -> jsstring) (l : list A)
  (c : jsstring) :
  past_end cv l c -> findIndex (fun x => str_leb c (cv x)) l = (-1)%Z.
Proof.
  intros H.
  destruct (findIndex_spec (fun x => str_leb c (cv x)) l)
    as [[E _] | (n & x & _ & Hn & Fx & _)]; [exact E |].
  apply nth_error_In in Hn. apply H in Hn.
  unfold str_leb in Fx. rewrite Hn in Fx. discriminate.
Qed.

Lemma window_one {A : Type} (l : list A) (n : nat) (a : A) :
  nth_error l n = Some a -> firstn 1 (skipn n l) = [a].
Proof.
  revert l. induction n as [| n IH]; intros [| x l] H; try discriminate.
  - cbn in H. injection H as ->. reflexivity.
  - cbn [skipn]. apply IH. exact H.
Qed.

(** [l.slice(-1, 49)] is the last element of a list of one to forty-nine
    elements, and is empty for the other lists. *)
Lemma slice_last {A : Type} (l : list A) :
  slice l (-1) 49 =
  match get l (Z.of_nat (length l) - 1) with
  | Some a => if (length l <=? 49)%nat then [a] else []
  | None => []
  end.
Proof.
  destruct l as [| x l']; [reflexivity |].
  set (l := x :: l').
  assert (Hlen : (1 <= length l)%nat) by (cbn; lia).
  destruct (get_Some l ((Z.of_nat (length l) - 1)%Z)) as [a Ha]; [lia |].
  rewrite Ha. unfold slice.
  change (-1 <? 0)%Z with true. change (49 <? 0)%Z with false. cbv iota.
  rewrite Z.max_l by lia.
  unfold get in Ha.
  replace (Z.of_nat (length l) - 1 <? 0)%Z with false in Ha
    by (symmetry; apply Z.ltb_ge; lia).
  replace (Z.of_nat (length l) + -1)%Z with (Z.of_nat (length l) - 1)%Z by lia.
  destruct (Nat.leb_spec (length l) 49) as [Hle | Hgt].
  - rewrite Z.min_r by lia.
    replace (Z.to_nat (Z.of_nat (length l) - (Z.of_nat (length l) - 1)))
      with 1%nat by lia.
    apply window_one. exact Ha.
  - rewrite Z.min_l by lia.
    replace (Z.to_nat (49 - (Z.of_nat (length l) - 1))) with 0%nat by lia.
    reflexivity.
Qed.

(** C9, as amended: in flat mode a cursor above the cursor value of every
    asset gives [assets.slice(-1, 49)], the last asset alone for a
    collection of one to forty-nine assets and no asset for an empty
    collection or one of fifty assets or more; [prevCursor] is undefined,
    and [nextCursor] is defined, as the cursor value of [assets[49]],
    exactly when there are fifty assets or more.  For a collection that is
    not empty this is never the empty page with two undefined cursors. *)
Theorem flat_past_end (assets : list Asset) (prefixPath : list jsstring)
  (c : jsstring) :
  past_end (flat_cursorValue prefixPath) assets c ->
  exists r,
    buildFlatProps assets prefixPath (Some c) = Some r
    /\ flat_past_end_page_nonempty assets prefixPath r.
Proof.
  intros Hpast.
  destruct (buildFlatProps_page assets prefixPath (Some c)) as (r & Hr & _ & Hp).
  exists r. split; [exact Hr |].
  destruct assets as [| x l'] eqn:El.
  { clear Hp. rewrite buildFlatProps_nil in Hr. injection Hr as <-.
    unfold flat_past_end_page_nonempty, last_asset. cbn.
    intuition (congruence || lia). }
  rewrite <- El in *.
  assert (Hlen : (1 <= length assets)%nat) by (rewrite El; cbn; lia).
  assert (Hne : assets <> []) by (rewrite El; discriminate).
  clear El x l'.
  assert (Hi : flat_cursorIndex assets prefixPath (Some c) = (-1)%Z).
  { unfold flat_cursorIndex, cursor_truthy.
    destruct c as [| u c'].
    - destruct assets as [| a l]; [congruence |].
      specialize (Hpast a (or_introl eq_refl)).
      unfold str_ltb in Hpast.
      destruct (flat_cursorValue prefixPath a); discriminate.
    - cbn [truthy]. apply past_end_not_found. exact Hpast. }
  rewrite Hi in Hp. unfold flat_page, PAGE_SIZE in Hp.
  destruct Hp as (Hd & Hprev & _ & Hnext & Hnext').
  change (-1 + 50)%Z with 49%Z in *.
  assert (Hprev' : prevCursor r = None).
  { destruct (prevCursor r); [| reflexivity].
    assert ((-1 > 0)%Z) by (apply Hprev; discriminate). lia. }
  pose proof (slice_last assets) as Hs.
  unfold flat_past_end_page_nonempty, last_asset.
  destruct (get_Some assets ((Z.of_nat (length assets) - 1)%Z))
    as [a Ha]; [lia |].
  rewrite Ha in Hs.
  repeat split.
  - exact Hd.
  - intros [_ Hle]. exists a. split; [exact Ha |].
    rewrite Hd, Hs.
    destruct (Nat.leb_spec (length assets) 49); [reflexivity | lia].
  - intros [H0 | H50]; [lia |].
    rewrite Hd, Hs.
    destruct (Nat.leb_spec (length assets) 49); [lia | reflexivity].
  - exact Hprev'.
  - intros H. apply Hnext in H. lia.
  - intros H. apply Hnext. lia.
  - intros H. apply Hnext'. lia.
  - intros _ (Hd0 & _ & Hn0).
    destruct (Nat.leb_spec (length assets) 49) as [Hle | Hgt].
    + rewrite Hd, Hs in Hd0.
      destruct (Nat.leb_spec (length assets) 49); [discriminate | lia].
    + apply Hnext; [lia | exact Hn0].
Qed.

Lemma flat_past_end_witness :
  past_end (flat_cursorValue []) one_asset cursor_z
  /\ exists r,
       buildFlatProps one_asset [] (Some cursor_z) = Some r
       /\ flat_past_end_page_nonempty one_asset [] r.
Proof.
  assert (H : past_end (flat_cursorValue []) one_asset cursor_z).
  { intros a [<- | []]. reflexivity. }
  split; [exact H | exact (flat_past_end one_asset [] cursor_z H)].
Defined.

(** C9 as worded fails on the empty collection: the cursor is above every
    cursor value, the collection has at most forty-nine elements, and the
    page holds no last asset. *)
Lemma flat_past_end_empty_collection :
  past_end (flat_cursorValue []) [] cursor_z
  /\ ~ (exists r,
          buildFlatProps [] [] (Some cursor_z) = Some r
          /\ flat_past_end_page [] [] r).
Proof.
  split; [intros a [] |].
  intros (r & Hr & _ & Hlast & _).
  destruct Hlast as (a & Ha & _); [cbn; lia |].
  discriminate Ha.
Qed.

(** ** The namespace list *)

Section NamespaceList.

Lemma existsb_stringify (x : list jsstring) (acc : list (list jsstring)) :
  existsb (str_eqb (JSON.stringify x)) (map JSON.stringify acc) =
  existsb (fun y => str_eqb (JSON.stringify x) (JSON.stringify y)) acc.
Proof.
  induction acc as [| y acc IH]; [reflexivity |].
  cbn [map existsb]. rewrite IH. reflexivity.
Qed.

Lemma Array_from_Set_stringify (l acc : list (list jsstring)) :
  fold_left Set_add (map JSON.stringify l) (map JSON.stringify acc) =
  map JSON.stringify (fold_left add_distinct l acc).
Proof.
  revert acc. induction l as [| x l IH]; intros acc; [reflexivity |].
  cbn [map fold_left]. rewrite <- IH. f_equal.
  unfold Set_add, add_distinct. rewrite existsb_stringify.
  destruct (existsb _ acc); [reflexivity |].
  rewrite map_app. reflexivity.
Qed.

Lemma mapM_parse_stringify (l : list (list jsstring)) :
  mapM JSON.parse (map JSON.stringify l) = Some l.
Proof.
  induction l as [| x l IH]; [reflexivity |].
  cbn [map mapM]. rewrite parse_stringify, IH. reflexivity.
Qed.

(** [namespaces] never throws: every text it parses was written by
    [JSON.stringify]. *)
Lemma namespaces_eq (assets : list Asset) (prefixPath : list jsstring) :
  namespaces assets prefixPath = Some (namespace_list assets prefixPath).
Proof.
  unfold namespaces, namespace_list, Array_from_Set, distinct.
  rewrite <- (map_map (namespaceForAsset prefixPath) JSON.stringify).
  rewrite (Array_from_Set_stringify _ []).
  rewrite mapM_parse_stringify. reflexivity.
Qed.

Lemma existsb_same_text (x : list jsstring) (acc : list (list jsstring)) :
  existsb (fun y => str_eqb (JSON.stringify x) (JSON.stringify y)) acc = true
  <-> In x acc.
Proof.
  rewrite existsb_exists. split.
  - intros (y & Hy & E). apply str_eqb_eq, stringify_inj in E. congruence.
  - intros H. exists x. split; [exact H | apply str_eqb_eq; reflexivity].
Qed.

Lemma In_add_distinct (l acc : list (list jsstring)) (x : list jsstring) :
  In x (fold_left add_distinct l acc) <-> In x acc \/ In x l.
Proof.
  revert acc. induction l as [| y l IH]; intros acc.
  - cbn. tauto.
  - cbn [fold_left]. rewrite IH. unfold add_distinct.
    destruct (existsb _ acc) eqn:E.
    + apply existsb_same_text in E. cbn. split; [tauto |].
      intros [H | [<- | H]]; tauto.
    + rewrite in_app_iff. cbn. tauto.
Qed.

Lemma NoDup_add_distinct (l acc : list (list jsstring)) :
  NoDup acc -> NoDup (fold_left add_distinct l acc).
Proof.
  revert acc. induction l as [| y l IH]; intros acc H; [exact H |].
  cbn [fold_left]. apply IH. unfold add_distinct.
  destruct (existsb _ acc) eqn:E; [exact H |].
  apply NoDup_app; [exact H | repeat constructor; intros [] |].
  intros x Hx [<- | []].
  apply existsb_same_text in Hx. congruence.
Qed.

Lemma length_add_distinct (l acc : list (list jsstring)) :
  (length (fold_left add_distinct l acc) <= length acc + length l)%nat.
Proof.
  revert acc. induction l as [| y l IH]; intros acc; [cbn; lia |].
  cbn [fold_left length]. specialize (IH (add_distinct acc y)).
  unfold add_distinct in *. destruct (existsb _ acc).
  - lia.
  - rewrite length_app in IH. cbn in IH. lia.
Qed.

Lemma sort_insert_perm (x : list jsstring) (l : list (list jsstring)) :
  Permutation (sort_insert x l) (x :: l).
Proof.
  induction l as [| y l IH]; [reflexivity |].
  cbn [sort_insert]. destruct (str_ltb _ _); [| reflexivity].
  rewrite IH. apply perm_swap.
Qed.

Lemma sort_perm (l : list (list jsstring)) : Permutation (sort l) l.
Proof.
  induction l as [| x l IH]; [reflexivity |].
  cbn [sort fold_right]. rewrite sort_insert_perm.
  constructor. exact IH.
Qed.

Lemma In_namespace_list (assets : list Asset) (prefixPath ns : list jsstring) :
  In ns (namespace_list assets prefixPath) <->
  exists asset, In asset assets /\ ns = namespaceForAsset prefixPath asset.
Proof.
  unfold namespace_list, distinct.
  rewrite (Permutation_in' (eq_refl ns) (sort_perm _)).
  rewrite In_add_distinct, in_map_iff. cbn.
  split.
  - intros [[] | (a & E & Ha)]. eauto.
  - intros (a & Ha & E). right. eauto.
Qed.

Lemma NoDup_namespace_list (assets : list Asset) (prefixPath : list jsstring) :
  NoDup (namespace_list assets prefixPath).
Proof.
  unfold namespace_list, distinct.
  eapply Permutation_NoDup; [symmetry; apply sort_perm |].
  apply NoDup_add_distinct. constructor.
Qed.

Lemma length_namespace_list (assets : list Asset) (prefixPath : list jsstring) :
  (length (namespace_list assets prefixPath) <= length assets)%nat.
Proof.
  unfold namespace_list, distinct.
  rewrite (Permutation_length (sort_perm _)).
  pose proof (length_add_distinct
                (map (namespaceForAsset prefixPath) assets) []) as H.
  rewrite length_map in H. exact H.
Qed.

End NamespaceList.

(** ** The namespace mode *)

Section NamespaceFacts.

Variable assets : list Asset.
Variable prefixPath : list jsstring.

Lemma ns_cursorIndex_range (cursor : option jsstring)
  (nss : list (list jsstring)) :
  (-1 <= ns_cursorIndex prefixPath cursor nss <= Z.of_nat (length nss))%Z.
Proof.
  unfold ns_cursorIndex. destruct (cursor_truthy cursor) as [c |].
  - pose proof (findIndex_range
                  (fun ns => str_leb c (ns_cursorValue prefixPath ns)) nss).
    lia.
  - lia.
Qed.

Lemma filterAssetsByNamespace_nil (l : list Asset) :
  filterAssetsByNamespace l [] = [].
Proof.
  unfold filterAssetsByNamespace.
  induction l as [| a l IH]; [reflexivity | exact IH].
Qed.

(** The result of [buildNamespaceProps] in terms of the index it computes:
    the empty page when the index is -1, the page of the window at the
    index otherwise.  It never throws. *)
Lemma buildNamespaceProps_page (cursor : option jsstring) :
  let nss := namespace_list assets prefixPath in
  let i := ns_cursorIndex prefixPath cursor nss in
  (i = (-1)%Z
   /\ buildNamespaceProps assets prefixPath cursor
      = Some (empty_page prefixPath))
  \/ ((0 <= i)%Z
      /\ exists r,
           buildNamespaceProps assets prefixPath cursor = Some r
           /\ displayPathForAsset r = namespaceForAsset prefixPath
           /\ ns_page assets prefixPath nss i r).
Proof.
  intros nss i. unfold buildNamespaceProps.
  rewrite namespaces_eq. cbn [bind]. fold nss. fold i.
  pose proof (ns_cursorIndex_range cursor nss) as Hi. fold i in Hi.
  destruct (Z.eqb_spec i (-1)) as [E | NE].
  - left. split; [exact E | reflexivity].
  - right. split; [lia |].
    unfold ns_page, PAGE_SIZE in *.
    destruct (Z.eqb_spec i 0) as [E0 | NE0]; cbn [negb];
      destruct (Z.gtb_spec (Z.of_nat (length nss)) (i + 50)) as [Hnx | Hnnx].
    + destruct (get_Some nss ((i + 50)%Z)) as [b Hb]; [lia |].
      unfold ns_cursorValue_at. rewrite Hb. cbn [bind].
      eexists. split; [reflexivity |]. cbn.
      repeat split; try congruence; try lia; eauto.
    + cbn [bind].
      eexists. split; [reflexivity |]. cbn.
      repeat split; try congruence; try lia; eauto.
    + destruct (get_Some nss (Z.max 0 (i - 50))) as [a Ha]; [lia |].
      destruct (get_Some nss ((i + 50)%Z)) as [b Hb]; [lia |].
      unfold ns_cursorValue_at. rewrite Ha, Hb. cbn [bind].
      eexists. split; [reflexivity |]. cbn.
      repeat split; try congruence; try lia; eauto.
    + destruct (get_Some nss (Z.max 0 (i - 50))) as [a Ha]; [lia |].
      unfold ns_cursorValue_at. rewrite Ha. cbn [bind].
      eexists. split; [reflexivity |]. cbn.
      repeat split; try congruence; try lia; eauto.
Qed.

(** In both branches the page shows the assets that
    [filterAssetsByNamespace] keeps for the window of the cursor. *)
Lemma buildNamespaceProps_displayed (cursor : option jsstring) :
  exists r,
    buildNamespaceProps assets prefixPath cursor = Some r
    /\ displayed r =
       filterAssetsByNamespace assets
         (map (fun ns => prefixPath ++ ns)
              (ns_window prefixPath cursor (namespace_list assets prefixPath))).
Proof.
  unfold ns_window.
  destruct (buildNamespaceProps_page cursor)
    as [[E Hr] | [Hi (r & Hr & _ & Hd & _)]].
  - exists (empty_page prefixPath). split; [exact Hr |].
    rewrite E. cbn [Z.eqb map]. rewrite Pos.eqb_refl. cbn [map].
    rewrite filterAssetsByNamespace_nil. reflexivity.
  - exists r. split; [exact Hr |].
    destruct (Z.eqb_spec
                (ns_cursorIndex prefixPath cursor
                   (namespace_list assets prefixPath)) (-1)); [lia |].
    exact Hd.
Qed.

End NamespaceFacts.

(** C3: in namespace mode, when a cursor is supplied and no namespace has
    a cursor value that the cursor is below or equal to, the result is the
    empty page with both cursors undefined, and is a result: nothing is
    thrown. *)
Theorem namespace_cursor_not_found (assets : list Asset)
  (prefixPath : list jsstring) (c : jsstring) :
  (forall ns, In ns (namespace_list assets prefixPath) ->
              str_leb c (ns_cursorValue prefixPath ns) = false) ->
  exists r,
    buildNamespaceProps assets prefixPath (Some c) = Some r
    /\ displayed r = [] /\ prevCursor r = None /\ nextCursor r = None.
Proof.
  intros Hnone.
  destruct (buildNamespaceProps_page assets prefixPath (Some c))
    as [[_ Hr] | [Hi (r & Hr & _ & Hp)]].
  - exists (empty_page prefixPath). split; [exact Hr | repeat split].
  - destruct c as [| u c'].
    + (* the empty string is falsy; no namespace can be above it *)
      assert (Hnil : namespace_list assets prefixPath = []).
      { destruct (namespace_list assets prefixPath) as [| ns l]; [reflexivity |].
        specialize (Hnone ns (or_introl eq_refl)).
        rewrite str_leb_nil in Hnone. discriminate. }
      exists r. split; [exact Hr |].
      rewrite Hnil in Hp. unfold ns_page, ns_cursorIndex in Hp.
      cbn [cursor_truthy truthy] in Hp.
      destruct Hp as (Hd & Hprev & _ & Hnext & _).
      repeat split.
      * rewrite Hd. apply filterAssetsByNamespace_nil.
      * destruct (prevCursor r); [| reflexivity].
        assert ((0 > 0)%Z) by (apply Hprev; discriminate). lia.
      * destruct (nextCursor r); [| reflexivity].
        assert ((0 + PAGE_SIZE < 0)%Z) by (apply Hnext; discriminate).
        unfold PAGE_SIZE in *. lia.
    + exfalso. revert Hi. unfold ns_cursorIndex, cursor_truthy.
      cbn [truthy].
      destruct (findIndex_spec
                  (fun ns => str_leb (u :: c') (ns_cursorValue prefixPath ns))
                  (namespace_list assets prefixPath))
        as [[E _] | (n & x & _ & Hn & Fx & _)].
      * rewrite E. lia.
      * apply nth_error_In in Hn. rewrite (Hnone x Hn) in Fx. discriminate.
Qed.

Lemma namespace_cursor_not_found_witness :
  (forall ns, In ns (namespace_list one_asset []) ->
              str_leb cursor_z (ns_cursorValue [] ns) = false)
  /\ exists r,
       buildNamespaceProps one_asset [] (Some cursor_z) = Some r
       /\ displayed r = [] /\ prevCursor r = None /\ nextCursor r = None.
Proof.
  assert (H : forall ns, In ns (namespace_list one_asset []) ->
                         str_leb cursor_z (ns_cursorValue [] ns) = false).
  { intros ns Hin. vm_compute in Hin. destruct Hin as [<- | []]. reflexivity. }
  split; [exact H | exact (namespace_cursor_not_found one_asset [] cursor_z H)].
Defined.

Section Filter.

Variable p : list jsstring.

Lemma every_from_spec (ext : list jsstring) (k : nat) :
  every_from (same_part p) ext (Z.of_nat k) = true <->
  forall i, (i < length ext)%nat -> nth_error p (k + i) = nth_error ext i.
Proof.
  revert k. induction ext as [| x ext IH]; intros k.
  - cbn. split; [intros _ i Hi; lia | reflexivity].
  - cbn [every_from]. rewrite andb_true_iff.
    replace (Z.of_nat k + 1)%Z with (Z.of_nat (S k)) by lia.
    rewrite IH. unfold same_part. rewrite get_of_nat. split.
    + intros [Hx Hrest] [| i] Hi.
      * rewrite Nat.add_0_r. cbn [nth_error].
        destruct (nth_error p k) as [s |]; [| discriminate].
        apply str_eqb_eq in Hx. congruence.
      * cbn [nth_error]. rewrite <- (Hrest i) by (cbn in Hi; lia).
        f_equal. lia.
    + intros H. split.
      * specialize (H 0%nat). rewrite Nat.add_0_r in H. cbn in H.
        rewrite H by lia. apply str_eqb_eq. reflexivity.
      * intros i Hi. specialize (H (S i)). cbn in H.
        rewrite <- H by lia. f_equal. lia.
Qed.

(** The test of [filterAssetsByNamespace] on one path: the asset's path
    has every part of [ext], at the same position. *)
Lemma every_agrees (ext : list jsstring) :
  every (same_part p) ext = true <-> agrees ext p.
Proof. apply (every_from_spec ext 0). Qed.

End Filter.

(** C2: in namespace mode the page shows exactly the assets, taken in
    their order from the asset list, whose key path agrees with
    [prefixPath ++ ns] on every position of that extended prefix, for some
    namespace [ns] of the window that the cursor selects. *)
Theorem namespace_displayed (assets : list Asset) (prefixPath : list jsstring)
  (cursor : option jsstring) :
  exists r keep,
    buildNamespaceProps assets prefixPath cursor = Some r
    /\ displayed r = filter keep assets
    /\ forall asset,
         keep asset = true <->
         exists ns,
           In ns (ns_window prefixPath cursor (namespace_list assets prefixPath))
           /\ agrees (prefixPath ++ ns) (path (key asset)).
Proof.
  destruct (buildNamespaceProps_displayed assets prefixPath cursor)
    as (r & Hr & Hd).
  exists r. eexists. split; [exact Hr |]. split; [exact Hd |].
  intros asset. cbv beta. rewrite existsb_exists. split.
  - intros (ext & Hext & Hev). apply in_map_iff in Hext.
    destruct Hext as (ns & <- & Hns). exists ns. split; [exact Hns |].
    apply every_agrees. exact Hev.
  - intros (ns & Hns & Hag). exists (prefixPath ++ ns). split.
    + apply in_map_iff. exists ns. split; [reflexivity | exact Hns].
    + apply every_agrees. exact Hag.
Qed.

(** The cursors of the namespace mode in terms of the start index in the
    namespace list. *)
Lemma namespace_contract (assets : list Asset) (prefixPath : list jsstring)
  (cursor : option jsstring) :
  exists s r,
    IsStartIndex (ns_cursorValue prefixPath)
                 (namespace_list assets prefixPath) cursor s
    /\ buildNamespaceProps assets prefixPath cursor = Some r
    /\ (prevCursor r <> None <-> (s > 0)%Z)
    /\ ((s > 0)%Z ->
        exists ns,
          get (namespace_list assets prefixPath) (Z.max 0 (s - PAGE_SIZE))
          = Some ns
          /\ prevCursor r = Some (ns_cursorValue prefixPath ns))
    /\ (nextCursor r <> None <->
        (0 <= s)%Z
        /\ (s + PAGE_SIZE
            < Z.of_nat (length (namespace_list assets prefixPath)))%Z)
    /\ ((0 <= s)%Z ->
        (s + PAGE_SIZE
         < Z.of_nat (length (namespace_list assets prefixPath)))%Z ->
        exists ns,
          get (namespace_list assets prefixPath) (s + PAGE_SIZE) = Some ns
          /\ nextCursor r = Some (ns_cursorValue prefixPath ns)).
Proof.
  pose proof (buildNamespaceProps_page assets prefixPath cursor) as Hpg.
  cbv zeta in Hpg.
  remember (namespace_list assets prefixPath) as nss eqn:Enss. clear Enss.
  assert (Hpage : forall s r, (0 <= s)%Z -> ns_page assets prefixPath nss s r ->
    (prevCursor r <> None <-> (s > 0)%Z)
    /\ ((s > 0)%Z ->
        exists ns, get nss (Z.max 0 (s - PAGE_SIZE)) = Some ns
                   /\ prevCursor r = Some (ns_cursorValue prefixPath ns))
    /\ (nextCursor r <> None <->
        (0 <= s)%Z /\ (s + PAGE_SIZE < Z.of_nat (length nss))%Z)
    /\ ((0 <= s)%Z -> (s + PAGE_SIZE < Z.of_nat (length nss))%Z ->
        exists ns, get nss (s + PAGE_SIZE) = Some ns
                   /\ nextCursor r = Some (ns_cursorValue prefixPath ns))).
  { intros s r Hs (_ & Hprev & Hprev' & Hnext & Hnext').
    split; [exact Hprev |]. split; [exact Hprev' |].
    split; [| intros _; exact Hnext'].
    rewrite Hnext. split; [intros H; split; [exact Hs | exact H] | tauto]. }
  assert (Hnone : forall s, (s < 0)%Z ->
    forall r, prevCursor r = None -> nextCursor r = None ->
    (prevCursor r <> None <-> (s > 0)%Z)
    /\ ((s > 0)%Z ->
        exists ns, get nss (Z.max 0 (s - PAGE_SIZE)) = Some ns
                   /\ prevCursor r = Some (ns_cursorValue prefixPath ns))
    /\ (nextCursor r <> None <->
        (0 <= s)%Z /\ (s + PAGE_SIZE < Z.of_nat (length nss))%Z)
    /\ ((0 <= s)%Z -> (s + PAGE_SIZE < Z.of_nat (length nss))%Z ->
        exists ns, get nss (s + PAGE_SIZE) = Some ns
                   /\ nextCursor r = Some (ns_cursorValue prefixPath ns))).
  { intros s Hs r Hp Hn. rewrite Hp, Hn.
    split; [split; [congruence | lia] |].
    split; [intros; lia |].
    split; [split; [congruence | lia] |].
    intros; lia. }
  destruct Hpg as [[E Hr] | [Hi (r & Hr & _ & Hp)]].
  - (* the search failed: the cursor is truthy *)
    exists (-1)%Z, (empty_page prefixPath).
    split.
    { unfold ns_cursorIndex in E. destruct cursor as [[| u c'] |];
        cbn [cursor_truthy truthy] in E; try discriminate.
      rewrite <- E. apply findIndex_IsStartIndex. }
    split; [exact Hr |].
    apply Hnone; try reflexivity; lia.
  - destruct cursor as [[| u c'] |].
    + destruct nss as [| ns l].
      * (* the empty string is falsy: the code starts at 0 *)
        exists (-1)%Z, r. split; [left; split; [reflexivity | intros ? []] |].
        split; [exact Hr |].
        destruct Hp as (_ & Hprev & _ & Hnext & _).
        unfold ns_cursorIndex in Hprev, Hnext.
        cbn [cursor_truthy truthy length] in Hprev, Hnext.
        unfold PAGE_SIZE in Hnext.
        apply Hnone; try lia.
        -- destruct (prevCursor r); [| reflexivity].
           assert ((0 > 0)%Z) by (apply Hprev; discriminate). lia.
        -- destruct (nextCursor r); [| reflexivity].
           assert ((0 + 50 < Z.of_nat 0)%Z) by (apply Hnext; discriminate).
           lia.
      * exists 0%Z, r. split.
        { right. exists ns. repeat split.
          intros j b Hj Hb. apply get_range in Hb. lia. }
        split; [exact Hr |]. apply Hpage; [lia |]. exact Hp.
    + exists (ns_cursorIndex prefixPath (Some (u :: c')) nss), r.
      split; [apply findIndex_IsStartIndex |].
      split; [exact Hr |]. apply Hpage; assumption.
    + exists 0%Z, r. split; [reflexivity |].
      split; [exact Hr |]. apply Hpage; [lia |]. exact Hp.
Qed.

(** As C6 words it, the cursors would both be undefined for the two
    assets and the cursor value of the second: in both modes the page
    starts at index 1 and has a previous cursor. *)
Lemma small_collection_prev_cursor :
  (length two_assets <= 50)%nat
  /\ forall mode,
       ~ (exists r,
            paginate two_assets [] (Some cursor_b) mode = Some r
            /\ prevCursor r = None /\ nextCursor r = None).
Proof.
  split; [cbn; lia |].
  intros [|] (r & Hr & Hprev & _); vm_compute in Hr;
    injection Hr as <-; discriminate Hprev.
Qed.

(** C6, as amended: for a collection of at most fifty assets, in both
    modes [prevCursor] is defined exactly when the start index (in the
    asset list, or in the namespace list) is positive; [nextCursor] is
    undefined in namespace mode, and in flat mode whenever the start index
    is not -1 or there are fewer than fifty assets; without a cursor both
    are undefined. *)
Theorem small_collection_cursors (assets : list Asset)
  (prefixPath : list jsstring) (cursor : option jsstring) :
  (length assets <= 50)%nat ->
  (exists s r,
     IsStartIndex (flat_cursorValue prefixPath) assets cursor s
     /\ paginate assets prefixPath cursor flat = Some r
     /\ (prevCursor r <> None <-> (s > 0)%Z)
     /\ (s <> (-1)%Z \/ (length assets < 50)%nat -> nextCursor r = None))
  /\ (exists s r,
        IsStartIndex (ns_cursorValue prefixPath)
                     (namespace_list assets prefixPath) cursor s
        /\ paginate assets prefixPath cursor namespace = Some r
        /\ (prevCursor r <> None <-> (s > 0)%Z)
        /\ nextCursor r = None)
  /\ (cursor = None ->
      forall mode,
        exists r,
          paginate assets prefixPath cursor mode = Some r
          /\ prevCursor r = None /\ nextCursor r = None).
Proof.
  intros Hlen.
  pose proof (length_namespace_list assets prefixPath) as Hlen'.
  destruct (flat_start_page assets prefixPath cursor)
    as (s & r & Hs & Hr & _ & Hprev & _ & Hnext & _).
  destruct (namespace_contract assets prefixPath cursor)
    as (s' & r' & Hs' & Hr' & Hprev' & _ & Hnext' & _).
  unfold PAGE_SIZE in *.
  assert (Hrange : (-1 <= s)%Z).
  { destruct cursor as [c |]; cbn in Hs; [| lia].
    destruct Hs as [[-> _] | (a & Ha & _)]; [lia |].
    apply get_range in Ha. lia. }
  assert (Hn : s <> (-1)%Z \/ (length assets < 50)%nat -> nextCursor r = None).
  { intros Hne. destruct (nextCursor r); [| reflexivity].
    assert ((s + 50 < Z.of_nat (length assets))%Z)
      by (apply Hnext; discriminate).
    lia. }
  assert (Hn' : nextCursor r' = None).
  { destruct (nextCursor r'); [| reflexivity].
    assert ((0 <= s')%Z /\
            (s' + 50 < Z.of_nat (length (namespace_list assets prefixPath)))%Z)
      by (apply Hnext'; discriminate).
    lia. }
  split; [| split].
  - exists s, r. repeat split; try assumption; apply Hprev.
  - exists s', r'. repeat split; try assumption; apply Hprev'.
  - intros ->. cbn in Hs, Hs'. subst s s'.
    intros [|]; [exists r | exists r']; (split; [assumption |]); split.
    + destruct (prevCursor r); [| reflexivity].
      assert ((0 > 0)%Z) by (apply Hprev; discriminate). lia.
    + apply Hn. lia.
    + destruct (prevCursor r'); [| reflexivity].
      assert ((0 > 0)%Z) by (apply Hprev'; discriminate). lia.
    + exact Hn'.
Qed.

Lemma small_collection_cursors_witness :
  (length two_assets <= 50)%nat
  /\ (exists s r,
        IsStartIndex (flat_cursorValue []) two_assets (Some cursor_b) s
        /\ paginate two_assets [] (Some cursor_b) flat = Some r
        /\ (prevCursor r <> None <-> (s > 0)%Z)
        /\ (s <> (-1)%Z \/ (length two_assets < 50)%nat
            -> nextCursor r = None)).
Proof.
  assert (H : (length two_assets <= 50)%nat) by (cbn; lia).
  split; [exact H |].
  exact (proj1 (small_collection_cursors two_assets [] (Some cursor_b) H)).
Defined.

(** ** Seeking a cursor in a sorted list *)

Section Seek.

Context {A : Type}.
Variable cv : A -> jsstring.

Lemma sortedb_sorted (l : list A) : sortedb cv l = true -> sorted_by cv l.
Proof.
  intros H. apply Sorted_StronglySorted.
  { intros x y z. apply str_leb_trans. }
  induction l as [| a [| b t] IH].
  - constructor.
  - repeat constructor.
  - cbn [sortedb] in H. apply andb_true_iff in H. destruct H as [Hab Ht].
    constructor; [apply IH; exact Ht | constructor; exact Hab].
Qed.

Lemma sorted_by_nth (l : list A) (i j : nat) (a b : A) :
  sorted_by cv l -> (i <= j)%nat ->
  nth_error l i = Some a -> nth_error l j = Some b ->
  str_leb (cv a) (cv b) = true.
Proof.
  intros Hs. revert i j. induction Hs as [| x l Hs IH Hx]; intros i j Hij Ha Hb.
  - destruct i; discriminate.
  - destruct i as [| i], j as [| j]; cbn in Ha, Hb.
    + injection Ha as <-. injection Hb as <-. apply str_leb_refl.
    + injection Ha as <-. rewrite Forall_forall in Hx.
      apply Hx. eapply nth_error_In. exact Hb.
    + lia.
    + apply (IH i j); [lia | assumption | assumption].
Qed.

(** In a sorted list the search for the cursor value of the element at
    index [m] stops at an element with that cursor value, at or before
    [m]. *)
Lemma seek (l : list A) (m : nat) (a : A) :
  sorted_by cv l -> nth_error l m = Some a ->
  exists n b,
    findIndex (fun x => str_leb (cv a) (cv x)) l = Z.of_nat n
    /\ (n <= m)%nat /\ nth_error l n = Some b /\ cv b = cv a.
Proof.
  intros Hs Ha.
  destruct (findIndex_spec (fun x => str_leb (cv a) (cv x)) l)
    as [[_ H] | (n & b & E & Hn & Fb & Hmin)].
  - apply nth_error_In in Ha. apply H in Ha.
    rewrite str_leb_refl in Ha. discriminate.
  - exists n, b.
    assert (Hnm : (n <= m)%nat).
    { destruct (Nat.le_gt_cases n m) as [Hle | Hgt]; [exact Hle |].
      pose proof (Hmin m a Hgt Ha) as F. cbv beta in F.
      rewrite str_leb_refl in F. discriminate. }
    repeat split; try assumption.
    apply str_leb_antisym; [| exact Fb].
    apply (sorted_by_nth l n m); assumption.
Qed.

End Seek.

Lemma flat_cursorValue_truthy (prefixPath : list jsstring) (a : Asset) :
  cursor_truthy (Some (flat_cursorValue prefixPath a))
  = Some (flat_cursorValue prefixPath a).
Proof. reflexivity. Qed.

Lemma ns_cursorValue_truthy (prefixPath ns : list jsstring) :
  cursor_truthy (Some (ns_cursorValue prefixPath ns))
  = Some (ns_cursorValue prefixPath ns).
Proof. reflexivity. Qed.

(** The page of the flat mode for the cursor value of the asset at index
    [m] of a sorted collection starts with an asset of that cursor
    value. *)
Lemma flat_seek (assets : list Asset) (prefixPath : list jsstring)
  (m : Z) (a : Asset) :
  sorted_by (flat_cursorValue prefixPath) assets ->
  get assets m = Some a ->
  exists r b,
    buildFlatProps assets prefixPath (Some (flat_cursorValue prefixPath a))
    = Some r
    /\ hd_error (displayed r) = Some b
    /\ In b assets
    /\ flat_cursorValue prefixPath b = flat_cursorValue prefixPath a.
Proof.
  intros Hs Ha. pose proof (get_range _ _ _ Ha) as Hm.
  rewrite <- (Z2Nat.id m) in Ha by lia. rewrite get_of_nat in Ha.
  destruct (seek (flat_cursorValue prefixPath) assets (Z.to_nat m) a Hs Ha)
    as (n & b & E & Hnm & Hn & Hcv).
  destruct (buildFlatProps_page assets prefixPath
              (Some (flat_cursorValue prefixPath a)))
    as (r & Hr & _ & Hd & _).
  unfold flat_cursorIndex in Hd. rewrite flat_cursorValue_truthy, E in Hd.
  exists r, b. split; [exact Hr |].
  rewrite Hd, hd_slice, get_of_nat by (unfold PAGE_SIZE; lia).
  repeat split; try assumption.
  eapply nth_error_In. exact Hn.
Qed.

(** C8: in flat mode, for a collection in the order of its cursor values
    in which the key identifies the asset, the page for the cursor value of
    the asset at any index starts with that asset. *)
Theorem flat_cursor_of_asset (assets : list Asset)
  (prefixPath : list jsstring) (i : Z) (a : Asset) :
  sorted_by (flat_cursorValue prefixPath) assets ->
  key_identifies assets ->
  get assets i = Some a ->
  exists r,
    paginate assets prefixPath (Some (flat_cursorValue prefixPath a)) flat
    = Some r
    /\ hd_error (displayed r) = Some a.
Proof.
  intros Hs Hkey Ha.
  destruct (flat_seek assets prefixPath i a Hs Ha) as (r & b & Hr & Hd & Hb & Hcv).
  exists r. split; [exact Hr |]. rewrite Hd. f_equal.
  apply Hkey; [exact Hb | eapply get_In; exact Ha |].
  unfold flat_cursorValue in Hcv.
  apply stringify_inj, app_inv_head in Hcv.
  destruct (key a), (key b). cbn in Hcv. congruence.
Qed.

(** Without the uniqueness of keys the first asset of the page still has
    the key of the asset the cursor was taken from. *)
Lemma flat_cursor_of_key (assets : list Asset)
  (prefixPath : list jsstring) (i : Z) (a : Asset) :
  sorted_by (flat_cursorValue prefixPath) assets ->
  get assets i = Some a ->
  exists r b,
    paginate assets prefixPath (Some (flat_cursorValue prefixPath a)) flat
    = Some r
    /\ hd_error (displayed r) = Some b /\ key b = key a.
Proof.
  intros Hs Ha.
  destruct (flat_seek assets prefixPath i a Hs Ha) as (r & b & Hr & Hd & Hb & Hcv).
  exists r, b. repeat split; try assumption.
  unfold flat_cursorValue in Hcv.
  apply stringify_inj, app_inv_head in Hcv.
  destruct (key a), (key b). cbn in Hcv. congruence.
Qed.

Lemma flat_cursor_of_asset_witness :
  sorted_by (flat_cursorValue []) two_assets
  /\ key_identifies two_assets
  /\ exists r,
       paginate two_assets []
         (Some (flat_cursorValue [] (asset_of "b" ["b"%string]))) flat
       = Some r
       /\ hd_error (displayed r) = Some (asset_of "b" ["b"%string]).
Proof.
  assert (Hs : sorted_by (flat_cursorValue []) two_assets).
  { apply sortedb_sorted. reflexivity. }
  assert (Hk : key_identifies two_assets).
  { intros a b [<- | [<- | []]] [<- | [<- | []]] H;
      try reflexivity; discriminate H. }
  split; [exact Hs |]. split; [exact Hk |].
  exact (flat_cursor_of_asset two_assets [] 1 _ Hs Hk eq_refl).
Defined.

(** X17: in flat mode, for a collection in the order of its cursor
    values, the [nextCursor] of a page, given as the cursor of the next
    call on the same assets and prefix path, gives a page that is not
    empty and whose first asset has that [nextCursor] as its cursor
    value. *)
Theorem flat_round_trip (assets : list Asset) (prefixPath : list jsstring)
  (cursor : option jsstring) (r : Props) (nc : jsstring) :
  sorted_by (flat_cursorValue prefixPath) assets ->
  paginate assets prefixPath cursor flat = Some r ->
  nextCursor r = Some nc ->
  exists r' a,
    paginate assets prefixPath (Some nc) flat = Some r'
    /\ hd_error (displayed r') = Some a
    /\ flat_cursorValue prefixPath a = nc.
Proof.
  intros Hs Hr Hnc. cbn [paginate] in *.
  destruct (buildFlatProps_page assets prefixPath cursor)
    as (r0 & Hr0 & _ & _ & _ & _ & Hnext & Hnext').
  assert (r0 = r) by congruence. subst r0.
  destruct Hnext' as (a0 & Ha0 & Hn0).
  { apply Hnext. congruence. }
  assert (nc = flat_cursorValue prefixPath a0) by congruence. subst nc.
  destruct (flat_seek assets prefixPath _ _ Hs Ha0)
    as (r' & b & Hr' & Hd & _ & Hcv).
  exists r', b. repeat split; assumption.
Qed.

(** X18: the same round trip on the namespace list, when that list is in
    the order of its cursor values: the window of the next call starts at
    the namespace whose cursor value is the [nextCursor]. *)
Lemma namespace_round_trip (assets : list Asset) (prefixPath : list jsstring)
  (cursor : option jsstring) (r : Props) (nc : jsstring) :
  sorted_by (ns_cursorValue prefixPath) (namespace_list assets prefixPath) ->
  paginate assets prefixPath cursor namespace = Some r ->
  nextCursor r = Some nc ->
  exists ns,
    hd_error (ns_window prefixPath (Some nc) (namespace_list assets prefixPath))
    = Some ns
    /\ ns_cursorValue prefixPath ns = nc.
Proof.
  intros Hs Hr Hnc. cbn [paginate] in *.
  destruct (namespace_contract assets prefixPath cursor)
    as (s & r0 & _ & Hr0 & _ & _ & Hnext & Hnext').
  assert (r0 = r) by congruence. subst r0.
  destruct Hnext as [Hnext _].
  destruct Hnext as [Hs0 Hlt]; [congruence |].
  destruct (Hnext' Hs0 Hlt) as (ns0 & Hns0 & Hn0).
  assert (nc = ns_cursorValue prefixPath ns0) by congruence. subst nc.
  pose proof (get_range _ _ _ Hns0) as Hm.
  rewrite <- (Z2Nat.id (s + PAGE_SIZE)) in Hns0 by lia.
  rewrite get_of_nat in Hns0.
  destruct (seek (ns_cursorValue prefixPath) _ _ _ Hs Hns0)
    as (n & b & E & _ & Hn & Hcv).
  exists b. split; [| exact Hcv].
  unfold ns_window, ns_cursorIndex.
  rewrite ns_cursorValue_truthy, E.
  destruct (Z.eqb_spec (Z.of_nat n) (-1)); [lia |].
  rewrite hd_slice, get_of_nat by (unfold PAGE_SIZE; lia).
  exact Hn.
Qed.

(** C7: the code breaks the round trip in namespace mode, by the order of
    the namespace list.  The list is in the order of the names, in which
    [a] comes before [a !] and [a b], while the cursor values of the latter
    two are below the one of [a].  The first page ends before [a b]; the
    page for that [nextCursor] starts at the namespace [a] and its first
    asset is not the one of [a b], whether the assets come in the order of
    their cursor values or of their names. *)
Lemma namespace_round_trip_fails :
  sorted_by (flat_cursorValue []) spaced_assets
  /\ (exists r r',
        paginate spaced_assets [] None namespace = Some r
        /\ nextCursor r = Some cursor_a_b
        /\ paginate spaced_assets [] (Some cursor_a_b) namespace = Some r'
        /\ hd_error (displayed r') = Some (asset_of "a !" ["a !"%string]))
  /\ (exists r r',
        paginate spaced_assets_by_name [] None namespace = Some r
        /\ nextCursor r = Some cursor_a_b
        /\ paginate spaced_assets_by_name [] (Some cursor_a_b) namespace
           = Some r'
        /\ hd_error (displayed r') = Some (asset_of "a" ["a"%string]))
  /\ flat_cursorValue [] (asset_of "a !" ["a !"%string]) <> cursor_a_b
  /\ ns_cursorValue [] (namespaceForAsset [] (asset_of "a !" ["a !"%string]))
     <> cursor_a_b
  /\ flat_cursorValue [] (asset_of "a" ["a"%string]) <> cursor_a_b
  /\ ns_cursorValue [] (namespaceForAsset [] (asset_of "a" ["a"%string]))
     <> cursor_a_b.
Proof.
  split; [apply sortedb_sorted; vm_compute; reflexivity |].
  split.
  { eexists. eexists. split; [vm_compute; reflexivity |].
    split; [vm_compute; reflexivity |].
    split; [vm_compute; reflexivity |].
    vm_compute; reflexivity. }
  split.
  { eexists. eexists. split; [vm_compute; reflexivity |].
    split; [vm_compute; reflexivity |].
    split; [vm_compute; reflexivity |].
    vm_compute; reflexivity. }
  repeat split; vm_compute; discriminate.
Qed.

Lemma flat_round_trip_witness :
  sorted_by (flat_cursorValue []) (numbered_assets 51)
  /\ paginate (numbered_assets 51) [] None flat = Some first_page_of_51
  /\ nextCursor first_page_of_51 = Some (flat_cursorValue [] (numbered_asset 50))
  /\ exists r' a,
       paginate (numbered_assets 51) []
         (Some (flat_cursorValue [] (numbered_asset 50))) flat = Some r'
       /\ hd_error (displayed r') = Some a
       /\ flat_cursorValue [] a = flat_cursorValue [] (numbered_asset 50).
Proof.
  assert (Hs : sorted_by (flat_cursorValue []) (numbered_assets 51)).
  { apply sortedb_sorted. vm_compute. reflexivity. }
  assert (Hr : paginate (numbered_assets 51) [] None flat
               = Some first_page_of_51).
  { vm_compute. reflexivity. }
  split; [exact Hs |]. split; [exact Hr |]. split; [reflexivity |].
  exact (flat_round_trip (numbered_assets 51) [] None _ _ Hs Hr eq_refl).
Defined.

Lemma namespace_round_trip_witness :
  sorted_by (ns_cursorValue []) (namespace_list (numbered_assets 51) [])
  /\ exists r,
       paginate (numbered_assets 51) [] None namespace = Some r
       /\ nextCursor r = Some (ns_cursorValue [] [numbered_name 50])
       /\ exists ns,
            hd_error (ns_window [] (Some (ns_cursorValue [] [numbered_name 50]))
                        (namespace_list (numbered_assets 51) []))
            = Some ns
            /\ ns_cursorValue [] ns = ns_cursorValue [] [numbered_name 50].
Proof.
  assert (Hs : sorted_by (ns_cursorValue [])
                 (namespace_list (numbered_assets 51) [])).
  { apply sortedb_sorted. vm_compute. reflexivity. }
  split; [exact Hs |].
  destruct (paginate (numbered_assets 51) [] None namespace) as [r |] eqn:Hr;
    [| vm_compute in Hr; discriminate Hr].
  assert (Hn : nextCursor r = Some (ns_cursorValue [] [numbered_name 50])).
  { vm_compute in Hr. injection Hr as <-. vm_compute. reflexivity. }
  exists r. split; [reflexivity |]. split; [exact Hn |].
  exact (namespace_round_trip (numbered_assets 51) [] None r _ Hs Hr Hn).
Defined.

(** ** The order of the namespace list *)

Section SortFacts.

Lemma sort_insert_HdRel (y x : list jsstring) (l : list (list jsstring)) :
  by_name y x -> HdRel by_name y l -> HdRel by_name y (sort_insert x l).
Proof.
  intros Hyx Hl. destruct l as [| z l]; cbn [sort_insert].
  - constructor. exact Hyx.
  - inversion Hl; subst. destruct (str_ltb _ _); constructor; assumption.
Qed.

Lemma sort_insert_Sorted (x : list jsstring) (l : list (list jsstring)) :
  Sorted by_name l -> Sorted by_name (sort_insert x l).
Proof.
  induction 1 as [| y l Hs IH Hy]; cbn [sort_insert].
  - repeat constructor.
  - destruct (str_ltb (Array_toString y) (Array_toString x)) eqn:E.
    + constructor; [exact IH |].
      apply sort_insert_HdRel; [| exact Hy].
      unfold by_name. apply str_leb_spec. apply str_ltb_lt in E.
      rewrite E. discriminate.
    + constructor; [constructor; assumption |].
      constructor. unfold by_name, str_leb. rewrite E. reflexivity.
Qed.

(** [sort] leaves the list in the order of the string conversions. *)
Lemma sort_sorted (l : list (list jsstring)) : sorted_by Array_toString (sort l).
Proof.
  apply Sorted_StronglySorted.
  { intros x y z. apply str_leb_trans. }
  induction l as [| x l IH]; [constructor |].
  cbn [sort fold_right]. apply sort_insert_Sorted. exact IH.
Qed.

End SortFacts.

Lemma namespaceForAsset_length (prefixPath : list jsstring) (asset : Asset) :
  (length (namespaceForAsset prefixPath asset) <= 1)%nat.
Proof.
  unfold namespaceForAsset. rewrite slice_nonneg by lia.
  rewrite length_firstn. lia.
Qed.

Lemma NoDup_stringify (l : list (list jsstring)) :
  NoDup l -> NoDup (map JSON.stringify l).
Proof.
  induction 1 as [| x l Hx Hl IH]; cbn [map]; constructor; [| exact IH].
  intros Hin. apply in_map_iff in Hin. destruct Hin as (y & E & Hy).
  apply stringify_inj in E. congruence.
Qed.

(** What the code computes: the namespace list holds the namespace of
    every asset, a slice of at most one segment of its path, once for each
    JSON text; [sort] without a comparator leaves it in the order of the
    string conversions of the namespaces (the segment, or the empty string
    for the empty namespace). *)
Theorem namespaces_sorted_by_name (assets : list Asset)
  (prefixPath : list jsstring) :
  exists nss,
    namespaces assets prefixPath = Some nss
    /\ (forall ns,
          In ns nss <->
          exists asset,
            In asset assets /\ ns = namespaceForAsset prefixPath asset)
    /\ NoDup (map JSON.stringify nss)
    /\ Forall (fun ns => (length ns <= 1)%nat) nss
    /\ sorted_by Array_toString nss.
Proof.
  exists (namespace_list assets prefixPath).
  split; [apply namespaces_eq |].
  split; [intros ns; apply In_namespace_list |].
  split; [apply NoDup_stringify, NoDup_namespace_list |].
  split; [| apply sort_sorted].
  apply Forall_forall. intros ns Hns.
  apply In_namespace_list in Hns. destruct Hns as (a & _ & ->).
  apply namespaceForAsset_length.
Qed.

(** C5: the code misses the order that the claim states.  The cursor is
    searched by the JSON text of the cursor values, and the list is sorted
    by [sort] without a comparator: for the names [a] and [a b] the
    namespace list is in the order of the names, and the cursor value of
    the first namespace is above the one of the second. *)
Lemma namespaces_not_in_cursor_order :
  namespaces ab_assets [] = Some [[lit "a"]; [lit "a b"]]
  /\ ~ sorted_by (ns_cursorValue []) [[lit "a"]; [lit "a b"]].
Proof.
  split; [vm_compute; reflexivity |].
  intros H. inversion H as [| x l _ Hall]; subst.
  inversion Hall as [| y l' Hxy _]; subst.
  vm_compute in Hxy. discriminate Hxy.
Qed.

(** ** Totality *)

(** The embedding of both modes is total: no call throws. *)
Lemma paginate_returns (assets : list Asset) (prefixPath : list jsstring)
  (cursor : option jsstring) (mode : Mode) :
  exists r, paginate assets prefixPath cursor mode = Some r.
Proof.
  destruct mode; cbn [paginate].
  - destruct (buildFlatProps_page assets prefixPath cursor) as (r & Hr & _).
    eauto.
  - destruct (buildNamespaceProps_displayed assets prefixPath cursor)
      as (r & Hr & _).
    eauto.
Qed.

(** ** The order of the JSON texts *)

Section TextOrder.

Import JSON.

Local Open Scope N_scope.

Lemma plain_unit_above (c : N) : plain_unit c = true -> 34 < c.
Proof.
  unfold plain_unit. rewrite !andb_true_iff. intros [[[H _] _] _].
  apply N.leb_le in H. lia.
Qed.

Lemma escape_plain (c : N) : plain_unit c = true -> escape_unit c = [c].
Proof.
  unfold plain_unit. rewrite !andb_true_iff, !negb_true_iff.
  intros [[[H35 H92] Hl] Ht]. apply N.leb_le in H35.
  unfold escape_unit. rewrite H92, Hl, Ht.
  replace (c =? 8) with false by (symmetry; apply N.eqb_neq; lia).
  replace (c =? 9) with false by (symmetry; apply N.eqb_neq; lia).
  replace (c =? 10) with false by (symmetry; apply N.eqb_neq; lia).
  replace (c =? 12) with false by (symmetry; apply N.eqb_neq; lia).
  replace (c =? 13) with false by (symmetry; apply N.eqb_neq; lia).
  replace (c =? 34) with false by (symmetry; apply N.eqb_neq; lia).
  replace (c <? 32) with false by (symmetry; apply N.ltb_ge; lia).
  reflexivity.
Qed.

(** The text of a string of plain code units is the string. *)
Lemma quote_body_plain (s : jsstring) :
  forallb plain_unit s = true -> quote_body s = s.
Proof.
  induction s as [| c s IH]; intros H; [reflexivity |].
  cbn [forallb] in H. apply andb_true_iff in H. destruct H as [Hc Hrest].
  specialize (IH Hrest).
  destruct s as [| d s'].
  - apply escape_plain. exact Hc.
  - rewrite quote_body_pair, (escape_plain c Hc).
    unfold plain_unit in Hc. rewrite !andb_true_iff, !negb_true_iff in Hc.
    destruct Hc as [[_ Hl] _]. rewrite Hl.
    cbn [andb app]. f_equal. exact IH.
Qed.

(** Two strings above the quote, each closed by a quote, compare as the
    strings do, and as what follows the quotes when they are equal. *)
Lemma str_compare_quoted (s t x y : jsstring) :
  forallb plain_unit s = true -> forallb plain_unit t = true ->
  str_compare (s ++ 34 :: x) (t ++ 34 :: y) =
  match str_compare s t with
  | Eq => str_compare x y
  | c => c
  end.
Proof.
  revert t. induction s as [| c s IH]; intros [| d t] Hs Ht.
  - reflexivity.
  - cbn [forallb] in Ht. apply andb_true_iff in Ht. destruct Ht as [Hd _].
    apply plain_unit_above in Hd. cbn [app str_compare].
    apply N.compare_lt_iff in Hd. rewrite Hd. reflexivity.
  - cbn [forallb] in Hs. apply andb_true_iff in Hs. destruct Hs as [Hc _].
    apply plain_unit_above in Hc. cbn [app str_compare].
    apply N.compare_gt_iff in Hc. rewrite Hc. reflexivity.
  - cbn [forallb] in Hs, Ht.
    apply andb_true_iff in Hs. apply andb_true_iff in Ht.
    cbn [app str_compare]. destruct (c ?= d); try reflexivity.
    apply IH; tauto.
Qed.

Lemma str_compare_after_string (p q : list jsstring) :
  plain_path p = true -> plain_path q = true ->
  str_compare (after_string p) (after_string q) = text_compare p q.
Proof.
  revert q. induction p as [| s p IH]; intros [| t q] Hp Hq;
    try reflexivity.
  unfold plain_path in Hp, Hq. cbn [forallb] in Hp, Hq.
  apply andb_true_iff in Hp. apply andb_true_iff in Hq.
  destruct Hp as [Hs Hp], Hq as [Ht Hq].
  unfold after_string. rewrite !elements_cons.
  rewrite (quote_body_plain s Hs), (quote_body_plain t Ht).
  cbn [str_compare]. change (44 ?= 44) with Eq. change (34 ?= 34) with Eq.
  cbv iota. rewrite (str_compare_quoted s t _ _ Hs Ht).
  cbn [text_compare]. destruct (str_compare s t); try reflexivity.
  apply IH; assumption.
Qed.

(** On arrays of plain segments the JSON texts compare as
    [text_compare] orders the arrays. *)
Lemma str_compare_stringify (p q : list jsstring) :
  plain_path p = true -> plain_path q = true ->
  str_compare (stringify p) (stringify q) = text_compare p q.
Proof.
  intros Hp Hq. unfold stringify.
  destruct p as [| s p], q as [| t q];
    [reflexivity | rewrite elements_cons; reflexivity
     | rewrite elements_cons; reflexivity |].
  unfold plain_path in Hp, Hq. cbn [forallb] in Hp, Hq.
  apply andb_true_iff in Hp. apply andb_true_iff in Hq.
  destruct Hp as [Hs Hp], Hq as [Ht Hq].
  rewrite !elements_cons.
  rewrite (quote_body_plain s Hs), (quote_body_plain t Ht).
  cbn [str_compare]. change (91 ?= 91) with Eq. change (34 ?= 34) with Eq.
  cbv iota. rewrite (str_compare_quoted s t _ _ Hs Ht).
  cbn [text_compare]. destruct (str_compare s t); try reflexivity.
  apply (str_compare_after_string p q); assumption.
Qed.

Lemma text_compare_same_length (p q : list jsstring) :
  length p = length q -> text_compare p q = path_compare p q.
Proof.
  revert q. induction p as [| s p IH]; intros [| t q] H;
    try reflexivity; try discriminate.
  cbn [text_compare path_compare]. destruct (str_compare s t); try reflexivity.
  apply IH. cbn in H. congruence.
Qed.

End TextOrder.

(** C4, as amended: for arrays of segments made of code units above the
    double quote that are neither the backslash nor a surrogate, the JSON
    text of [p] is below the one of [q] exactly when [p] comes before [q]
    in the order that compares the arrays segment by segment and places an
    array after its proper extensions; on arrays of the same length this is
    the lexicographic order. *)
Theorem stringify_order (p q : list jsstring) :
  plain_path p = true -> plain_path q = true ->
  (str_ltb (JSON.stringify p) (JSON.stringify q) = true
   <-> text_compare p q = Lt)
  /\ (length p = length q ->
      (str_ltb (JSON.stringify p) (JSON.stringify q) = true
       <-> path_compare p q = Lt)).
Proof.
  intros Hp Hq.
  assert (H : str_ltb (JSON.stringify p) (JSON.stringify q) = true
              <-> text_compare p q = Lt).
  { rewrite str_ltb_lt, (str_compare_stringify p q Hp Hq). reflexivity. }
  split; [exact H |].
  intros Hlen. rewrite <- (text_compare_same_length p q Hlen). exact H.
Qed.

Lemma stringify_order_witness :
  plain_path [lit "x"; lit "1"] = true
  /\ plain_path [lit "x"; lit "2"] = true
  /\ (str_ltb (JSON.stringify [lit "x"; lit "1"])
              (JSON.stringify [lit "x"; lit "2"]) = true
      <-> text_compare [lit "x"; lit "1"] [lit "x"; lit "2"] = Lt).
Proof.
  split; [reflexivity |]. split; [reflexivity |].
  exact (proj1 (stringify_order [lit "x"; lit "1"] [lit "x"; lit "2"]
                  eq_refl eq_refl)).
Defined.

(** C4 as worded fails.  The array [a] precedes its extension [a, b] in
    the lexicographic order (and in the order of [sort]), and its JSON
    text is above; the segment [a] precedes the segment [a ] with a space
    added, and its JSON text is above; the segment made of [a] and a
    double quote precedes [aZ], and its JSON text, in which the quote is
    escaped, is above. *)
Lemma stringify_not_lexicographic :
  (path_compare [lit "a"] [lit "a"; lit "b"] = Lt
   /\ str_ltb (Array_toString [lit "a"]) (Array_toString [lit "a"; lit "b"])
      = true
   /\ str_ltb (JSON.stringify [lit "a"]) (JSON.stringify [lit "a"; lit "b"])
      = false)
  /\ (path_compare [lit "a"] [lit "a "] = Lt
      /\ str_ltb (JSON.stringify [lit "a"]) (JSON.stringify [lit "a "])
         = false)
  /\ (path_compare [[97; 34]%N] [lit "aZ"] = Lt
      /\ str_ltb (JSON.stringify [[97; 34]%N]) (JSON.stringify [lit "aZ"])
         = false).
Proof. repeat split; reflexivity. Qed.

(** ** Names for which the two orders agree *)

Section PlainNames.

Variable prefixPath : list jsstring.
Hypothesis prefix_plain : plain_path prefixPath = true.

Lemma text_compare_app (x y : list jsstring) :
  text_compare (prefixPath ++ x) (prefixPath ++ y) = text_compare x y.
Proof.
  clear prefix_plain. induction prefixPath as [| s p IH]; [reflexivity |].
  cbn [app text_compare]. rewrite str_compare_refl. exact IH.
Qed.

(** The cursor values of two namespaces of one plain segment compare as
    the segments. *)
Lemma ns_cursorValue_order (s t : jsstring) :
  forallb plain_unit s = true -> forallb plain_unit t = true ->
  str_leb (ns_cursorValue prefixPath [s]) (ns_cursorValue prefixPath [t])
  = str_leb s t.
Proof.
  intros Hs Ht. unfold str_leb, str_ltb, ns_cursorValue.
  rewrite str_compare_stringify, text_compare_app.
  - cbn [text_compare]. destruct (str_compare t s); reflexivity.
  - unfold plain_path. rewrite forallb_app.
    apply andb_true_intro. split; [exact prefix_plain |].
    cbn [forallb]. rewrite Ht. reflexivity.
  - unfold plain_path. rewrite forallb_app.
    apply andb_true_intro. split; [exact prefix_plain |].
    cbn [forallb]. rewrite Hs. reflexivity.
Qed.

(** When the prefix is plain and every asset has a namespace of one plain
    segment, the namespace list is in the order of its cursor values, the
    order in which the cursor is searched. *)
Lemma namespaces_in_cursor_order (assets : list Asset) :
  (forall asset, In asset assets ->
     exists s, namespaceForAsset prefixPath asset = [s]
               /\ forallb plain_unit s = true) ->
  sorted_by (ns_cursorValue prefixPath) (namespace_list assets prefixPath).
Proof.
  intros Hplain.
  assert (Hall : forall ns, In ns (namespace_list assets prefixPath) ->
                   exists s, ns = [s] /\ forallb plain_unit s = true).
  { intros ns Hns. apply In_namespace_list in Hns.
    destruct Hns as (a & Ha & ->). apply Hplain. exact Ha. }
  pose proof (sort_sorted (distinct (map (namespaceForAsset prefixPath) assets)))
    as Hsorted.
  fold (namespace_list assets prefixPath) in Hsorted.
  unfold sorted_by in *.
  induction Hsorted as [| ns l Hl IH Hns]; constructor.
  - apply IH. intros x Hx. apply Hall. right. exact Hx.
  - rewrite Forall_forall in *. intros x Hx.
    destruct (Hall ns (or_introl eq_refl)) as (s & -> & Hs).
    destruct (Hall x (or_intror Hx)) as (t & -> & Ht).
    rewrite (ns_cursorValue_order s t Hs Ht).
    exact (Hns [t] Hx).
Qed.

End PlainNames.

(** * The pagination controls *)

Section StrictOrder.

Context {A : Type}.
Variable cv : A -> jsstring.

Lemma strictly_sortedb_sorted (l : list A) :
  strictly_sortedb cv l = true -> strictly_sorted_by cv l.
Proof.
  intros H. apply Sorted_StronglySorted.
  { intros x y z Hxy Hyz. apply str_ltb_lt. apply str_ltb_lt in Hxy, Hyz.
    eapply str_compare_lt_trans; eassumption. }
  induction l as [| a [| b t] IH].
  - constructor.
  - repeat constructor.
  - cbn [strictly_sortedb] in H. apply andb_true_iff in H.
    destruct H as [Hab Ht].
    constructor; [apply IH; exact Ht | constructor; exact Hab].
Qed.

Lemma str_ltb_leb_false (a b : jsstring) :
  str_ltb a b = true -> str_leb b a = false.
Proof. intros H. unfold str_leb. rewrite H. reflexivity. Qed.

Lemma str_ltb_leb (a b : jsstring) : str_ltb a b = true -> str_leb a b = true.
Proof.
  intros H. apply str_leb_spec. apply str_ltb_lt in H. rewrite H. discriminate.
Qed.

Lemma strictly_sorted_sorted (l : list A) :
  strictly_sorted_by cv l -> sorted_by cv l.
Proof.
  unfold strictly_sorted_by, sorted_by.
  induction 1 as [| x l Hs IH Hx]; constructor; [exact IH |].
  eapply Forall_impl; [| exact Hx]. intros b. apply str_ltb_leb.
Qed.

(** A sorted list without two equal cursor values is strictly sorted. *)
Lemma sorted_NoDup_strict (l : list A) :
  sorted_by cv l -> NoDup (map cv l) -> strictly_sorted_by cv l.
Proof.
  unfold strictly_sorted_by, sorted_by.
  induction 1 as [| x l Hs IH Hx]; intros Hnd; constructor.
  - apply IH. cbn in Hnd. inversion Hnd; assumption.
  - cbn in Hnd. inversion Hnd as [| ? ? Hnotin _]; subst.
    rewrite Forall_forall in *. intros b Hb.
    specialize (Hx b Hb). apply str_ltb_lt.
    apply str_leb_spec in Hx.
    destruct (str_compare (cv x) (cv b)) eqn:E; try congruence.
    apply str_compare_eq in E. exfalso. apply Hnotin.
    rewrite E. apply in_map. exact Hb.
Qed.

Lemma strictly_sorted_nth (l : list A) (i j : nat) (a b : A) :
  strictly_sorted_by cv l -> (i < j)%nat ->
  nth_error l i = Some a -> nth_error l j = Some b ->
  str_ltb (cv a) (cv b) = true.
Proof.
  intros Hs. revert i j. induction Hs as [| x l Hs IH Hx]; intros i j Hij Ha Hb.
  - destruct i; discriminate.
  - destruct j as [| j]; [lia |]. destruct i as [| i]; cbn in Ha, Hb.
    + injection Ha as <-. rewrite Forall_forall in Hx.
      apply Hx. eapply nth_error_In. exact Hb.
    + apply (IH i j); [lia | assumption | assumption].
Qed.

(** In a strictly sorted list the search for the cursor value of an
    element stops at that element. *)
Lemma seek_exact (l : list A) (m : nat) (a : A) :
  strictly_sorted_by cv l -> nth_error l m = Some a ->
  findIndex (fun x => str_leb (cv a) (cv x)) l = Z.of_nat m.
Proof.
  intros Hs Ha.
  destruct (findIndex_spec (fun x => str_leb (cv a) (cv x)) l)
    as [[_ H] | (n & b & E & Hn & Fb & Hmin)].
  - apply nth_error_In in Ha. apply H in Ha.
    rewrite str_leb_refl in Ha. discriminate.
  - rewrite E. f_equal.
    destruct (Nat.lt_trichotomy n m) as [Hlt | [Heq | Hgt]].
    + pose proof (strictly_sorted_nth l n m b a Hs Hlt Hn Ha) as Hba.
      apply str_ltb_leb_false in Hba. congruence.
    + exact Heq.
    + pose proof (Hmin m a Hgt Ha) as F. cbv beta in F.
      rewrite str_leb_refl in F. discriminate.
Qed.

Lemma chunks_concat (fuel : nat) (l : list A) :
  (length l < fuel)%nat -> concat (chunks fuel l) = l.
Proof.
  revert l. induction fuel as [| f IH]; intros l Hl; [lia |].
  cbn [chunks concat].
  destruct (Nat.ltb_spec 50 (length l)) as [Hlt | Hge].
  - rewrite IH by (rewrite length_skipn; lia). apply firstn_skipn.
  - cbn [concat]. rewrite app_nil_r. apply firstn_all2. exact Hge.
Qed.

Lemma chunks_length (fuel : nat) (l : list A) :
  Forall (fun w => (length w <= 50)%nat) (chunks fuel l).
Proof.
  revert l. induction fuel as [| f IH]; intros l; [constructor |].
  cbn [chunks]. constructor.
  - rewrite length_firstn. lia.
  - destruct (50 <? length l)%nat; [apply IH | constructor].
Qed.

End StrictOrder.

Lemma slice_window {A : Type} (l : list A) (i : nat) :
  slice l (Z.of_nat i) (Z.of_nat i + PAGE_SIZE) = firstn 50 (skipn i l).
Proof.
  unfold PAGE_SIZE. rewrite slice_nonneg by lia.
  replace (Z.to_nat (Z.of_nat i + 50 - Z.of_nat i)) with 50%nat by lia.
  rewrite Nat2Z.id. reflexivity.
Qed.

Lemma skipn_skipn_add {A : Type} (l : list A) (i : nat) :
  skipn 50 (skipn i l) = skipn (i + 50) l.
Proof.
  revert l. induction i as [| i IH]; intros l; [reflexivity |].
  destruct l as [| x l]; [reflexivity |]. cbn [Nat.add skipn]. apply IH.
Qed.

Section FlatForward.

Variable assets : list Asset.
Variable prefixPath : list jsstring.
Hypothesis assets_sorted :
  strictly_sorted_by (flat_cursorValue prefixPath) assets.

(** The cursor value of the asset at an index leads back to that index. *)
Lemma flat_cursorIndex_exact (m : nat) (a : Asset) :
  nth_error assets m = Some a ->
  flat_cursorIndex assets prefixPath (Some (flat_cursorValue prefixPath a))
  = Z.of_nat m.
Proof.
  intros Ha. unfold flat_cursorIndex. rewrite flat_cursorValue_truthy.
  apply seek_exact; assumption.
Qed.

Lemma flat_forward_from (fuel i : nat) (cursor : option jsstring) :
  flat_cursorIndex assets prefixPath cursor = Z.of_nat i ->
  (length assets - i < fuel)%nat ->
  exists rs,
    forward fuel assets prefixPath flat cursor = Some rs
    /\ map displayed rs = chunks fuel (skipn i assets).
Proof.
  revert i cursor. induction fuel as [| f IH]; intros i cursor Hi Hfuel; [lia |].
  destruct (buildFlatProps_page assets prefixPath cursor) as (r & Hr & _ & Hp).
  rewrite Hi in Hp. destruct Hp as (Hd & _ & _ & Hnext & Hnext').
  rewrite slice_window in Hd.
  cbn [forward paginate chunks]. rewrite Hr. cbn [bind].
  rewrite length_skipn. unfold PAGE_SIZE in *.
  destruct (Nat.ltb_spec 50 (length assets - i)) as [Hlt | Hge].
  - destruct Hnext' as (a & Ha & Hn); [lia |].
    replace (Z.of_nat i + 50)%Z with (Z.of_nat (i + 50)) in Ha by lia.
    rewrite get_of_nat in Ha.
    unfold hasNextCursor, advanceCursor. rewrite Hn.
    change (truthy (flat_cursorValue prefixPath a)) with true. cbv iota.
    destruct (IH (i + 50)%nat (Some (flat_cursorValue prefixPath a)))
      as (rs & Hrs & Hmap).
    { apply flat_cursorIndex_exact. exact Ha. }
    { lia. }
    rewrite Hrs. cbn [bind]. eexists. split; [reflexivity |].
    cbn [map]. rewrite Hd, Hmap, skipn_skipn_add. reflexivity.
  - assert (Hnone : nextCursor r = None).
    { destruct (nextCursor r); [| reflexivity].
      assert ((Z.of_nat i + 50 < Z.of_nat (length assets))%Z)
        by (apply Hnext; discriminate).
      lia. }
    unfold hasNextCursor. rewrite Hnone.
    eexists. split; [reflexivity |]. cbn [map]. rewrite Hd. reflexivity.
Qed.

End FlatForward.

(** X1: in flat mode, for a collection in the strict order of its cursor
    values, advancing the cursor from the first page for as long as there
    is a next cursor renders pages that, one after the other, are the
    collection: every asset is shown once, in order, on pages of at most
    fifty assets. *)
Theorem flat_forward_covers (assets : list Asset) (prefixPath : list jsstring) :
  strictly_sorted_by (flat_cursorValue prefixPath) assets ->
  exists rs,
    forward (S (length assets)) assets prefixPath flat reset = Some rs
    /\ concat (map displayed rs) = assets
    /\ Forall (fun r => (length (displayed r) <= 50)%nat) rs.
Proof.
  intros Hs.
  destruct (flat_forward_from assets prefixPath Hs (S (length assets)) 0 reset)
    as (rs & Hrs & Hmap); [reflexivity | lia |].
  exists rs. split; [exact Hrs |]. cbn [skipn] in Hmap. split.
  - rewrite Hmap. apply chunks_concat. lia.
  - pose proof (chunks_length (S (length assets)) assets) as Hlen.
    rewrite <- Hmap in Hlen. rewrite Forall_map in Hlen. exact Hlen.
Qed.

Lemma flat_forward_covers_witness :
  strictly_sorted_by (flat_cursorValue []) (numbered_assets 120)
  /\ exists rs,
       forward (S (length (numbered_assets 120))) (numbered_assets 120) []
               flat reset = Some rs
       /\ concat (map displayed rs) = numbered_assets 120
       /\ Forall (fun r => (length (displayed r) <= 50)%nat) rs.
Proof.
  assert (Hs : strictly_sorted_by (flat_cursorValue []) (numbered_assets 120)).
  { apply strictly_sortedb_sorted. vm_compute. reflexivity. }
  split; [exact Hs | exact (flat_forward_covers (numbered_assets 120) [] Hs)].
Defined.

Lemma flat_page_of (assets : list Asset) (prefixPath : list jsstring)
  (cursor : option jsstring) (r : Props) :
  buildFlatProps assets prefixPath cursor = Some r ->
  displayPathForAsset r = (fun asset => path (key asset))
  /\ flat_page assets prefixPath (flat_cursorIndex assets prefixPath cursor) r.
Proof.
  intros Hr.
  destruct (buildFlatProps_page assets prefixPath cursor) as (r0 & Hr0 & Hp).
  assert (r0 = r) by congruence. subst r0. exact Hp.
Qed.

(** Two pages of the flat mode that start at the same index show the same
    assets and have the same cursors. *)
Lemma flat_page_unique (assets : list Asset) (prefixPath : list jsstring)
  (s : Z) (r1 r2 : Props) :
  flat_page assets prefixPath s r1 -> flat_page assets prefixPath s r2 ->
  displayed r1 = displayed r2
  /\ prevCursor r1 = prevCursor r2 /\ nextCursor r1 = nextCursor r2.
Proof.
  intros (Hd1 & Hp1 & Hp1' & Hn1 & Hn1') (Hd2 & Hp2 & Hp2' & Hn2 & Hn2').
  split; [congruence |]. split.
  - destruct (Z_gt_dec s 0) as [Hpos | Hnpos].
    + destruct (Hp1' Hpos) as (a & Ha & ->).
      destruct (Hp2' Hpos) as (b & Hb & ->). congruence.
    + destruct (prevCursor r1) as [c |].
      { exfalso. apply Hnpos, Hp1. discriminate. }
      destruct (prevCursor r2) as [c |]; [| reflexivity].
      exfalso. apply Hnpos, Hp2. discriminate.
  - destruct (Z_lt_dec (s + PAGE_SIZE) (Z.of_nat (length assets)))
      as [Hlt | Hnlt].
    + destruct (Hn1' Hlt) as (a & Ha & ->).
      destruct (Hn2' Hlt) as (b & Hb & ->). congruence.
    + destruct (nextCursor r1) as [c |].
      { exfalso. apply Hnlt, Hn1. discriminate. }
      destruct (nextCursor r2) as [c |]; [| reflexivity].
      exfalso. apply Hnlt, Hn2. discriminate.
Qed.

(** X2: in flat mode, for a collection in the strict order of its cursor
    values and a cursor that is undefined or the cursor value of an asset,
    advancing to the next page and then going back with [popCursor] renders
    the page one started from: the same assets and the same two cursors. *)
Theorem flat_advance_pop (assets : list Asset) (prefixPath : list jsstring)
  (cursor : option jsstring) (r r' : Props) (nc : jsstring) :
  strictly_sorted_by (flat_cursorValue prefixPath) assets ->
  (cursor = None
   \/ exists a, In a assets /\ cursor = Some (flat_cursorValue prefixPath a)) ->
  paginate assets prefixPath cursor flat = Some r ->
  advanceCursor r = Some nc ->
  paginate assets prefixPath (Some nc) flat = Some r' ->
  exists pc r'',
    popCursor r' = Some pc
    /\ paginate assets prefixPath (Some pc) flat = Some r''
    /\ displayed r'' = displayed r
    /\ prevCursor r'' = prevCursor r
    /\ nextCursor r'' = nextCursor r.
Proof.
  intros Hs Hcursor Hr Hnc Hr'. cbn [paginate] in *.
  unfold advanceCursor, popCursor in *.
  assert (Hi : exists i, flat_cursorIndex assets prefixPath cursor = Z.of_nat i).
  { destruct Hcursor as [-> | (a & Ha & ->)]; [exists 0%nat; reflexivity |].
    apply In_nth_error in Ha. destruct Ha as (m & Hm). exists m.
    apply flat_cursorIndex_exact; assumption. }
  destruct Hi as (i & Hi).
  destruct (flat_page_of _ _ _ _ Hr) as (_ & Hp). rewrite Hi in Hp.
  pose proof Hp as (_ & _ & _ & Hnext & Hnext').
  destruct Hnext' as (a & Ha & Hn); [apply Hnext; congruence |].
  assert (nc = flat_cursorValue prefixPath a) by congruence. subst nc.
  unfold PAGE_SIZE in *.
  replace (Z.of_nat i + 50)%Z with (Z.of_nat (i + 50)) in Ha by lia.
  rewrite get_of_nat in Ha.
  destruct (flat_page_of _ _ _ _ Hr') as (_ & Hp').
  rewrite (flat_cursorIndex_exact assets prefixPath Hs (i + 50) a Ha) in Hp'.
  destruct Hp' as (_ & _ & Hprev' & _).
  destruct Hprev' as (b & Hb & Hpc); [lia |].
  unfold PAGE_SIZE in Hb.
  replace (Z.max 0 (Z.of_nat (i + 50) - 50)) with (Z.of_nat i) in Hb by lia.
  rewrite get_of_nat in Hb.
  destruct (buildFlatProps_page assets prefixPath
              (Some (flat_cursorValue prefixPath b))) as (r'' & Hr'' & _ & Hp'').
  rewrite (flat_cursorIndex_exact assets prefixPath Hs i b Hb) in Hp''.
  exists (flat_cursorValue prefixPath b), r''.
  split; [exact Hpc |]. split; [exact Hr'' |].
  exact (flat_page_unique _ _ _ _ _ Hp'' Hp).
Qed.

Lemma flat_advance_pop_witness :
  strictly_sorted_by (flat_cursorValue []) (numbered_assets 51)
  /\ paginate (numbered_assets 51) [] None flat = Some first_page_of_51
  /\ exists r',
       paginate (numbered_assets 51) []
         (Some (flat_cursorValue [] (numbered_asset 50))) flat = Some r'
       /\ exists pc r'',
            popCursor r' = Some pc
            /\ paginate (numbered_assets 51) [] (Some pc) flat = Some r''
            /\ displayed r'' = displayed first_page_of_51
            /\ prevCursor r'' = prevCursor first_page_of_51
            /\ nextCursor r'' = nextCursor first_page_of_51.
Proof.
  assert (Hs : strictly_sorted_by (flat_cursorValue []) (numbered_assets 51)).
  { apply strictly_sortedb_sorted. vm_compute. reflexivity. }
  assert (Hr : paginate (numbered_assets 51) [] None flat
               = Some first_page_of_51).
  { vm_compute. reflexivity. }
  destruct (buildFlatProps_page (numbered_assets 51) []
              (Some (flat_cursorValue [] (numbered_asset 50))))
    as (r' & Hr' & _).
  split; [exact Hs |]. split; [exact Hr |]. exists r'. split; [exact Hr' |].
  exact (flat_advance_pop (numbered_assets 51) [] None first_page_of_51 r'
           (flat_cursorValue [] (numbered_asset 50))
           Hs (or_introl eq_refl) Hr eq_refl Hr').
Defined.

(** X3: in both modes a cursor that the paginator returns is the JSON text
    of the prefix path followed by the display path of an asset of the
    collection: it parses back to that path, and it is a non-empty string,
    so that [!!cursor] tells whether the cursor is defined. *)
Theorem cursors_are_display_paths (assets : list Asset)
  (prefixPath : list jsstring) (cursor : option jsstring) (mode : Mode)
  (r : Props) (c : jsstring) :
  paginate assets prefixPath cursor mode = Some r ->
  prevCursor r = Some c \/ nextCursor r = Some c ->
  truthy c = true
  /\ exists asset,
       In asset assets
       /\ c = JSON.stringify (prefixPath ++ displayPathForAsset r asset)
       /\ JSON.parse c = Some (prefixPath ++ displayPathForAsset r asset).
Proof.
  intros Hr Hc.
  assert (H : exists asset,
                In asset assets
                /\ c = JSON.stringify
                         (prefixPath ++ displayPathForAsset r asset)).
  { destruct mode; cbn [paginate] in Hr.
    - destruct (flat_page_of _ _ _ _ Hr)
        as (Hdp & _ & Hprev & Hprev' & Hnext & Hnext').
      rewrite Hdp. destruct Hc as [Hc | Hc].
      + destruct Hprev' as (a & Ha & E); [apply Hprev; congruence |].
        exists a. split; [eapply get_In; exact Ha |].
        unfold flat_cursorValue in E. congruence.
      + destruct Hnext' as (a & Ha & E); [apply Hnext; congruence |].
        exists a. split; [eapply get_In; exact Ha |].
        unfold flat_cursorValue in E. congruence.
    - destruct (buildNamespaceProps_page assets prefixPath cursor)
        as [[_ Hr0] | [_ (r0 & Hr0 & Hdp & _ & Hprev & Hprev' & Hnext & Hnext')]];
        (assert (r0eq : Some r = Some _) by (rewrite <- Hr; exact Hr0));
        injection r0eq as ->.
      + destruct Hc as [Hc | Hc]; discriminate Hc.
      + rewrite Hdp.
        assert (Hns : exists ns,
                  In ns (namespace_list assets prefixPath)
                  /\ c = ns_cursorValue prefixPath ns).
        { destruct Hc as [Hc | Hc].
          - destruct Hprev' as (ns & Hns & E); [apply Hprev; congruence |].
            exists ns. split; [eapply get_In; exact Hns | congruence].
          - destruct Hnext' as (ns & Hns & E); [apply Hnext; congruence |].
            exists ns. split; [eapply get_In; exact Hns | congruence]. }
        destruct Hns as (ns & Hns & ->).
        apply In_namespace_list in Hns. destruct Hns as (a & Ha & ->).
        exists a. split; [exact Ha | reflexivity]. }
  destruct H as (asset & Hin & ->).
  split; [reflexivity |]. exists asset.
  split; [exact Hin |]. split; [reflexivity | apply parse_stringify].
Qed.

Lemma cursors_are_display_paths_witness :
  paginate two_assets [] (Some cursor_b) namespace
  = Some {| nextCursor := None;
            prevCursor := Some (JSON.stringify [lit "a"]);
            displayPathForAsset := namespaceForAsset [];
            displayed := [asset_of "b" ["b"%string]] |}
  /\ truthy (JSON.stringify [lit "a"]) = true
  /\ exists asset,
       In asset two_assets
       /\ JSON.stringify [lit "a"]
          = JSON.stringify ([] ++ namespaceForAsset [] asset)
       /\ JSON.parse (JSON.stringify [lit "a"])
          = Some ([] ++ namespaceForAsset [] asset).
Proof.
  assert (Hr : paginate two_assets [] (Some cursor_b) namespace
               = Some {| nextCursor := None;
                         prevCursor := Some (JSON.stringify [lit "a"]);
                         displayPathForAsset := namespaceForAsset [];
                         displayed := [asset_of "b" ["b"%string]] |}).
  { vm_compute. reflexivity. }
  split; [exact Hr |].
  exact (cursors_are_display_paths two_assets [] (Some cursor_b) namespace _
           (JSON.stringify [lit "a"]) Hr (or_introl eq_refl)).
Defined.

(** * What the namespace mode displays *)

Section NamespaceDisplay.

Variable prefixPath : list jsstring.

Lemma under_prefix_agrees (asset : Asset) :
  under_prefix prefixPath asset = true <-> agrees prefixPath (path (key asset)).
Proof. apply every_agrees. Qed.

Lemma agrees_app (ns p : list jsstring) :
  agrees (prefixPath ++ ns) p <->
  agrees prefixPath p
  /\ forall i, (i < length ns)%nat ->
               nth_error p (length prefixPath + i) = nth_error ns i.
Proof.
  unfold agrees. split.
  - intros H. split.
    + intros i Hi. rewrite (H i) by (rewrite length_app; lia).
      apply nth_error_app1. exact Hi.
    + intros i Hi. rewrite (H (length prefixPath + i)%nat)
        by (rewrite length_app; lia).
      rewrite nth_error_app2 by lia. f_equal. lia.
  - intros [Hpre Hns] i Hi. rewrite length_app in Hi.
    destruct (Nat.lt_ge_cases i (length prefixPath)) as [Hlt | Hge].
    + rewrite nth_error_app1 by exact Hlt. apply Hpre. exact Hlt.
    + rewrite nth_error_app2 by exact Hge.
      rewrite <- (Hns (i - length prefixPath)%nat) by lia. f_equal. lia.
Qed.

(** The namespace of an asset is the segment of its path that follows the
    prefix, or is empty when the path has no such segment. *)
Lemma namespaceForAsset_nth (asset : Asset) :
  namespaceForAsset prefixPath asset =
  match nth_error (path (key asset)) (length prefixPath) with
  | Some s => [s]
  | None => []
  end.
Proof.
  unfold namespaceForAsset. rewrite slice_nonneg by lia.
  replace (Z.to_nat (Z.of_nat (length prefixPath) + 1
                     - Z.of_nat (length prefixPath))) with 1%nat by lia.
  rewrite Nat2Z.id.
  generalize (length prefixPath) as n. generalize (path (key asset)) as p.
  intros p n. revert p. induction n as [| n IH]; intros [| x p]; try reflexivity.
  cbn [skipn nth_error]. apply IH.
Qed.

(** The path of an asset agrees with the prefix extended by a namespace of
    at most one segment when it starts with the prefix and the namespace is
    empty or is the namespace of the asset. *)
Lemma agrees_namespace (asset : Asset) (ns : list jsstring) :
  (length ns <= 1)%nat ->
  agrees (prefixPath ++ ns) (path (key asset)) <->
  agrees prefixPath (path (key asset))
  /\ (ns = [] \/ ns = namespaceForAsset prefixPath asset).
Proof.
  intros Hlen. rewrite agrees_app, namespaceForAsset_nth.
  destruct ns as [| s [| t ns]]; [| | cbn in Hlen; lia].
  - split; [intros [H _]; split; [exact H | left; reflexivity] |].
    intros [H _]. split; [exact H | intros i Hi; cbn in Hi; lia].
  - split.
    + intros [H Hs]. split; [exact H | right].
      specialize (Hs 0%nat). rewrite Nat.add_0_r in Hs. cbn in Hs.
      rewrite Hs by lia. reflexivity.
    + intros [H [E | E]]; [discriminate |]. split; [exact H |].
      intros [| i] Hi; [| cbn in Hi; lia].
      rewrite Nat.add_0_r. cbn.
      destruct (nth_error (path (key asset)) (length prefixPath));
        [congruence | discriminate].
Qed.

End NamespaceDisplay.

Lemma In_firstn {A : Type} (n : nat) (l : list A) (x : A) :
  In x (firstn n l) -> In x l.
Proof.
  revert l. induction n as [| n IH]; intros [| y l] H; try contradiction.
  destruct H as [-> | H]; [left; reflexivity | right; apply IH; exact H].
Qed.

Lemma In_skipn {A : Type} (n : nat) (l : list A) (x : A) :
  In x (skipn n l) -> In x l.
Proof.
  revert l. induction n as [| n IH]; intros [| y l] H; try assumption.
  right. apply IH. exact H.
Qed.

Lemma In_slice {A : Type} (l : list A) (s e : Z) (x : A) :
  In x (slice l s e) -> In x l.
Proof.
  unfold slice. intros H. apply In_firstn, In_skipn in H. exact H.
Qed.

Lemma bool_eq_iff (a b : bool) : (a = true <-> b = true) -> a = b.
Proof. destruct a, b; intuition congruence. Qed.

Lemma In_ns_window (prefixPath : list jsstring) (cursor : option jsstring)
  (nss : list (list jsstring)) (ns : list jsstring) :
  In ns (ns_window prefixPath cursor nss) -> In ns nss.
Proof.
  unfold ns_window. destruct (_ =? -1)%Z; [intros [] | apply In_slice].
Qed.

(** X4: in namespace mode an asset is displayed exactly when it is in the
    collection, its path starts with the prefix path, and the window of
    namespaces holds its own namespace or the empty namespace.  So an asset
    whose path does not start with the prefix is never displayed, and a
    window with the empty namespace (the namespace of an asset whose path
    ends with the prefix) displays every asset under the prefix. *)
Theorem namespace_displayed_iff (assets : list Asset)
  (prefixPath : list jsstring) (cursor : option jsstring) :
  exists r,
    buildNamespaceProps assets prefixPath cursor = Some r
    /\ forall asset,
         In asset (displayed r) <->
         In asset assets
         /\ under_prefix prefixPath asset = true
         /\ (In (namespaceForAsset prefixPath asset)
                (ns_window prefixPath cursor (namespace_list assets prefixPath))
             \/ In [] (ns_window prefixPath cursor
                         (namespace_list assets prefixPath))).
Proof.
  destruct (buildNamespaceProps_displayed assets prefixPath cursor)
    as (r & Hr & Hd).
  exists r. split; [exact Hr |]. intros asset.
  rewrite Hd. unfold filterAssetsByNamespace.
  rewrite filter_In, existsb_exists, under_prefix_agrees.
  set (window := ns_window prefixPath cursor (namespace_list assets prefixPath)).
  assert (Hlen : forall ns, In ns window -> (length ns <= 1)%nat).
  { intros ns Hns. apply In_ns_window, In_namespace_list in Hns.
    destruct Hns as (a & _ & ->). apply namespaceForAsset_length. }
  split.
  - intros [Hin (ext & Hext & Hev)]. split; [exact Hin |].
    apply in_map_iff in Hext. destruct Hext as (ns & <- & Hns).
    apply every_agrees in Hev.
    apply (agrees_namespace prefixPath asset ns (Hlen ns Hns)) in Hev.
    destruct Hev as [Hpre [-> | ->]]; tauto.
  - intros (Hin & Hpre & Hw). split; [exact Hin |].
    destruct Hw as [Hw | Hw].
    + exists (prefixPath ++ namespaceForAsset prefixPath asset). split.
      * apply in_map_iff. eexists. split; [reflexivity | exact Hw].
      * apply every_agrees.
        apply (agrees_namespace prefixPath asset _ (Hlen _ Hw)). tauto.
    + exists (prefixPath ++ []). split.
      * apply in_map_iff. eexists. split; [reflexivity | exact Hw].
      * apply every_agrees.
        apply (agrees_namespace prefixPath asset [] (Hlen _ Hw)). tauto.
Qed.

(** X5: in namespace mode, without a cursor and with at most fifty
    namespaces, the one page shows every asset whose path starts with the
    prefix path, in the order of the collection, and has no cursor; with the
    empty prefix that the catalog passes it shows the whole collection. *)
Theorem namespace_single_page (assets : list Asset)
  (prefixPath : list jsstring) :
  (length (namespace_list assets prefixPath) <= 50)%nat ->
  exists r,
    buildNamespaceProps assets prefixPath None = Some r
    /\ displayed r = filter (under_prefix prefixPath) assets
    /\ (prefixPath = [] -> displayed r = assets)
    /\ prevCursor r = None /\ nextCursor r = None.
Proof.
  intros Hlen.
  destruct (buildNamespaceProps_page assets prefixPath None)
    as [[E _] | [_ (r & Hr & _ & Hd & Hprev & _ & Hnext & _)]];
    [discriminate E |].
  change (ns_cursorIndex prefixPath None (namespace_list assets prefixPath))
    with 0%Z in *.
  assert (Hfilter : displayed r = filter (under_prefix prefixPath) assets).
  { rewrite Hd. unfold PAGE_SIZE. rewrite slice_nonneg by lia.
    cbn [Z.to_nat skipn Z.add Z.sub Z.opp]. rewrite firstn_all2 by (cbn; lia).
    unfold filterAssetsByNamespace. apply filter_ext_in. intros asset Hin.
    apply bool_eq_iff. rewrite existsb_exists, under_prefix_agrees. split.
    - intros (ext & Hext & Hev). apply in_map_iff in Hext.
      destruct Hext as (ns & <- & Hns). apply every_agrees in Hev.
      apply agrees_app in Hev. tauto.
    - intros Hpre.
      exists (prefixPath ++ namespaceForAsset prefixPath asset). split.
      + apply in_map_iff. eexists. split; [reflexivity |].
        apply In_namespace_list. eauto.
      + apply every_agrees.
        apply (agrees_namespace prefixPath asset _
                 (namespaceForAsset_length prefixPath asset)).
        tauto. }
  exists r. split; [exact Hr |]. split; [exact Hfilter |]. split; [| split].
  - intros ->. rewrite Hfilter. clear.
    induction assets as [| a l IH]; [reflexivity |].
    cbn [filter]. change (under_prefix [] a) with true. cbv iota.
    f_equal. exact IH.
  - destruct (prevCursor r); [| reflexivity].
    assert ((0 > 0)%Z) by (apply Hprev; discriminate). lia.
  - destruct (nextCursor r); [| reflexivity].
    assert ((0 + PAGE_SIZE
             < Z.of_nat (length (namespace_list assets prefixPath)))%Z)
      by (apply Hnext; discriminate).
    unfold PAGE_SIZE in *. lia.
Qed.

Lemma namespace_single_page_witness :
  (length (namespace_list xy_assets []) <= 50)%nat
  /\ exists r,
       buildNamespaceProps xy_assets [] None = Some r
       /\ displayed r = filter (under_prefix []) xy_assets
       /\ (@nil jsstring = [] -> displayed r = xy_assets)
       /\ prevCursor r = None /\ nextCursor r = None.
Proof.
  assert (H : (length (namespace_list xy_assets []) <= 50)%nat).
  { vm_compute. lia. }
  split; [exact H | exact (namespace_single_page xy_assets [] H)].
Defined.

Section NamespaceForward.

Variable assets : list Asset.
Variable prefixPath : list jsstring.
Hypothesis namespaces_sorted :
  sorted_by (ns_cursorValue prefixPath) (namespace_list assets prefixPath).

Lemma ns_cursorValue_inj (x y : list jsstring) :
  ns_cursorValue prefixPath x = ns_cursorValue prefixPath y -> x = y.
Proof.
  unfold ns_cursorValue. intros H.
  apply stringify_inj, app_inv_head in H. exact H.
Qed.

Lemma NoDup_ns_cursorValue (l : list (list jsstring)) :
  NoDup l -> NoDup (map (ns_cursorValue prefixPath) l).
Proof.
  induction 1 as [| x l Hx Hl IH]; cbn [map]; constructor; [| exact IH].
  intros Hin. apply in_map_iff in Hin. destruct Hin as (y & E & Hy).
  apply ns_cursorValue_inj in E. congruence.
Qed.

Lemma namespaces_strictly_sorted :
  strictly_sorted_by (ns_cursorValue prefixPath)
                     (namespace_list assets prefixPath).
Proof.
  apply sorted_NoDup_strict; [exact namespaces_sorted |].
  apply NoDup_ns_cursorValue, NoDup_namespace_list.
Qed.

Lemma ns_cursorIndex_exact (m : nat) (ns : list jsstring) :
  nth_error (namespace_list assets prefixPath) m = Some ns ->
  ns_cursorIndex prefixPath (Some (ns_cursorValue prefixPath ns))
                 (namespace_list assets prefixPath)
  = Z.of_nat m.
Proof.
  intros Hns. unfold ns_cursorIndex. rewrite ns_cursorValue_truthy.
  apply seek_exact; [exact namespaces_strictly_sorted | exact Hns].
Qed.

Lemma namespace_forward_from (fuel i : nat) (cursor : option jsstring) :
  ns_cursorIndex prefixPath cursor (namespace_list assets prefixPath)
  = Z.of_nat i ->
  (length (namespace_list assets prefixPath) - i < fuel)%nat ->
  exists rs,
    forward fuel assets prefixPath namespace cursor = Some rs
    /\ map displayed rs =
       map (fun w =>
              filterAssetsByNamespace assets (map (fun ns => prefixPath ++ ns) w))
           (chunks fuel (skipn i (namespace_list assets prefixPath))).
Proof.
  revert i cursor. induction fuel as [| f IH]; intros i cursor Hi Hfuel; [lia |].
  destruct (buildNamespaceProps_page assets prefixPath cursor)
    as [[E _] | [_ (r & Hr & _ & Hp)]]; [lia |].
  rewrite Hi in Hp. destruct Hp as (Hd & _ & _ & Hnext & Hnext').
  rewrite slice_window in Hd.
  cbn [forward paginate chunks]. rewrite Hr. cbn [bind].
  rewrite length_skipn. unfold PAGE_SIZE in *.
  destruct (Nat.ltb_spec 50 (length (namespace_list assets prefixPath) - i))
    as [Hlt | Hge].
  - destruct Hnext' as (ns & Hns & Hn); [lia |].
    replace (Z.of_nat i + 50)%Z with (Z.of_nat (i + 50)) in Hns by lia.
    rewrite get_of_nat in Hns.
    unfold hasNextCursor, advanceCursor. rewrite Hn.
    change (truthy (ns_cursorValue prefixPath ns)) with true. cbv iota.
    destruct (IH (i + 50)%nat (Some (ns_cursorValue prefixPath ns)))
      as (rs & Hrs & Hmap).
    { apply ns_cursorIndex_exact. exact Hns. }
    { lia. }
    rewrite Hrs. cbn [bind]. eexists. split; [reflexivity |].
    cbn [map]. rewrite Hd, Hmap, skipn_skipn_add. reflexivity.
  - assert (Hnone : nextCursor r = None).
    { destruct (nextCursor r); [| reflexivity].
      assert ((Z.of_nat i + 50
               < Z.of_nat (length (namespace_list assets prefixPath)))%Z)
        by (apply Hnext; discriminate).
      lia. }
    unfold hasNextCursor. rewrite Hnone.
    eexists. split; [reflexivity |]. cbn [map]. rewrite Hd. reflexivity.
Qed.

End NamespaceForward.

(** X6: in namespace mode, when the namespace list is in the order of its
    cursor values, advancing the cursor from the first page for as long as
    there is a next cursor ends, and every asset of the collection whose
    path starts with the prefix path is displayed on one of the pages;
    no page displays an asset that is not in the collection or whose path
    does not start with the prefix. *)
Theorem namespace_forward_covers (assets : list Asset)
  (prefixPath : list jsstring) :
  sorted_by (ns_cursorValue prefixPath) (namespace_list assets prefixPath) ->
  exists rs,
    forward (S (length assets)) assets prefixPath namespace reset = Some rs
    /\ (forall asset,
          In asset assets -> under_prefix prefixPath asset = true ->
          exists r, In r rs /\ In asset (displayed r))
    /\ (forall r asset,
          In r rs -> In asset (displayed r) ->
          In asset assets /\ under_prefix prefixPath asset = true).
Proof.
  intros Hs.
  pose proof (length_namespace_list assets prefixPath) as Hlen.
  destruct (namespace_forward_from assets prefixPath Hs (S (length assets)) 0
              reset) as (rs & Hrs & Hmap); [reflexivity | lia |].
  cbn [skipn] in Hmap.
  exists rs. split; [exact Hrs |]. split.
  - intros asset Hin Hpre.
    assert (Hns : In (namespaceForAsset prefixPath asset)
                     (concat (chunks (S (length assets))
                                (namespace_list assets prefixPath)))).
    { rewrite chunks_concat by lia. apply In_namespace_list. eauto. }
    apply in_concat in Hns. destruct Hns as (w & Hw & Hns).
    apply (in_map (fun w =>
             filterAssetsByNamespace assets
               (map (fun ns => prefixPath ++ ns) w))) in Hw.
    rewrite <- Hmap in Hw. apply in_map_iff in Hw.
    destruct Hw as (r & Hd & Hr). exists r. split; [exact Hr |].
    rewrite Hd. unfold filterAssetsByNamespace.
    apply filter_In. split; [exact Hin |].
    apply existsb_exists.
    exists (prefixPath ++ namespaceForAsset prefixPath asset). split.
    + apply in_map_iff. eexists. split; [reflexivity | exact Hns].
    + apply every_agrees.
      apply (agrees_namespace prefixPath asset _
               (namespaceForAsset_length prefixPath asset)).
      split; [apply under_prefix_agrees; exact Hpre | right; reflexivity].
  - intros r asset Hr Hin.
    apply (in_map displayed) in Hr. rewrite Hmap in Hr.
    apply in_map_iff in Hr. destruct Hr as (w & Hd & _).
    rewrite <- Hd in Hin. unfold filterAssetsByNamespace in Hin.
    apply filter_In in Hin. destruct Hin as [Hin Hex].
    split; [exact Hin |].
    apply existsb_exists in Hex. destruct Hex as (ext & Hext & Hev).
    apply in_map_iff in Hext. destruct Hext as (ns & <- & _).
    apply every_agrees, agrees_app in Hev.
    apply under_prefix_agrees. tauto.
Qed.

Lemma namespace_forward_covers_witness :
  sorted_by (ns_cursorValue []) (namespace_list (numbered_assets 120) [])
  /\ exists rs,
       forward (S (length (numbered_assets 120))) (numbered_assets 120) []
               namespace reset = Some rs
       /\ (forall asset,
             In asset (numbered_assets 120) -> under_prefix [] asset = true ->
             exists r, In r rs /\ In asset (displayed r))
       /\ (forall r asset,
             In r rs -> In asset (displayed r) ->
             In asset (numbered_assets 120) /\ under_prefix [] asset = true).
Proof.
  assert (Hs : sorted_by (ns_cursorValue [])
                         (namespace_list (numbered_assets 120) [])).
  { apply sortedb_sorted. vm_compute. reflexivity. }
  split; [exact Hs |].
  exact (namespace_forward_covers (numbered_assets 120) [] Hs).
Defined.

(** * The search filter *)

Section SearchTerms.

Lemma split_on_cons (sep : N) (s : jsstring) :
  exists h t, split_on sep s = h :: t.
Proof.
  induction s as [| c s (h & t & E)]; cbn [split_on]; [eauto |].
  destruct (c =? sep)%N; [eauto |]. rewrite E. eauto.
Qed.

(** The pieces of a split are made of code units of the string other than
    the separator. *)
Lemma split_on_pieces (P : N -> Prop) (sep : N) (s : jsstring) :
  Forall P s ->
  Forall (Forall (fun c => P c /\ c <> sep)) (split_on sep s).
Proof.
  induction 1 as [| c s Hc Hs IH]; cbn [split_on].
  - repeat constructor.
  - destruct (N.eqb_spec c sep) as [-> | Hne].
    + constructor; [constructor | exact IH].
    + destruct (split_on sep s) as [| h t]; [repeat constructor; assumption |].
      inversion IH; subst. constructor; [| assumption].
      constructor; [split; assumption | assumption].
Qed.

Lemma trimStart_all (s : jsstring) :
  Forall (fun c => is_white_space c = true) s -> trimStart s = [].
Proof.
  induction 1 as [| c s Hc Hs IH]; [reflexivity |].
  cbn [trimStart]. rewrite Hc. exact IH.
Qed.

Lemma trimStart_hd (s : jsstring) (c : N) :
  hd_error (trimStart s) = Some c -> is_white_space c = false.
Proof.
  induction s as [| x s IH]; [discriminate |].
  cbn [trimStart]. destruct (is_white_space x) eqn:E; [exact IH |].
  cbn. congruence.
Qed.

Lemma trimStart_incl (s : jsstring) (c : N) : In c (trimStart s) -> In c s.
Proof.
  induction s as [| x s IH]; [intros [] |].
  cbn [trimStart]. destruct (is_white_space x); [right; auto | auto].
Qed.

Lemma trimStart_app (s : jsstring) (c : code_unit) :
  is_white_space c = false -> trimStart (s ++ [c]) = trimStart s ++ [c].
Proof.
  intros Hc. induction s as [| x s IH]; cbn [app trimStart].
  - rewrite Hc. reflexivity.
  - destruct (is_white_space x); [exact IH | reflexivity].
Qed.

Lemma trimEnd_cons (s : jsstring) (c : code_unit) :
  is_white_space c = false -> trimEnd (c :: s) = c :: trimEnd s.
Proof.
  intros Hc. unfold trimEnd. cbn [rev].
  rewrite trimStart_app by exact Hc. rewrite rev_app_distr. reflexivity.
Qed.

Lemma trimEnd_incl (s : jsstring) (c : N) : In c (trimEnd s) -> In c s.
Proof.
  unfold trimEnd. intros H. apply in_rev, trimStart_incl, in_rev in H. exact H.
Qed.

(** A trimmed string neither starts nor ends with white space. *)
Lemma trim_ends (s : jsstring) (c : N) :
  hd_error (trim s) = Some c \/ hd_error (rev (trim s)) = Some c ->
  is_white_space c = false.
Proof.
  unfold trim. intros [H | H].
  - destruct (trimStart s) as [| x y] eqn:E; [discriminate H |].
    assert (Hx : is_white_space x = false)
      by (apply (trimStart_hd s); rewrite E; reflexivity).
    rewrite (trimEnd_cons y x Hx) in H. cbn in H. congruence.
  - unfold trimEnd in H. rewrite rev_involutive in H.
    eapply trimStart_hd. exact H.
Qed.

Lemma trim_incl (s : jsstring) (c : N) : In c (trim s) -> In c s.
Proof. unfold trim. intros H. apply trimEnd_incl, trimStart_incl in H. exact H. Qed.

End SearchTerms.

(** X7: a search term is never empty, holds neither a star nor a comma,
    and neither starts nor ends with white space. *)
Theorem search_terms_normal (opsQuery term : jsstring) :
  In term (searchSeparatorAgnostic opsQuery) ->
  term <> []
  /\ ~ In 42%N term /\ ~ In 44%N term
  /\ (forall c, hd_error term = Some c -> is_white_space c = false)
  /\ (forall c, hd_error (rev term) = Some c -> is_white_space c = false).
Proof.
  unfold searchSeparatorAgnostic. intros H.
  apply filter_In in H. destruct H as [H Ht].
  apply in_map_iff in H. destruct H as (p & <- & Hp).
  split; [intros E; rewrite E in Ht; discriminate |].
  split; [| split; [| split]].
  - intros Hin. apply trim_incl in Hin. unfold remove_stars in Hin.
    apply filter_In in Hin. destruct Hin as [_ Hin]. discriminate Hin.
  - intros Hin. apply trim_incl in Hin. unfold remove_stars in Hin.
    apply filter_In in Hin. destruct Hin as [Hin _].
    assert (Htrue : Forall (fun _ : N => True) opsQuery)
      by (apply Forall_forall; intros; exact I).
    pose proof (split_on_pieces (fun _ => True) 44 opsQuery Htrue) as Hall.
    rewrite Forall_forall in Hall. specialize (Hall p Hp).
    rewrite Forall_forall in Hall. destruct (Hall _ Hin) as [_ Hne].
    apply Hne. reflexivity.
  - intros c Hc. apply (trim_ends (remove_stars p)). left. exact Hc.
  - intros c Hc. apply (trim_ends (remove_stars p)). right. exact Hc.
Qed.

Lemma search_terms_normal_witness :
  In (lit "b c") (searchSeparatorAgnostic (lit "a*, *b c ,,*"))
  /\ lit "b c" <> []
  /\ ~ In 42%N (lit "b c") /\ ~ In 44%N (lit "b c")
  /\ (forall c, hd_error (lit "b c") = Some c -> is_white_space c = false)
  /\ (forall c, hd_error (rev (lit "b c")) = Some c
                -> is_white_space c = false).
Proof.
  assert (H : In (lit "b c") (searchSeparatorAgnostic (lit "a*, *b c ,,*"))).
  { vm_compute. right. left. reflexivity. }
  split; [exact H | exact (search_terms_normal _ _ H)].
Defined.

Section CatalogFacts.

Variable tokenForAssetKey : AssetKey -> jsstring.
Variable toLowerCase : jsstring -> jsstring.
Variable assetGraphData : option (jsstring -> bool).

(** A query of stars, commas and white space has no search term. *)
Lemma wildcard_query_no_term (opsQuery : jsstring) :
  Forall (fun c => c = 42%N \/ c = 44%N \/ is_white_space c = true) opsQuery ->
  searchSeparatorAgnostic opsQuery = [].
Proof.
  intros Hq. unfold searchSeparatorAgnostic.
  pose proof (split_on_pieces _ 44 opsQuery Hq) as Hall.
  induction Hall as [| p l Hp Hl IH]; [reflexivity |].
  cbn [map filter].
  assert (E : trim (remove_stars p) = []).
  { unfold trim. rewrite trimStart_all; [reflexivity |].
    apply Forall_forall. intros c Hc. unfold remove_stars in Hc.
    apply filter_In in Hc. destruct Hc as [Hc Hstar].
    rewrite Forall_forall in Hp. destruct (Hp c Hc) as [[-> | [-> | Hw]] Hne].
    - discriminate Hstar.
    - congruence.
    - exact Hw. }
  rewrite E. cbn [truthy]. exact IH.
Qed.

(** X8: a query made of stars, commas and white space only, the empty
    query among them, filters nothing out: the paginator gets every asset of
    the query result, whatever the graph data. *)
Theorem wildcard_query_keeps_all (opsQuery : jsstring) (assets : list Asset) :
  Forall (fun c => c = 42%N \/ c = 44%N \/ is_white_space c = true) opsQuery ->
  filtered tokenForAssetKey toLowerCase assetGraphData opsQuery assets = assets.
Proof.
  intros Hq. unfold filtered. rewrite (wildcard_query_no_term opsQuery Hq).
  cbn [length Nat.eqb existsb]. 
  induction assets as [| a l IH]; [reflexivity |].
  cbn [filter]. rewrite orb_true_r. cbn [orb]. f_equal. exact IH.
Qed.

End CatalogFacts.

Lemma wildcard_query_keeps_all_witness :
  Forall (fun c => c = 42%N \/ c = 44%N \/ is_white_space c = true)
         (lit " *, **")
  /\ filtered (fun k => Array_toString (path k)) (fun s => s) None
              (lit " *, **") two_assets
     = two_assets.
Proof.
  assert (H : Forall (fun c => c = 42%N \/ c = 44%N \/ is_white_space c = true)
                     (lit " *, **")).
  { repeat (apply Forall_cons;
              [first [left; reflexivity
                     | right; left; reflexivity
                     | right; right; reflexivity] |]).
    apply Forall_nil. }
  split; [exact H |].
  exact (wildcard_query_keeps_all (fun k => Array_toString (path k))
           (fun s => s) None (lit " *, **") two_assets H).
Defined.

(** On an empty list both modes return the empty page without cursors,
    whatever the cursor. *)
Lemma paginate_nil (prefixPath : list jsstring) (cursor : option jsstring)
  (mode : Mode) :
  exists r,
    paginate [] prefixPath cursor mode = Some r
    /\ displayed r = [] /\ prevCursor r = None /\ nextCursor r = None.
Proof.
  destruct mode; cbn [paginate].
  - rewrite buildFlatProps_nil. eexists. split; [reflexivity |]. repeat split.
  - destruct cursor as [[| x c] |];
      (eexists; split; [reflexivity |]; repeat split).
Qed.

(** X9: when the query result has assets and the search filter keeps none
    of them, the empty state is not rendered: the table is rendered with no
    row, both pagination flags are false and neither control has a cursor
    to set, in both views and for every cursor; nothing is thrown. *)
Theorem render_no_match (tokenForAssetKey : AssetKey -> jsstring)
  (toLowerCase : jsstring -> jsstring)
  (assetGraphData : option (jsstring -> bool))
  (opsQuery : jsstring) (view : Mode) (cursor : option jsstring)
  (assets : list Asset) :
  assets <> [] ->
  filtered tokenForAssetKey toLowerCase assetGraphData opsQuery assets = [] ->
  exists displayPath,
    render tokenForAssetKey toLowerCase assetGraphData opsQuery view cursor
           (AssetConnection assets)
    = Some (Table [] displayPath false false None None).
Proof.
  intros Hne Hnil. unfold render. rewrite Hnil.
  destruct assets as [| a l]; [congruence |]. cbn [length Nat.eqb].
  destruct (paginate_nil [] cursor view) as (r & Hr & Hd & Hp & Hn).
  rewrite Hr. cbn [bind].
  unfold hasPrevCursor, hasNextCursor, popCursor, advanceCursor.
  rewrite Hd, Hp, Hn. eexists. reflexivity.
Qed.

Lemma render_no_match_witness :
  one_asset <> []
  /\ filtered (fun k => Array_toString (path k)) (fun s => s) None
              (lit "zebra") one_asset = []
  /\ exists displayPath,
       render (fun k => Array_toString (path k)) (fun s => s) None
              (lit "zebra") namespace (Some cursor_z)
              (AssetConnection one_asset)
       = Some (Table [] displayPath false false None None).
Proof.
  assert (Hne : one_asset <> []) by discriminate.
  assert (Hnil : filtered (fun k => Array_toString (path k)) (fun s => s) None
                          (lit "zebra") one_asset = []) by reflexivity.
  split; [exact Hne |]. split; [exact Hnil |].
  exact (render_no_match (fun k => Array_toString (path k)) (fun s => s) None
           (lit "zebra") namespace (Some cursor_z) one_asset Hne Hnil).
Defined.

(** * The link of [AssetLink] *)

Section Encode.

Local Open Scope N_scope.

Lemma hex_upper_unit (n : N) : n < 16 -> uriUnescaped (hex_upper n) = true.
Proof.
  intros Hn. unfold hex_upper, uriUnescaped.
  destruct (N.ltb_spec n 10).
  - replace (48 <=? 48 + n) with true by (symmetry; apply N.leb_le; lia).
    replace (48 + n <=? 57) with true by (symmetry; apply N.leb_le; lia).
    rewrite !orb_true_r. reflexivity.
  - replace (65 <=? 55 + n) with true by (symmetry; apply N.leb_le; lia).
    replace (55 + n <=? 90) with true by (symmetry; apply N.leb_le; lia).
    reflexivity.
Qed.

Lemma percent_units (octet : N) :
  octet < 256 -> Forall (fun c => uri_unit c = true) (percent octet).
Proof.
  intros H. unfold percent, uri_unit. repeat constructor.
  - rewrite hex_upper_unit; [reflexivity |].
    apply N.Div0.div_lt_upper_bound. lia.
  - rewrite hex_upper_unit; [reflexivity |]. apply N.mod_lt. lia.
Qed.

Lemma utf8_octets (cp : N) :
  cp < 2097152 -> Forall (fun b => b < 256) (utf8 cp).
Proof.
  intros H. unfold utf8.
  assert (H64 : cp mod 64 < 64) by (apply N.mod_lt; lia).
  assert (H64' : (cp / 64) mod 64 < 64) by (apply N.mod_lt; lia).
  assert (H64'' : (cp / 4096) mod 64 < 64) by (apply N.mod_lt; lia).
  destruct (N.ltb_spec cp 128); [repeat constructor; lia |].
  destruct (N.ltb_spec cp 2048).
  { assert (cp / 64 < 32) by (apply N.Div0.div_lt_upper_bound; lia).
    repeat constructor; lia. }
  destruct (N.ltb_spec cp 65536).
  { assert (cp / 4096 < 16) by (apply N.Div0.div_lt_upper_bound; lia).
    repeat constructor; lia. }
  assert (cp / 262144 < 8) by (apply N.Div0.div_lt_upper_bound; lia).
  repeat constructor; lia.
Qed.

Lemma percent_encode_units (cp : N) :
  cp < 2097152 -> Forall (fun c => uri_unit c = true) (percent_encode cp).
Proof.
  intros H. unfold percent_encode.
  pose proof (utf8_octets cp H) as Hb.
  induction Hb as [| b l Hb Hl IH]; [constructor |].
  cbn [map concat]. apply Forall_app. split; [| exact IH].
  apply percent_units. exact Hb.
Qed.

Lemma code_point_bound (c d : N) :
  JSON.is_leading_surrogate c = true -> JSON.is_trailing_surrogate d = true ->
  65536 <= code_point c d < 1114112.
Proof.
  unfold JSON.is_leading_surrogate, JSON.is_trailing_surrogate, code_point.
  rewrite !andb_true_iff, !N.leb_le. lia.
Qed.

(** The text of an encoded component is made of the code units that are
    copied and of percent signs. *)
Lemma encodeURIComponent_units (s e : jsstring) :
  code_units s -> encodeURIComponent s = Some e ->
  Forall (fun c => uri_unit c = true) e.
Proof.
  remember (List.length s) as n eqn:Hn.
  assert (Hle : (List.length s <= n)%nat) by lia. clear Hn.
  revert s e Hle. induction n as [| n IH]; intros s e Hle Hs He.
  - destruct s; [| cbn in Hle; lia]. cbn in He. injection He as <-. constructor.
  - destruct s as [| c rest]; [cbn in He; injection He as <-; constructor |].
    inversion Hs as [| ? ? Hc Hrest]; subst.
    cbn [encodeURIComponent] in He.
    destruct (uriUnescaped c) eqn:Eu.
    + destruct (encodeURIComponent rest) as [e' |] eqn:Er; [| discriminate].
      cbn [bind] in He. injection He as <-.
      constructor; [unfold uri_unit; rewrite Eu; reflexivity |].
      apply (IH rest); [cbn in Hle; lia | assumption | assumption].
    + destruct (JSON.is_trailing_surrogate c); [discriminate |].
      destruct (JSON.is_leading_surrogate c) eqn:El.
      * destruct rest as [| d rest']; [discriminate |].
        destruct (JSON.is_trailing_surrogate d) eqn:Et; [| discriminate].
        destruct (encodeURIComponent rest') as [e' |] eqn:Er; [| discriminate].
        cbn [bind] in He. injection He as <-.
        apply Forall_app. split.
        -- apply percent_encode_units.
           pose proof (code_point_bound c d El Et). lia.
        -- inversion Hrest; subst.
           apply (IH rest'); [cbn in Hle; lia | assumption | assumption].
      * destruct (encodeURIComponent rest) as [e' |] eqn:Er; [| discriminate].
        cbn [bind] in He. injection He as <-.
        apply Forall_app. split.
        -- apply percent_encode_units. lia.
        -- apply (IH rest); [cbn in Hle; lia | assumption | assumption].
Qed.

End Encode.

Section SplitJoin.

Variable sep : N.

Lemma split_on_app (s : jsstring) (t : jsstring) :
  Forall (fun c => c <> sep) s ->
  split_on sep (s ++ sep :: t) = s :: split_on sep t.
Proof.
  induction 1 as [| c s Hc Hs IH]; cbn [app split_on].
  - rewrite N.eqb_refl. reflexivity.
  - apply N.eqb_neq in Hc. rewrite Hc, IH. reflexivity.
Qed.

Lemma split_on_none (s : jsstring) :
  Forall (fun c => c <> sep) s -> split_on sep s = [s].
Proof.
  induction 1 as [| c s Hc Hs IH]; cbn [split_on]; [reflexivity |].
  apply N.eqb_neq in Hc. rewrite Hc, IH. reflexivity.
Qed.

(** Splitting the join of strings without the separator gives the strings
    back, when there is at least one. *)
Lemma split_join (l : list jsstring) :
  l <> [] -> Forall (Forall (fun c => c <> sep)) l ->
  split_on sep (join_on sep l) = l.
Proof.
  intros Hne Hall. revert Hne.
  induction Hall as [| s l Hs Hl IH]; intros Hne;
    [exfalso; apply Hne; reflexivity |].
  destruct l as [| t l].
  - cbn [join_on]. apply split_on_none. exact Hs.
  - change (join_on sep (s :: t :: l)) with (s ++ sep :: join_on sep (t :: l)).
    rewrite split_on_app by exact Hs. f_equal. apply IH. discriminate.
Qed.

End SplitJoin.

Lemma mapM_Forall2 {A B : Type} (f : A -> option B) (l : list A) (l' : list B) :
  mapM f l = Some l' -> Forall2 (fun x y => f x = Some y) l l'.
Proof.
  revert l'. induction l as [| x l IH]; intros l' H; cbn [mapM] in H.
  - injection H as <-. constructor.
  - destruct (f x) as [y |] eqn:E; [| discriminate]. cbn [bind] in H.
    destruct (mapM f l) as [ys |]; [| discriminate]. cbn [bind] in H.
    injection H as <-. constructor; [exact E | apply IH; reflexivity].
Qed.

(** X10: without a [url], the link of a path of sixteen-bit code units, when
    there is one, is [/instance/assets/] followed by the encoded segments
    joined by slashes; an encoded segment holds only letters, digits, the
    marks that are copied and percent signs, so that splitting the rest of
    the link at the slashes gives the encoded segments back, one for each
    segment of the path. *)
Theorem linkUrl_segments (url : option jsstring) (p : list jsstring)
  (u : jsstring) :
  Forall code_units p ->
  cursor_truthy url = None ->
  linkUrl url p = Some u ->
  exists encoded,
    Forall2 (fun s e => encodeURIComponent s = Some e) p encoded
    /\ Forall (Forall (fun c => uri_unit c = true)) encoded
    /\ u = lit "/instance/assets/" ++ join_on 47 encoded
    /\ (p <> [] -> split_on 47 (join_on 47 encoded) = encoded).
Proof.
  intros Hp Hurl Hu. unfold linkUrl in Hu. rewrite Hurl in Hu.
  destruct (mapM encodeURIComponent p) as [encoded |] eqn:E; [| discriminate].
  cbn [bind] in Hu. injection Hu as <-.
  apply mapM_Forall2 in E.
  assert (Hunits : Forall (Forall (fun c => uri_unit c = true)) encoded).
  { clear -Hp E. induction E as [| s e p encoded Hse Hrest IH];
      [constructor |].
    inversion Hp; subst. constructor; [| apply IH; assumption].
    eapply encodeURIComponent_units; eassumption. }
  exists encoded. split; [exact E |]. split; [exact Hunits |].
  split; [reflexivity |].
  intros Hne. apply split_join.
  - intros ->. inversion E; subst. apply Hne. reflexivity.
  - eapply Forall_impl; [| exact Hunits]. intros e He.
    eapply Forall_impl; [| exact He]. intros c Hc ->. discriminate Hc.
Qed.

Lemma linkUrl_segments_witness :
  Forall code_units [lit "my table"; lit "x/y"]
  /\ cursor_truthy (Some []) = None
  /\ linkUrl (Some []) [lit "my table"; lit "x/y"]
     = Some (lit "/instance/assets/my%20table/x%2Fy")
  /\ exists encoded,
       Forall2 (fun s e => encodeURIComponent s = Some e)
               [lit "my table"; lit "x/y"] encoded
       /\ Forall (Forall (fun c => uri_unit c = true)) encoded
       /\ lit "/instance/assets/my%20table/x%2Fy"
          = lit "/instance/assets/" ++ join_on 47 encoded
       /\ ([lit "my table"; lit "x/y"] <> []
           -> split_on 47 (join_on 47 encoded) = encoded).
Proof.
  assert (Hp : Forall code_units [lit "my table"; lit "x/y"]).
  { repeat constructor. }
  assert (Hu : linkUrl (Some []) [lit "my table"; lit "x/y"]
               = Some (lit "/instance/assets/my%20table/x%2Fy")).
  { vm_compute. reflexivity. }
  split; [exact Hp |]. split; [reflexivity |]. split; [exact Hu |].
  exact (linkUrl_segments (Some []) [lit "my table"; lit "x/y"] _
           Hp eq_refl Hu).
Defined.

Section EncodeErrors.

Local Open Scope N_scope.

Lemma uriUnescaped_small (c : N) : uriUnescaped c = true -> c < 127.
Proof.
  unfold uriUnescaped.
  rewrite !orb_true_iff, !andb_true_iff, !N.leb_le, !N.eqb_eq. lia.
Qed.

Lemma uriUnescaped_not_surrogate (c : N) :
  uriUnescaped c = true ->
  JSON.is_leading_surrogate c = false /\ JSON.is_trailing_surrogate c = false.
Proof.
  intros H. apply uriUnescaped_small in H.
  unfold JSON.is_leading_surrogate, JSON.is_trailing_surrogate.
  split; apply andb_false_iff; left; apply N.leb_gt; lia.
Qed.

Lemma leading_not_trailing (c : N) :
  JSON.is_trailing_surrogate c = true -> JSON.is_leading_surrogate c = false.
Proof.
  unfold JSON.is_leading_surrogate, JSON.is_trailing_surrogate.
  rewrite andb_true_iff, !N.leb_le. intros [H _].
  apply andb_false_iff. right. apply N.leb_gt. lia.
Qed.

(** [encodeURIComponent] throws exactly on the strings with a surrogate
    outside of a pair. *)
Lemma encodeURIComponent_None (s : jsstring) :
  encodeURIComponent s = None <-> well_formed s = false.
Proof.
  remember (List.length s) as n eqn:Hn.
  assert (Hle : (List.length s <= n)%nat) by lia. clear Hn.
  revert s Hle. induction n as [| n IH]; intros s Hle.
  - destruct s; [| cbn in Hle; lia]. cbn. split; discriminate.
  - destruct s as [| c rest]; [cbn; split; discriminate |].
    cbn [encodeURIComponent well_formed].
    assert (Hrest : encodeURIComponent rest = None <-> well_formed rest = false)
      by (apply IH; cbn in Hle; lia).
    destruct (uriUnescaped c) eqn:Eu.
    + destruct (uriUnescaped_not_surrogate c Eu) as [-> ->]. cbn [negb andb].
      rewrite <- Hrest.
      destruct (encodeURIComponent rest); cbn [bind];
             split; intros H; first [discriminate H | reflexivity].
    + destruct (JSON.is_trailing_surrogate c) eqn:Et.
      * rewrite (leading_not_trailing c Et). cbn. tauto.
      * destruct (JSON.is_leading_surrogate c) eqn:El.
        -- destruct rest as [| d rest']; [tauto |].
           destruct (JSON.is_trailing_surrogate d) eqn:Ed; [| cbn; tauto].
           cbn [andb].
           assert (Hrest' : encodeURIComponent rest' = None
                            <-> well_formed rest' = false)
             by (apply IH; cbn in Hle; lia).
           rewrite <- Hrest'.
           destruct (encodeURIComponent rest'); cbn [bind];
             split; intros H; first [discriminate H | reflexivity].
        -- cbn [negb andb]. rewrite <- Hrest.
           destruct (encodeURIComponent rest); cbn [bind];
             split; intros H; first [discriminate H | reflexivity].
Qed.

End EncodeErrors.

Lemma mapM_None {A B : Type} (f : A -> option B) (l : list A) :
  mapM f l = None <-> exists x, In x l /\ f x = None.
Proof.
  induction l as [| x l IH]; cbn [mapM].
  - split; [discriminate | intros (x & [] & _)].
  - destruct (f x) as [y |] eqn:E; cbn [bind].
    + destruct (mapM f l) as [ys |]; cbn [bind].
      * split; [discriminate |].
        intros (z & [<- | Hz] & Fz); [congruence |].
        destruct IH as [_ IH'].
        specialize (IH' (ex_intro _ z (conj Hz Fz))). discriminate IH'.
      * split; [intros _ | reflexivity].
        destruct IH as [IH' _]. destruct (IH' eq_refl) as (z & Hz & Fz).
        exists z. split; [right; exact Hz | exact Fz].
    + split; [intros _ | reflexivity].
      exists x. split; [left; reflexivity | exact E].
Qed.

(** X11: the link throws exactly when there is no usable [url] (it is
    undefined or the empty string) and a segment of the path holds a
    surrogate outside of a pair; a non-empty [url] is returned as it is,
    whatever the path. *)
Theorem linkUrl_throws (url : option jsstring) (p : list jsstring) :
  (linkUrl url p = None <->
   cursor_truthy url = None /\ exists s, In s p /\ well_formed s = false)
  /\ (forall u, cursor_truthy url = Some u -> linkUrl url p = Some u).
Proof.
  unfold linkUrl. destruct (cursor_truthy url) as [u |].
  - split; [| intros ? [= <-]; reflexivity].
    split; [discriminate | intros [H _]; discriminate H].
  - split; [| discriminate].
    destruct (mapM encodeURIComponent p) as [encoded |] eqn:E; cbn [bind].
    + split; [discriminate |]. intros [_ (s & Hs & Hw)].
      apply encodeURIComponent_None in Hw.
      assert (Hnone : mapM encodeURIComponent p = None)
        by (apply mapM_None; eauto).
      congruence.
    + split; [| reflexivity]. intros _. split; [reflexivity |].
      apply mapM_None in E. destruct E as (s & Hs & Hn).
      exists s. split; [exact Hs | apply encodeURIComponent_None; exact Hn].
Qed.

Lemma encodeURIComponent_copy (s : jsstring) :
  Forall (fun c => uriUnescaped c = true) s -> encodeURIComponent s = Some s.
Proof.
  induction 1 as [| c s Hc Hs IH]; [reflexivity |].
  cbn [encodeURIComponent]. rewrite Hc, IH. reflexivity.
Qed.

(** X12: a path whose segments are made of letters, digits and the marks
    [- _ . ! ~ * ' ( )] is linked as it is written: the link is
    [/instance/assets/] followed by the segments joined by slashes. *)
Theorem linkUrl_plain (url : option jsstring) (p : list jsstring) :
  cursor_truthy url = None ->
  Forall (Forall (fun c => uriUnescaped c = true)) p ->
  linkUrl url p = Some (lit "/instance/assets/" ++ join_on 47 p).
Proof.
  intros Hurl Hp. unfold linkUrl. rewrite Hurl.
  assert (E : mapM encodeURIComponent p = Some p).
  { induction Hp as [| s p Hs Hp IH]; [reflexivity |].
    cbn [mapM]. rewrite (encodeURIComponent_copy s Hs), IH. reflexivity. }
  rewrite E. reflexivity.
Qed.

Lemma linkUrl_plain_witness :
  cursor_truthy None = None
  /\ Forall (Forall (fun c => uriUnescaped c = true))
            [lit "warehouse"; lit "daily_orders"]
  /\ linkUrl None [lit "warehouse"; lit "daily_orders"]
     = Some (lit "/instance/assets/"
             ++ join_on 47 [lit "warehouse"; lit "daily_orders"]).
Proof.
  assert (Hp : Forall (Forall (fun c => uriUnescaped c = true))
                      [lit "warehouse"; lit "daily_orders"]).
  { repeat constructor. }
  split; [reflexivity |]. split; [exact Hp |].
  exact (linkUrl_plain None [lit "warehouse"; lit "daily_orders"] eq_refl Hp).
Defined.

(** Hides the quotients and remainders of the context, once the facts
    that relate them are there. *)
Ltac hide_div :=
  repeat match goal with
         | H : context [N.div ?a ?b] |- _ =>
             let q := fresh "q" in set (q := N.div a b) in *; clearbody q
         | |- context [N.div ?a ?b] =>
             let q := fresh "q" in set (q := N.div a b) in *; clearbody q
         | H : context [N.modulo ?a ?b] |- _ =>
             let q := fresh "q" in set (q := N.modulo a b) in *; clearbody q
         | |- context [N.modulo ?a ?b] =>
             let q := fresh "q" in set (q := N.modulo a b) in *; clearbody q
         end.

Section EncodeInjective.

Local Open Scope N_scope.

Lemma hex_upper_inj (a b : N) :
  a < 16 -> b < 16 -> hex_upper a = hex_upper b -> a = b.
Proof.
  unfold hex_upper. destruct (N.ltb_spec a 10), (N.ltb_spec b 10); lia.
Qed.

Lemma percent_inj (b b' : N) (x y : jsstring) :
  b < 256 -> b' < 256 -> percent b ++ x = percent b' ++ y ->
  b = b' /\ x = y.
Proof.
  intros Hb Hb' H. unfold percent in H. cbn [app] in H.
  injection H as H1 H2 H3.
  apply hex_upper_inj in H1;
    [| apply N.Div0.div_lt_upper_bound; lia
     | apply N.Div0.div_lt_upper_bound; lia].
  apply hex_upper_inj in H2; [| apply N.mod_lt; lia | apply N.mod_lt; lia].
  split; [| exact H3].
  pose proof (N.Div0.div_mod b 16). pose proof (N.Div0.div_mod b' 16).
  hide_div. lia.
Qed.

Lemma percents_inj (bs bs' : list N) (x y : jsstring) :
  Forall (fun b => b < 256) bs -> Forall (fun b => b < 256) bs' ->
  length bs = length bs' ->
  concat (map percent bs) ++ x = concat (map percent bs') ++ y ->
  bs = bs' /\ x = y.
Proof.
  intros Hbs. revert bs'.
  induction Hbs as [| b bs Hb Hbs IH]; intros [| b' bs'] Hbs' Hlen H;
    try discriminate Hlen.
  - split; [reflexivity | exact H].
  - inversion Hbs' as [| ? ? Hb' Hbs'']; subst.
    cbn [map concat] in H. rewrite <- !app_assoc in H.
    apply percent_inj in H; [| assumption | assumption].
    destruct H as [-> H].
    destruct (IH bs' Hbs'') as [-> ->]; [cbn in Hlen; lia | exact H |].
    split; reflexivity.
Qed.

Lemma utf8_first (cp : N) :
  cp < 1114112 ->
  exists b rest, utf8 cp = b :: rest /\ length rest = continuation b.
Proof.
  intros H. unfold utf8, continuation.
  destruct (N.ltb_spec cp 128) as [H1 | H1].
  { exists cp, []. split; [reflexivity |].
    destruct (N.ltb_spec cp 128); [reflexivity | lia]. }
  destruct (N.ltb_spec cp 2048) as [H2 | H2].
  { assert (cp / 64 < 32) by (apply N.Div0.div_lt_upper_bound; lia).
    eexists. eexists. split; [reflexivity |]. cbn [length].
    destruct (N.ltb_spec (192 + cp / 64) 128); [exfalso; hide_div; lia |].
    destruct (N.ltb_spec (192 + cp / 64) 224);
      [reflexivity | exfalso; hide_div; lia]. }
  destruct (N.ltb_spec cp 65536) as [H3 | H3].
  { assert (cp / 4096 < 16) by (apply N.Div0.div_lt_upper_bound; lia).
    eexists. eexists. split; [reflexivity |]. cbn [length].
    destruct (N.ltb_spec (224 + cp / 4096) 128); [exfalso; hide_div; lia |].
    destruct (N.ltb_spec (224 + cp / 4096) 224); [exfalso; hide_div; lia |].
    destruct (N.ltb_spec (224 + cp / 4096) 240);
      [reflexivity | exfalso; hide_div; lia]. }
  eexists. eexists. split; [reflexivity |]. cbn [length].
  destruct (N.ltb_spec (240 + cp / 262144) 128); [exfalso; hide_div; lia |].
  destruct (N.ltb_spec (240 + cp / 262144) 224); [exfalso; hide_div; lia |].
  destruct (N.ltb_spec (240 + cp / 262144) 240);
    [exfalso; hide_div; lia | reflexivity].
Qed.

Lemma cons_inj {A : Type} (a b : A) (l l' : list A) :
  a :: l = b :: l' -> a = b /\ l = l'.
Proof. intros H. injection H as -> ->. split; reflexivity. Qed.

Lemma utf8_inj (cp cp' : N) : utf8 cp = utf8 cp' -> cp = cp'.
Proof.
  assert (D : forall n, n / 4096 = n / 64 / 64
                        /\ n / 262144 = n / 64 / 64 / 64).
  { intros n. rewrite !N.Div0.div_div. split; reflexivity. }
  destruct (D cp) as [E1 E2]. destruct (D cp') as [E1' E2']. clear D.
  pose proof (N.Div0.div_mod cp 64). pose proof (N.Div0.div_mod cp' 64).
  pose proof (N.Div0.div_mod (cp / 64) 64).
  pose proof (N.Div0.div_mod (cp' / 64) 64).
  pose proof (N.Div0.div_mod (cp / 64 / 64) 64).
  pose proof (N.Div0.div_mod (cp' / 64 / 64) 64).
  unfold utf8. rewrite E1, E2, E1', E2'. clear E1 E2 E1' E2'.
  destruct (N.ltb_spec cp 128); [| destruct (N.ltb_spec cp 2048);
                                   [| destruct (N.ltb_spec cp 65536)]];
    (destruct (N.ltb_spec cp' 128); [| destruct (N.ltb_spec cp' 2048);
                                      [| destruct (N.ltb_spec cp' 65536)]]);
    intros Heq; try discriminate Heq;
    repeat (apply cons_inj in Heq; let E := fresh "E" in destruct Heq as [E Heq]);
    hide_div; lia.
Qed.

(** The text of the octets of a code point, followed by anything, tells
    the code point and what follows. *)
Lemma percent_encode_inj (cp cp' : N) (x y : jsstring) :
  cp < 1114112 -> cp' < 1114112 ->
  percent_encode cp ++ x = percent_encode cp' ++ y ->
  cp = cp' /\ x = y.
Proof.
  intros Hcp Hcp' H. unfold percent_encode in H.
  pose proof (utf8_octets cp ltac:(lia)) as Hb.
  pose proof (utf8_octets cp' ltac:(lia)) as Hb'.
  destruct (utf8_first cp Hcp) as (b & rest & E & Hlen).
  destruct (utf8_first cp' Hcp') as (b' & rest' & E' & Hlen').
  assert (Hbs : utf8 cp = utf8 cp' /\ x = y).
  { rewrite E, E' in *.
    assert (Hbb : b = b').
    { cbn [map concat] in H. rewrite <- !app_assoc in H.
      inversion Hb; inversion Hb'; subst.
      apply percent_inj in H; [tauto | assumption | assumption]. }
    subst b'. apply percents_inj; try assumption.
    cbn [length]. congruence. }
  destruct Hbs as [Hu Hxy]. split; [apply utf8_inj; exact Hu | exact Hxy].
Qed.

Lemma percent_encode_head (cp : N) : exists x, percent_encode cp = 37 :: x.
Proof.
  unfold percent_encode, utf8.
  destruct (cp <? 128); [| destruct (cp <? 2048); [| destruct (cp <? 65536)]];
    cbn [map concat percent app]; eauto.
Qed.

Lemma code_point_inj (c d c' d' : N) :
  JSON.is_leading_surrogate c = true -> JSON.is_trailing_surrogate d = true ->
  JSON.is_leading_surrogate c' = true -> JSON.is_trailing_surrogate d' = true ->
  code_point c d = code_point c' d' -> c = c' /\ d = d'.
Proof.
  unfold JSON.is_leading_surrogate, JSON.is_trailing_surrogate, code_point.
  rewrite !andb_true_iff, !N.leb_le. lia.
Qed.

(** How the text of a string that is not empty starts. *)
Lemma encodeURIComponent_head (c : N) (rest e : jsstring) :
  encodeURIComponent (c :: rest) = Some e ->
  (uriUnescaped c = true
   /\ exists e', encodeURIComponent rest = Some e' /\ e = c :: e')
  \/ (uriUnescaped c = false
      /\ JSON.is_leading_surrogate c = false
      /\ exists e', encodeURIComponent rest = Some e'
                    /\ e = percent_encode c ++ e')
  \/ (JSON.is_leading_surrogate c = true
      /\ exists d rest' e',
           rest = d :: rest' /\ JSON.is_trailing_surrogate d = true
           /\ encodeURIComponent rest' = Some e'
           /\ e = percent_encode (code_point c d) ++ e').
Proof.
  cbn [encodeURIComponent]. intros He.
  destruct (uriUnescaped c) eqn:Eu.
  - left. split; [reflexivity |].
    destruct (encodeURIComponent rest) as [e' |] eqn:Er; [| discriminate].
    cbn [bind] in He. injection He as <-. eauto.
  - destruct (JSON.is_trailing_surrogate c); [discriminate |].
    destruct (JSON.is_leading_surrogate c) eqn:El.
    + right. right. split; [reflexivity |].
      destruct rest as [| d rest']; [discriminate |].
      destruct (JSON.is_trailing_surrogate d) eqn:Ed; [| discriminate].
      destruct (encodeURIComponent rest') as [e' |] eqn:Er; [| discriminate].
      cbn [bind] in He. injection He as <-.
      exists d, rest', e'. repeat split; first [assumption | reflexivity].
    + right. left. split; [reflexivity |]. split; [reflexivity |].
      destruct (encodeURIComponent rest) as [e' |] eqn:Er; [| discriminate].
      cbn [bind] in He. injection He as <-. eauto.
Qed.

Lemma uriUnescaped_37 : uriUnescaped 37 = false.
Proof. reflexivity. Qed.

(** Two strings of sixteen-bit code units with the same encoding are the
    same string. *)
Lemma encodeURIComponent_inj (s t e : jsstring) :
  code_units s -> code_units t ->
  encodeURIComponent s = Some e -> encodeURIComponent t = Some e -> s = t.
Proof.
  remember (List.length s) as n eqn:Hn.
  assert (Hle : (List.length s <= n)%nat) by lia. clear Hn.
  revert s t e Hle. induction n as [| n IH]; intros s t e Hle Hs Ht He He'.
  - destruct s; [| cbn in Hle; lia]. cbn in He. injection He as <-.
    destruct t as [| c rest]; [reflexivity |]. exfalso.
    destruct (encodeURIComponent_head c rest [] He')
      as [(_ & e' & _ & E) | [(_ & _ & e' & _ & E) | (_ & d & r & e' & _ & _ & _ & E)]];
      try discriminate E;
      destruct (percent_encode_head c) as (x & Hx);
      try (destruct (percent_encode_head (code_point c d)) as (x' & Hx'));
      first [rewrite Hx in E | rewrite Hx' in E]; discriminate E.
  - destruct s as [| c rest].
    { cbn in He. injection He as <-.
      destruct t as [| c rest]; [reflexivity |]. exfalso.
      destruct (encodeURIComponent_head c rest [] He')
        as [(_ & e' & _ & E) | [(_ & _ & e' & _ & E) | (_ & d & r & e' & _ & _ & _ & E)]];
        try discriminate E;
        destruct (percent_encode_head c) as (x & Hx);
        try (destruct (percent_encode_head (code_point c d)) as (x' & Hx'));
        first [rewrite Hx in E | rewrite Hx' in E]; discriminate E. }
    destruct t as [| c' rest'].
    { exfalso. cbn in He'. injection He' as <-.
      destruct (encodeURIComponent_head c rest [] He)
        as [(_ & e' & _ & E) | [(_ & _ & e' & _ & E) | (_ & d & r & e' & _ & _ & _ & E)]];
        try discriminate E;
        destruct (percent_encode_head c) as (x & Hx);
        try (destruct (percent_encode_head (code_point c d)) as (x' & Hx'));
        first [rewrite Hx in E | rewrite Hx' in E]; discriminate E. }
    inversion Hs as [| ? ? Hc Hrest]; subst.
    inversion Ht as [| ? ? Hc' Hrest']; subst.
    destruct (encodeURIComponent_head c rest e He)
      as [(Hu & e1 & E1 & ->)
         | [(Hu & Hl & e1 & E1 & ->) | (Hl & d & r & e1 & -> & Hd & E1 & ->)]];
      destruct (encodeURIComponent_head c' rest' _ He')
        as [(Hu' & e2 & E2 & Heq)
           | [(Hu' & Hl' & e2 & E2 & Heq)
             | (Hl' & d' & r' & e2 & -> & Hd' & E2 & Heq)]].
    + injection Heq as -> ->. f_equal.
      apply (IH rest rest' e2); try assumption. cbn in Hle; lia.
    + exfalso. destruct (percent_encode_head c') as (x & Hx).
      rewrite Hx in Heq. injection Heq as -> _. discriminate Hu.
    + exfalso. destruct (percent_encode_head (code_point c' d')) as (x & Hx).
      rewrite Hx in Heq. injection Heq as -> _. discriminate Hu.
    + exfalso. destruct (percent_encode_head c) as (x & Hx).
      rewrite Hx in Heq. injection Heq as <- _. discriminate Hu'.
    + apply percent_encode_inj in Heq; [| lia | lia].
      destruct Heq as [-> ->]. f_equal.
      apply (IH rest rest' e2); try assumption. cbn in Hle; lia.
    + exfalso. apply percent_encode_inj in Heq;
        [| lia | pose proof (code_point_bound c' d' Hl' Hd'); lia].
      destruct Heq as [Heq _].
      pose proof (code_point_bound c' d' Hl' Hd'). lia.
    + exfalso. destruct (percent_encode_head (code_point c d)) as (x & Hx).
      rewrite Hx in Heq. injection Heq as <- _. discriminate Hu'.
    + exfalso. apply percent_encode_inj in Heq;
        [| pose proof (code_point_bound c d Hl Hd); lia | lia].
      destruct Heq as [Heq _].
      pose proof (code_point_bound c d Hl Hd). lia.
    + apply percent_encode_inj in Heq;
        [| pose proof (code_point_bound c d Hl Hd); lia
         | pose proof (code_point_bound c' d' Hl' Hd'); lia].
      destruct Heq as [Hcp ->].
      apply code_point_inj in Hcp; try assumption. destruct Hcp as [-> ->].
      f_equal. f_equal.
      inversion Hrest; inversion Hrest'; subst.
      apply (IH r r' e2); try assumption. cbn in Hle; lia.
Qed.

End EncodeInjective.

Lemma linkUrl_encoded (url : option jsstring) (p : list jsstring)
  (u : jsstring) :
  Forall code_units p ->
  cursor_truthy url = None ->
  linkUrl url p = Some u ->
  exists encoded,
    Forall2 (fun s e => encodeURIComponent s = Some e) p encoded
    /\ Forall (Forall (fun c => uri_unit c = true)) encoded
    /\ u = lit "/instance/assets/" ++ join_on 47 encoded.
Proof.
  intros Hp Hurl Hu. unfold linkUrl in Hu. rewrite Hurl in Hu.
  destruct (mapM encodeURIComponent p) as [encoded |] eqn:E; [| discriminate].
  cbn [bind] in Hu. injection Hu as <-.
  apply mapM_Forall2 in E.
  exists encoded. split; [exact E |]. split; [| reflexivity].
  clear -Hp E. induction E as [| s e p encoded Hse Hrest IH]; [constructor |].
  inversion Hp; subst. constructor; [| apply IH; assumption].
  eapply encodeURIComponent_units; eassumption.
Qed.

Lemma uri_units_no_slash (encoded : list jsstring) :
  Forall (Forall (fun c => uri_unit c = true)) encoded ->
  Forall (Forall (fun c => c <> 47%N)) encoded.
Proof.
  intros H. eapply Forall_impl; [| exact H]. intros e He.
  eapply Forall_impl; [| exact He]. intros c Hc ->. discriminate Hc.
Qed.

Lemma Forall2_encode_inj (p q encoded : list jsstring) :
  Forall code_units p -> Forall code_units q ->
  Forall2 (fun s e => encodeURIComponent s = Some e) p encoded ->
  Forall2 (fun s e => encodeURIComponent s = Some e) q encoded ->
  p = q.
Proof.
  intros Hp Hq H. revert q Hq.
  induction H as [| s e p encoded Hse Hrest IH]; intros q Hq H';
    inversion H' as [| t ? q' ? Hte Hrest']; subst; [reflexivity |].
  inversion Hp; inversion Hq; subst. f_equal.
  - eapply encodeURIComponent_inj; eassumption.
  - apply IH; assumption.
Qed.

(** X13: without a [url], two paths of sixteen-bit code units that are
    not empty and have the same link are the same path. *)
Theorem linkUrl_inj (url url' : option jsstring) (p q : list jsstring)
  (u : jsstring) :
  Forall code_units p -> Forall code_units q ->
  p <> [] -> q <> [] ->
  cursor_truthy url = None -> cursor_truthy url' = None ->
  linkUrl url p = Some u -> linkUrl url' q = Some u ->
  p = q.
Proof.
  intros Hp Hq Hpne Hqne Hurl Hurl' Hu Hu'.
  destruct (linkUrl_encoded url p u Hp Hurl Hu) as (ep & Ep & Up & ->).
  destruct (linkUrl_encoded url' q _ Hq Hurl' Hu') as (eq & Eq & Uq & Heq).
  apply app_inv_head in Heq.
  assert (Hep : ep <> []) by (intros ->; inversion Ep; subst; auto).
  assert (Heq' : eq <> []) by (intros ->; inversion Eq; subst; auto).
  assert (E : ep = eq).
  { rewrite <- (split_join 47 ep Hep (uri_units_no_slash ep Up)).
    rewrite <- (split_join 47 eq Heq' (uri_units_no_slash eq Uq)).
    rewrite Heq. reflexivity. }
  subst eq. exact (Forall2_encode_inj p q ep Hp Hq Ep Eq).
Qed.

Lemma linkUrl_inj_witness :
  Forall code_units [lit "x/y"] /\ Forall code_units [lit "x/y"]
  /\ [lit "x/y"] <> [] /\ [lit "x/y"] <> []
  /\ linkUrl None [lit "x/y"] = Some (lit "/instance/assets/x%2Fy")
  /\ linkUrl (Some []) [lit "x/y"] = Some (lit "/instance/assets/x%2Fy")
  /\ [lit "x/y"] = [lit "x/y"].
Proof.
  assert (Hp : Forall code_units [lit "x/y"]) by repeat constructor.
  assert (Hne : [lit "x/y"] <> []) by discriminate.
  assert (Hu : linkUrl None [lit "x/y"] = Some (lit "/instance/assets/x%2Fy"))
    by reflexivity.
  assert (Hu' : linkUrl (Some []) [lit "x/y"]
                = Some (lit "/instance/assets/x%2Fy")) by reflexivity.
  repeat (split; [assumption |]).
  exact (linkUrl_inj None (Some []) [lit "x/y"] [lit "x/y"] _
           Hp Hp Hne Hne eq_refl eq_refl Hu Hu').
Defined.

(** The empty path and the path of one empty segment have the same
    link. *)
Example linkUrl_empty_segment :
  linkUrl None [] = Some (lit "/instance/assets/")
  /\ linkUrl None [[]] = Some (lit "/instance/assets/").
Proof. split; reflexivity. Qed.

(** * The text of [AssetLink] *)

Section LinkText.

Lemma text_content_app (l l' : list ReactNode) :
  text_content (l ++ l') = text_content l ++ text_content l'.
Proof. unfold text_content. rewrite map_app, concat_app. reflexivity. Qed.

Lemma reduce_text (p : list jsstring) (acc : list ReactNode) (i : nat) :
  text_content
    (reduce_from
       (fun accum curr ii =>
          accum ++ [if (0 <? ii)%nat then Separator ii else NullNode; curr])
       (map_from (fun s i => Span i s) p (S i)) acc (S i))
  = text_content acc
    ++ concat (map (fun x => [160; 47; 160]%N ++ x) p).
Proof.
  revert acc i. induction p as [| s p IH]; intros acc i.
  - cbn. rewrite app_nil_r. reflexivity.
  - cbn [map_from reduce_from]. rewrite IH.
    rewrite text_content_app. cbn [Nat.ltb Nat.leb].
    unfold text_content at 2. cbn [map concat node_text].
    rewrite app_nil_r, <- !app_assoc. reflexivity.
Qed.

End LinkText.

(** X14: the text of the link is the segments of the path separated by a
    slash between two no-break spaces, followed by a slash for a group;
    there are two children for each segment and one for the group mark. *)
Theorem link_text (p : list jsstring) (isGroup : bool) :
  text_content (link_children p isGroup)
  = join_str [160; 47; 160]%N p ++ (if isGroup then [47%N] else [])
  /\ length (link_children p isGroup) = (2 * length p + 1)%nat.
Proof.
  unfold link_children. split.
  - rewrite text_content_app.
    assert (Hg : text_content [if isGroup then TextNode [47%N] else NullNode]
                 = if isGroup then [47%N] else []).
    { destruct isGroup; reflexivity. }
    rewrite Hg. f_equal.
    destruct p as [| s p]; [reflexivity |].
    cbn [map_from reduce_from]. rewrite reduce_text.
    unfold text_content, join_str.
    cbn [app Nat.ltb Nat.leb map concat node_text].
    rewrite app_nil_r. reflexivity.
  - rewrite length_app. cbn [length].
    assert (H : forall (l : list jsstring) (acc : list ReactNode) (i : nat),
              length (reduce_from
                        (fun accum curr ii =>
                           accum ++ [if (0 <? ii)%nat then Separator ii
                                     else NullNode; curr])
                        (map_from (fun s i => Span i s) l i) acc i)
              = (length acc + 2 * length l)%nat).
    { induction l as [| s l IH]; intros acc i; [cbn; lia |].
      cbn [map_from reduce_from]. rewrite IH, length_app. cbn [length]. lia. }
    rewrite H. cbn [length]. lia.
Qed.

(** * The rows of the table *)

Section SubseqFacts.

Context {A : Type}.

Lemma Subseq_refl (l : list A) : Subseq l l.
Proof.
  induction l; [apply Subseq_nil | apply Subseq_keep; assumption].
Qed.

Lemma Subseq_nil_l (l : list A) : Subseq [] l.
Proof. induction l; constructor; assumption. Qed.

Lemma Subseq_trans (l1 l2 l3 : list A) :
  Subseq l1 l2 -> Subseq l2 l3 -> Subseq l1 l3.
Proof.
  intros H12 H23. revert l1 H12.
  induction H23 as [| x l2 l3 H IH | x l2 l3 H IH]; intros l1 H12.
  - exact H12.
  - constructor. apply IH. exact H12.
  - inversion H12; subst.
    + apply Subseq_skip. apply IH. assumption.
    + apply Subseq_keep. apply IH. assumption.
Qed.

Lemma Subseq_filter (f : A -> bool) (l : list A) : Subseq (filter f l) l.
Proof.
  induction l as [| x l IH]; cbn [filter]; [apply Subseq_nil |].
  destruct (f x); [apply Subseq_keep | apply Subseq_skip]; exact IH.
Qed.

Lemma Subseq_firstn (n : nat) (l : list A) : Subseq (firstn n l) l.
Proof.
  revert l. induction n as [| n IH]; intros l; [apply Subseq_nil_l |].
  destruct l as [| x l]; cbn [firstn]; [apply Subseq_nil |].
  apply Subseq_keep. apply IH.
Qed.

Lemma Subseq_skipn (n : nat) (l : list A) : Subseq (skipn n l) l.
Proof.
  revert l. induction n as [| n IH]; intros l; [apply Subseq_refl |].
  destruct l as [| x l]; cbn [skipn]; [apply Subseq_nil |].
  apply Subseq_skip. apply IH.
Qed.

Lemma Subseq_slice (l : list A) (s e : Z) : Subseq (slice l s e) l.
Proof.
  unfold slice. eapply Subseq_trans; [apply Subseq_firstn | apply Subseq_skipn].
Qed.

(** A slice is a run of consecutive elements of the list, and a slice of
    fifty indices has at most fifty elements. *)
Lemma slice_infix (l : list A) (s e : Z) :
  exists pre post, l = pre ++ slice l s e ++ post.
Proof.
  assert (H : forall n k : nat,
             exists pre post, l = pre ++ firstn n (skipn k l) ++ post).
  { intros n k. exists (firstn k l), (skipn n (skipn k l)).
    rewrite (firstn_skipn n (skipn k l)), (firstn_skipn k l). reflexivity. }
  unfold slice. apply H.
Qed.

Lemma slice_length_page (l : list A) (s : Z) :
  (length (slice l s (s + PAGE_SIZE)) <= 50)%nat.
Proof.
  unfold slice, PAGE_SIZE. rewrite length_firstn.
  set (len := Z.of_nat (length l)).
  destruct (Z.ltb_spec s 0); destruct (Z.ltb_spec (s + 50) 0); lia.
Qed.

End SubseqFacts.

(** X15: in flat mode, for every cursor, found or not, the page is a run
    of at most fifty consecutive assets of the collection. *)
Theorem flat_page_bound (assets : list Asset) (prefixPath : list jsstring)
  (cursor : option jsstring) :
  exists r,
    buildFlatProps assets prefixPath cursor = Some r
    /\ (length (displayed r) <= 50)%nat
    /\ exists before after, assets = before ++ displayed r ++ after.
Proof.
  destruct (buildFlatProps_page assets prefixPath cursor)
    as (r & Hr & _ & Hd & _).
  exists r. split; [exact Hr |]. rewrite Hd.
  split; [apply slice_length_page | apply slice_infix].
Qed.

(** The cursors that the paginator returns are non-empty strings. *)
Lemma returned_cursor_truthy (assets : list Asset)
  (prefixPath : list jsstring) (cursor : option jsstring) (mode : Mode)
  (r : Props) :
  paginate assets prefixPath cursor mode = Some r ->
  (hasPrevCursor r = true <-> prevCursor r <> None)
  /\ (hasNextCursor r = true <-> nextCursor r <> None).
Proof.
  intros Hr.
  assert (H : forall c, prevCursor r = Some c \/ nextCursor r = Some c ->
                        truthy c = true).
  { intros c Hc. destruct mode; cbn [paginate] in Hr.
    - destruct (flat_page_of _ _ _ _ Hr)
        as (_ & _ & Hprev & Hprev' & Hnext & Hnext').
      destruct Hc as [Hc | Hc].
      + destruct Hprev' as (a & _ & E); [apply Hprev; congruence |].
        assert (c = flat_cursorValue prefixPath a) by congruence.
        subst c. reflexivity.
      + destruct Hnext' as (a & _ & E); [apply Hnext; congruence |].
        assert (c = flat_cursorValue prefixPath a) by congruence.
        subst c. reflexivity.
    - destruct (buildNamespaceProps_page assets prefixPath cursor)
        as [[_ Hr0] | [_ (r0 & Hr0 & _ & _ & Hprev & Hprev' & Hnext & Hnext')]];
        (assert (r0eq : Some r = Some _) by (rewrite <- Hr; exact Hr0));
        injection r0eq as ->.
      + destruct Hc as [Hc | Hc]; discriminate Hc.
      + destruct Hc as [Hc | Hc].
        * destruct Hprev' as (ns & _ & E); [apply Hprev; congruence |].
          assert (c = ns_cursorValue prefixPath ns) by congruence.
          subst c. reflexivity.
        * destruct Hnext' as (ns & _ & E); [apply Hnext; congruence |].
          assert (c = ns_cursorValue prefixPath ns) by congruence.
          subst c. reflexivity. }
  unfold hasPrevCursor, hasNextCursor. split.
  - destruct (prevCursor r) as [c |].
    + rewrite (H c (or_introl eq_refl)). split; [discriminate | reflexivity].
    + split; [discriminate | congruence].
  - destruct (nextCursor r) as [c |].
    + rewrite (H c (or_intror eq_refl)). split; [discriminate | reflexivity].
    + split; [discriminate | congruence].
Qed.

Lemma paginate_subseq (assets : list Asset) (prefixPath : list jsstring)
  (cursor : option jsstring) (mode : Mode) (r : Props) :
  paginate assets prefixPath cursor mode = Some r ->
  Subseq (displayed r) assets.
Proof.
  intros Hr. destruct mode; cbn [paginate] in Hr.
  - destruct (flat_page_of _ _ _ _ Hr) as (_ & Hd & _).
    rewrite Hd. apply Subseq_slice.
  - destruct (buildNamespaceProps_displayed assets prefixPath cursor)
      as (r0 & Hr0 & Hd).
    assert (r0 = r) by congruence. subst r0.
    rewrite Hd. apply Subseq_filter.
Qed.

(** X16: the rows of the table are a subsequence of the query result:
    the assets of the result with some left out, in the order of the
    result; each pagination flag is true exactly when its control has a
    cursor to set. *)
Theorem render_rows (tokenForAssetKey : AssetKey -> jsstring)
  (toLowerCase : jsstring -> jsstring)
  (assetGraphData : option (jsstring -> bool))
  (opsQuery : jsstring) (view : Mode) (cursor : option jsstring)
  (assets rows : list Asset) (displayPath : Asset -> list jsstring)
  (hasPrev hasNext : bool) (popTo advanceTo : option jsstring) :
  render tokenForAssetKey toLowerCase assetGraphData opsQuery view cursor
         (AssetConnection assets)
  = Some (Table rows displayPath hasPrev hasNext popTo advanceTo) ->
  Subseq rows assets
  /\ (hasPrev = true <-> popTo <> None)
  /\ (hasNext = true <-> advanceTo <> None).
Proof.
  unfold render. destruct (length assets =? 0)%nat; [discriminate |].
  destruct (paginate _ [] cursor view) as [r |] eqn:Hr; [| discriminate].
  cbn [bind]. intros [= <- _ <- <- <- <-].
  split.
  - eapply Subseq_trans; [eapply paginate_subseq; exact Hr |].
    apply Subseq_filter.
  - unfold popCursor, advanceCursor.
    eapply returned_cursor_truthy. exact Hr.
Qed.

Lemma render_rows_witness :
  render (fun k => Array_toString (path k)) (fun s => s) None
         (lit "b") flat None (AssetConnection two_assets)
  = Some (Table [asset_of "b" ["b"%string]] (fun asset => path (key asset))
                false false None None)
  /\ Subseq [asset_of "b" ["b"%string]] two_assets
  /\ (false = true <-> @None jsstring <> None)
  /\ (false = true <-> @None jsstring <> None).
Proof.
  assert (H : render (fun k => Array_toString (path k)) (fun s => s) None
                     (lit "b") flat None (AssetConnection two_assets)
              = Some (Table [asset_of "b" ["b"%string]]
                            (fun asset => path (key asset))
                            false false None None)) by reflexivity.
  split; [exact H |].
  exact (render_rows _ _ _ _ _ _ _ _ _ _ _ _ _ H).
Defined.

(** * The order of the namespace list and the controls *)

(** What follows from it for the controls.  On fifty-one namespaces in
    the strict order of their cursor values the first page returns the
    cursor value of [a b] as its [nextCursor]; the search for that cursor
    stops at the namespace [a], the first of the sorted list, so that the
    next page is the first page again, with the same [nextCursor]:
    advancing never ends and the asset [a b] is never displayed. *)
Lemma namespace_next_repeats :
  strictly_sorted_by (flat_cursorValue []) repeating_assets
  /\ exists r r',
       paginate repeating_assets [] None namespace = Some r
       /\ nextCursor r = Some cursor_a_b
       /\ paginate repeating_assets [] (Some cursor_a_b) namespace = Some r'
       /\ displayed r' = displayed r
       /\ nextCursor r' = Some cursor_a_b
       /\ ~ In (asset_of "a b" ["a b"%string]) (displayed r)
       /\ forall fuel,
            forward fuel repeating_assets [] namespace reset = None.
Proof.
  split; [apply strictly_sortedb_sorted; vm_compute; reflexivity |].
  destruct (paginate repeating_assets [] None namespace) as [r |] eqn:Hr;
    [| vm_compute in Hr; discriminate Hr].
  destruct (paginate repeating_assets [] (Some cursor_a_b) namespace)
    as [r' |] eqn:Hr'; [| vm_compute in Hr'; discriminate Hr'].
  assert (Hn : nextCursor r = Some cursor_a_b).
  { vm_compute in Hr. injection Hr as <-. vm_compute. reflexivity. }
  assert (Hn' : nextCursor r' = Some cursor_a_b).
  { vm_compute in Hr'. injection Hr' as <-. vm_compute. reflexivity. }
  exists r, r'. split; [reflexivity |]. split; [exact Hn |].
  split; [reflexivity |].
  split.
  { vm_compute in Hr, Hr'. injection Hr as <-. injection Hr' as <-.
    reflexivity. }
  split; [exact Hn' |].
  split.
  { vm_compute in Hr. injection Hr as <-. cbn [displayed].
    intros H. repeat (destruct H as [H | H]; [discriminate H |]).
    exact H. }
  assert (Hloop : forall fuel,
            forward fuel repeating_assets [] namespace (Some cursor_a_b)
            = None).
  { induction fuel as [| f IH]; [reflexivity |].
    cbn [forward]. rewrite Hr'. cbn [bind].
    unfold hasNextCursor, advanceCursor. rewrite Hn'.
    replace (truthy cursor_a_b) with true by reflexivity.
    rewrite IH. reflexivity. }
  intros [| f]; [reflexivity |].
  cbn [forward]. unfold reset. rewrite Hr. cbn [bind].
  unfold hasNextCursor, advanceCursor. rewrite Hn.
  replace (truthy cursor_a_b) with true by reflexivity.
  rewrite Hloop. reflexivity.
Qed.

(** * No side effects *)

Section HeapFacts.

Import Heap.

Lemma grown_refl (h : heap) : grown h h.
Proof. exists []. symmetry. apply app_nil_r. Qed.

Lemma grown_trans (h1 h2 h3 : heap) : grown h1 h2 -> grown h2 h3 -> grown h1 h3.
Proof.
  intros (e1 & ->) (e2 & ->). exists (e1 ++ e2). symmetry. apply app_assoc.
Qed.

Lemma grown_snoc (h : heap) (c : cell) : grown h (h ++ [c]).
Proof. exists [c]. reflexivity. Qed.

Lemma grown_nth (h h' : heap) (a : loc) (c : cell) :
  grown h h' -> nth_error h a = Some c -> nth_error h' a = Some c.
Proof.
  intros (e & ->) H. rewrite nth_error_app1; [exact H |].
  apply nth_error_Some. congruence.
Qed.

Lemma nth_snoc (h : heap) (c : cell) : nth_error (h ++ [c]) (length h) = Some c.
Proof. rewrite nth_error_app2, Nat.sub_diag by lia. reflexivity. Qed.

Lemma is_strings_nth (h : heap) (a : loc) :
  is_strings h a = true -> nth_error h a = Some (Strings (strings_in h a)).
Proof.
  unfold is_strings, strings_in.
  destruct (nth_error h a) as [[l | l | l] |]; intros H;
    first [discriminate H | reflexivity].
Qed.

Lemma nth_strings_in (h : heap) (a : loc) (l : list jsstring) :
  nth_error h a = Some (Strings l) -> strings_in h a = l.
Proof. unfold strings_in. intros ->. reflexivity. Qed.

Lemma nth_is_strings (h : heap) (a : loc) (l : list jsstring) :
  nth_error h a = Some (Strings l) -> is_strings h a = true.
Proof. unfold is_strings. intros ->. reflexivity. Qed.

Lemma is_strings_grown (h h' : heap) (a : loc) :
  grown h h' -> is_strings h a = true -> is_strings h' a = true.
Proof.
  intros G H. apply is_strings_nth in H.
  eapply nth_is_strings, grown_nth; eassumption.
Qed.

Lemma strings_in_grown (h h' : heap) (a : loc) :
  grown h h' -> is_strings h a = true -> strings_in h' a = strings_in h a.
Proof.
  intros G H. apply is_strings_nth in H.
  eapply nth_strings_in, grown_nth; eassumption.
Qed.

Lemma asset_in_grown (h h' : heap) (asset : Asset) :
  grown h h' -> is_strings h (path (key asset)) = true ->
  asset_in h' asset = asset_in h asset.
Proof.
  intros G H. unfold asset_in. rewrite (strings_in_grown _ _ _ G H).
  reflexivity.
Qed.

Lemma assets_in_grown (h h' : heap) (l : list Asset) :
  grown h h' ->
  forallb (fun asset => is_strings h (path (key asset))) l = true ->
  map (asset_in h') l = map (asset_in h) l.
Proof.
  intros G H. apply map_ext_in. intros a Ha.
  apply asset_in_grown; [exact G |].
  rewrite forallb_forall in H. apply H, Ha.
Qed.

(** ** Running a call *)

Lemma runs_ret {A : Type} (a : A) (h : heap) (Q : A -> heap -> Prop) :
  Q a h -> runs (ret a) h Q.
Proof. intros H. exists a, h. split; [reflexivity |]. split; [apply grown_refl | exact H]. Qed.

Lemma runs_step {A B : Type} (m : M A) (k : A -> M B) (h h1 : heap) (a : A)
  (Q : B -> heap -> Prop) :
  m h = Some (a, h1) -> grown h h1 -> runs (k a) h1 Q -> runs (bind m k) h Q.
Proof.
  intros E G (b & h' & Ek & Gk & HQ). exists b, h'.
  unfold bind. rewrite E. split; [exact Ek |].
  split; [eapply grown_trans; eassumption | exact HQ].
Qed.

Lemma runs_alloc {B : Type} (c : cell) (k : loc -> M B) (h : heap)
  (Q : B -> heap -> Prop) :
  runs (k (length h)) (h ++ [c]) Q -> runs (bind (alloc c) k) h Q.
Proof. apply runs_step; [reflexivity | apply grown_snoc]. Qed.

Lemma runs_strings {B : Type} (a : loc) (l : list jsstring)
  (k : list jsstring -> M B) (h : heap) (Q : B -> heap -> Prop) :
  nth_error h a = Some (Strings l) -> runs (k l) h Q ->
  runs (bind (strings a) k) h Q.
Proof.
  intros H. apply runs_step; [| apply grown_refl].
  unfold strings. rewrite H. reflexivity.
Qed.

Lemma runs_paths {B : Type} (a : loc) (l : list loc)
  (k : list loc -> M B) (h : heap) (Q : B -> heap -> Prop) :
  nth_error h a = Some (Paths l) -> runs (k l) h Q ->
  runs (bind (paths a) k) h Q.
Proof.
  intros H. apply runs_step; [| apply grown_refl].
  unfold paths. rewrite H. reflexivity.
Qed.

Lemma runs_nodes {B : Type} (a : loc) (l : list Asset)
  (k : list Asset -> M B) (h : heap) (Q : B -> heap -> Prop) :
  nth_error h a = Some (Assets l) -> runs (k l) h Q ->
  runs (bind (nodes a) k) h Q.
Proof.
  intros H. apply runs_step; [| apply grown_refl].
  unfold nodes. rewrite H. reflexivity.
Qed.

Lemma returns_ret {A : Type} (a : A) (h : heap) : returns (ret a) h a.
Proof. intros h' _. exists h'. split; [reflexivity | apply grown_refl]. Qed.

Lemma returns_bind {A B : Type} (m : M A) (k : A -> M B) (h : heap)
  (a : A) (b : B) :
  returns m h a -> returns (k a) h b -> returns (bind m k) h b.
Proof.
  intros Hm Hk h' G. destruct (Hm h' G) as (h1 & E1 & G1).
  destruct (Hk h1 (grown_trans _ _ _ G G1)) as (h2 & E2 & G2).
  exists h2. unfold bind. rewrite E1. split; [exact E2 |].
  eapply grown_trans; eassumption.
Qed.

Lemma returns_strings (a : loc) (l : list jsstring) (h : heap) :
  nth_error h a = Some (Strings l) -> returns (strings a) h l.
Proof.
  intros H h' G. exists h'. unfold strings.
  rewrite (grown_nth _ _ _ _ G H). split; [reflexivity | apply grown_refl].
Qed.

Lemma returns_paths (a : loc) (l : list loc) (h : heap) :
  nth_error h a = Some (Paths l) -> returns (paths a) h l.
Proof.
  intros H h' G. exists h'. unfold paths.
  rewrite (grown_nth _ _ _ _ G H). split; [reflexivity | apply grown_refl].
Qed.

Lemma returns_amap {A B : Type} (f : A -> M B) (g : A -> B) (l : list A)
  (h : heap) :
  (forall x, In x l -> returns (f x) h (g x)) ->
  returns (amap f l) h (map g l).
Proof.
  induction l as [| x l IH]; intros H; cbn [amap map].
  - apply returns_ret.
  - apply returns_bind with (a := g x); [apply H; left; reflexivity |].
    apply returns_bind with (a := map g l);
      [apply IH; intros y Hy; apply H; right; exact Hy |].
    apply returns_ret.
Qed.

Lemma returns_afilter {A : Type} (f : A -> M bool) (g : A -> bool)
  (l : list A) (h : heap) :
  (forall x, In x l -> returns (f x) h (g x)) ->
  returns (afilter f l) h (filter g l).
Proof.
  induction l as [| x l IH]; intros H; cbn [afilter filter].
  - apply returns_ret.
  - apply returns_bind with (a := g x); [apply H; left; reflexivity |].
    apply returns_bind with (a := filter g l);
      [apply IH; intros y Hy; apply H; right; exact Hy |].
    destruct (g x); apply returns_ret.
Qed.

Lemma returns_afindIndex {A : Type} (f : A -> M bool) (g : A -> bool)
  (l : list A) (h : heap) :
  (forall x, In x l -> returns (f x) h (g x)) ->
  returns (afindIndex f l) h (findIndex g l).
Proof.
  unfold afindIndex, findIndex. generalize 0%Z.
  induction l as [| x l IH]; intros i H; cbn [afindIndex_from findIndex_from].
  - apply returns_ret.
  - apply returns_bind with (a := g x); [apply H; left; reflexivity |].
    destruct (g x); [apply returns_ret |].
    apply IH. intros y Hy. apply H. right. exact Hy.
Qed.

Lemma returns_asome {A : Type} (f : A -> M bool) (g : A -> bool)
  (l : list A) (h : heap) :
  (forall x, In x l -> returns (f x) h (g x)) ->
  returns (asome f l) h (existsb g l).
Proof.
  induction l as [| x l IH]; intros H; cbn [asome existsb].
  - apply returns_ret.
  - apply returns_bind with (a := g x); [apply H; left; reflexivity |].
    destruct (g x); [apply returns_ret |].
    apply IH. intros y Hy. apply H. right. exact Hy.
Qed.

Lemma returns_aevery {A : Type} (f : A -> Z -> M bool) (g : A -> Z -> bool)
  (l : list A) (h : heap) :
  (forall x i, In x l -> returns (f x i) h (g x i)) ->
  returns (aevery f l) h (every g l).
Proof.
  unfold aevery, every. generalize 0%Z.
  induction l as [| x l IH]; intros i H; cbn [aevery_from every_from].
  - apply returns_ret.
  - apply returns_bind with (a := g x i); [apply H; left; reflexivity |].
    destruct (g x i); [| apply returns_ret].
    apply IH. intros y j Hy. apply H. right. exact Hy.
Qed.

(** [cursorValue] allocates the spread array and returns its JSON text. *)
Lemma cursorValue_eq (p x : loc) (P X : list jsstring) (h : heap) :
  nth_error h p = Some (Strings P) -> nth_error h x = Some (Strings X) ->
  cursorValue p x h
  = Some (JSON.stringify (P ++ X), h ++ [Strings (P ++ X)]).
Proof.
  intros Hp Hx. unfold cursorValue, spread, stringify, bind, strings, alloc, ret.
  rewrite Hp, Hx, nth_snoc. reflexivity.
Qed.

Lemma returns_cursorValue (p x : loc) (P X : list jsstring) (h : heap) :
  nth_error h p = Some (Strings P) -> nth_error h x = Some (Strings X) ->
  returns (cursorValue p x) h (JSON.stringify (P ++ X)).
Proof.
  intros Hp Hx h' G. eexists. split; [| apply grown_snoc].
  apply cursorValue_eq; eapply grown_nth; eassumption.
Qed.

End HeapFacts.

(** ** Arrays of references *)

Lemma holds_grown (h h' : Heap.heap) (refs : list Heap.loc)
  (xs : list (list jsstring)) :
  grown h h' -> holds h refs xs -> holds h' refs xs.
Proof.
  intros G H. induction H as [| r x refs xs Hr _ IH]; constructor.
  - eapply grown_nth; eassumption.
  - exact IH.
Qed.

Lemma holds_strings_in (h : Heap.heap) (refs : list Heap.loc)
  (xs : list (list jsstring)) :
  holds h refs xs -> map (strings_in h) refs = xs.
Proof.
  intros H. induction H as [| r x refs xs Hr _ IH]; [reflexivity |].
  cbn [map]. rewrite IH, (nth_strings_in _ _ _ Hr). reflexivity.
Qed.

Lemma holds_In (h : Heap.heap) (refs : list Heap.loc)
  (xs : list (list jsstring)) (r : Heap.loc) :
  holds h refs xs -> In r refs ->
  nth_error h r = Some (Heap.Strings (strings_in h r)).
Proof.
  intros H. induction H as [| r' x refs xs Hr _ IH]; intros Hin; [destruct Hin |].
  destruct Hin as [<- | Hin]; [| apply IH, Hin].
  rewrite (nth_strings_in _ _ _ Hr). exact Hr.
Qed.

Lemma holds_alloc (h : Heap.heap) (xs : list (list jsstring)) :
  holds (h ++ map Heap.Strings xs) (seq (length h) (length xs)) xs.
Proof.
  revert h. induction xs as [| x xs IH]; intros h; [constructor |].
  cbn [map length seq]. constructor.
  - rewrite nth_error_app2, Nat.sub_diag by lia. reflexivity.
  - specialize (IH (h ++ [Heap.Strings x])).
    rewrite <- app_assoc, length_app in IH. cbn [app length] in IH.
    rewrite Nat.add_1_r in IH. exact IH.
Qed.

(** A [map] whose callback allocates one array of strings for each
    element. *)
Lemma amap_alloc {A : Type} (f : A -> Heap.M Heap.loc)
  (g : A -> list jsstring) (l : list A) (h0 : Heap.heap) :
  (forall x h', In x l -> grown h0 h' ->
                f x h' = Some (length h', h' ++ [Heap.Strings (g x)])) ->
  forall h, grown h0 h ->
    Heap.amap f l h
    = Some (seq (length h) (length l), h ++ map Heap.Strings (map g l)).
Proof.
  induction l as [| x l IH]; intros Hf h G; cbn [Heap.amap map length seq].
  - unfold Heap.ret. rewrite app_nil_r. reflexivity.
  - unfold Heap.bind at 1. rewrite (Hf x h (or_introl eq_refl) G).
    unfold Heap.bind at 1.
    rewrite (IH (fun y h' Hy => Hf y h' (or_intror Hy)) (h ++ [_])
               (grown_trans _ _ _ G (grown_snoc _ _))).
    unfold Heap.ret. rewrite length_app, <- app_assoc. cbn [length app].
    rewrite Nat.add_1_r. reflexivity.
Qed.

Lemma amap_read (h : Heap.heap) (refs : list Heap.loc)
  (xs : list (list jsstring)) :
  holds h refs xs ->
  Heap.amap (fun r => Heap.bind (Heap.strings r) (fun x => Heap.ret (r, x)))
            refs h
  = Some (combine refs xs, h).
Proof.
  intros H. induction H as [| r x refs xs Hr _ IH]; [reflexivity |].
  cbn [Heap.amap combine]. unfold Heap.bind at 1. unfold Heap.bind at 1.
  unfold Heap.strings at 1. rewrite Hr. unfold Heap.ret at 1.
  unfold Heap.bind at 1. rewrite IH. reflexivity.
Qed.

Lemma write_last (h : Heap.heap) (c0 c : Heap.cell) :
  Heap.write (length h) c (h ++ [c0]) = Some (tt, h ++ [c]).
Proof.
  unfold Heap.write. rewrite length_app. cbn [length].
  destruct (Nat.ltb_spec (length h) (length h + 1)); [| lia].
  rewrite firstn_app, firstn_all, Nat.sub_diag. cbn [firstn].
  rewrite app_nil_r, skipn_all2 by (rewrite length_app; cbn [length]; lia).
  reflexivity.
Qed.

(** The sort of the references is the sort of the arrays. *)
Lemma sort_insert_snd (x : Heap.loc * list jsstring)
  (l : list (Heap.loc * list jsstring)) :
  map snd (Heap.sort_insert x l) = sort_insert (snd x) (map snd l).
Proof.
  induction l as [| y l IH]; [reflexivity |].
  cbn [Heap.sort_insert sort_insert map].
  destruct (str_ltb (Array_toString (snd y)) (Array_toString (snd x)));
    cbn [map]; [rewrite IH |]; reflexivity.
Qed.

Lemma sort_snd (l : list (Heap.loc * list jsstring)) :
  map snd (fold_right Heap.sort_insert [] l) = sort (map snd l).
Proof.
  unfold sort. induction l as [| x l IH]; [reflexivity |].
  cbn [fold_right map]. rewrite sort_insert_snd, IH. reflexivity.
Qed.

Lemma sort_insert_Forall (Q : Heap.loc * list jsstring -> Prop)
  (x : Heap.loc * list jsstring) (l : list (Heap.loc * list jsstring)) :
  Q x -> Forall Q l -> Forall Q (Heap.sort_insert x l).
Proof.
  intros Hx Hl. induction Hl as [| y l Hy Hl IH]; cbn [Heap.sort_insert].
  - constructor; [exact Hx | constructor].
  - destruct (str_ltb _ _); constructor; try assumption.
    constructor; assumption.
Qed.

Lemma sort_Forall (Q : Heap.loc * list jsstring -> Prop)
  (l : list (Heap.loc * list jsstring)) :
  Forall Q l -> Forall Q (fold_right Heap.sort_insert [] l).
Proof.
  induction 1 as [| x l Hx Hl IH]; cbn [fold_right]; [constructor |].
  apply sort_insert_Forall; assumption.
Qed.

Lemma holds_pairs (h : Heap.heap) (l : list (Heap.loc * list jsstring)) :
  Forall (fun p => nth_error h (fst p) = Some (Heap.Strings (snd p))) l ->
  holds h (map fst l) (map snd l).
Proof.
  induction 1 as [| x l Hx Hl IH]; cbn [map]; constructor; assumption.
Qed.

Lemma pairs_holds (h : Heap.heap) (refs : list Heap.loc)
  (xs : list (list jsstring)) :
  holds h refs xs ->
  Forall (fun p => nth_error h (fst p) = Some (Heap.Strings (snd p)))
         (combine refs xs)
  /\ map snd (combine refs xs) = xs.
Proof.
  induction 1 as [| r x refs xs Hr _ [IH1 IH2]]; cbn [combine map].
  - split; [constructor | reflexivity].
  - split; [constructor; assumption | rewrite IH2; reflexivity].
Qed.

(** [sort] writes to its receiver only. *)
Lemma sort_eq (h : Heap.heap) (refs : list Heap.loc)
  (xs : list (list jsstring)) :
  holds h refs xs ->
  exists sorted,
    Heap.sort (length h) (h ++ [Heap.Paths refs])
    = Some (length h, h ++ [Heap.Paths sorted])
    /\ holds h sorted (sort xs).
Proof.
  intros H.
  exists (map fst (fold_right Heap.sort_insert [] (combine refs xs))).
  split.
  - unfold Heap.sort. unfold Heap.bind at 1, Heap.paths.
    rewrite nth_snoc. unfold Heap.bind at 1.
    rewrite (amap_read _ _ _ (holds_grown _ _ _ _ (grown_snoc _ _) H)).
    unfold Heap.bind. rewrite write_last. reflexivity.
  - destruct (pairs_holds _ _ _ H) as [HF E].
    rewrite <- E at 2. rewrite <- sort_snd.
    apply holds_pairs, sort_Forall, HF.
Qed.

Lemma holds_firstn (h : Heap.heap) (n : nat) (refs : list Heap.loc)
  (xs : list (list jsstring)) :
  holds h refs xs -> holds h (firstn n refs) (firstn n xs).
Proof.
  intros H. revert n.
  induction H as [| r x refs xs Hr _ IH]; intros [| n]; cbn [firstn];
    constructor; [exact Hr | apply IH].
Qed.

Lemma holds_skipn (h : Heap.heap) (n : nat) (refs : list Heap.loc)
  (xs : list (list jsstring)) :
  holds h refs xs -> holds h (skipn n refs) (skipn n xs).
Proof.
  intros H. revert n.
  induction H as [| r x refs xs Hr Hrest IH]; intros [| n]; cbn [skipn];
    [constructor | constructor | constructor; assumption | apply IH].
Qed.

Lemma holds_slice (h : Heap.heap) (s e : Z) (refs : list Heap.loc)
  (xs : list (list jsstring)) :
  holds h refs xs -> holds h (slice refs s e) (slice xs s e).
Proof.
  intros H.
  assert (L : length refs = length xs) by exact (Forall2_length H).
  unfold slice. rewrite L. apply holds_firstn, holds_skipn, H.
Qed.

Lemma runs_bind {A B : Type} (m : Heap.M A) (k : A -> Heap.M B)
  (h : Heap.heap) (Q : A -> Heap.heap -> Prop) (R : B -> Heap.heap -> Prop) :
  runs m h Q ->
  (forall a h', grown h h' -> Q a h' -> runs (k a) h' R) ->
  runs (Heap.bind m k) h R.
Proof.
  intros (a & h1 & E & G & HQ) Hk.
  eapply runs_step; [exact E | exact G | apply Hk; assumption].
Qed.

Lemma runs_returns {A B : Type} (m : Heap.M A) (k : A -> Heap.M B)
  (h0 h : Heap.heap) (a : A) (Q : B -> Heap.heap -> Prop) :
  returns m h0 a -> grown h0 h ->
  (forall h', grown h h' -> runs (k a) h' Q) ->
  runs (Heap.bind m k) h Q.
Proof.
  intros Hm G Hk. destruct (Hm h G) as (h1 & E & G1).
  eapply runs_step; [exact E | exact G1 | apply Hk, G1].
Qed.

Lemma runs_alloc_last (c : Heap.cell) (h : Heap.heap)
  (Q : Heap.loc -> Heap.heap -> Prop) :
  Q (length h) (h ++ [c]) -> runs (Heap.alloc c) h Q.
Proof.
  intros H. exists (length h), (h ++ [c]).
  split; [reflexivity |]. split; [apply grown_snoc | exact H].
Qed.

Lemma mapM_parse_Some (l : list jsstring) (xs : list (list jsstring)) :
  mapM JSON.parse l = Some xs ->
  Forall2 (fun text x => JSON.parse text = Some x) l xs.
Proof.
  revert xs. induction l as [| text l IH]; intros xs; cbn [mapM].
  - intros [= <-]. constructor.
  - destruct (JSON.parse text) as [x |] eqn:E; cbn [bind]; [| discriminate].
    destruct (mapM JSON.parse l) as [ys |]; cbn [bind]; [| discriminate].
    intros [= <-]. constructor; [exact E | apply IH; reflexivity].
Qed.

(** [map((x) => JSON.parse(x))] allocates the parsed arrays one after the
    other. *)
Lemma amap_parse (l : list jsstring) (xs : list (list jsstring))
  (h : Heap.heap) :
  Forall2 (fun text x => JSON.parse text = Some x) l xs ->
  Heap.amap Heap.parse l h
  = Some (seq (length h) (length xs), h ++ map Heap.Strings xs).
Proof.
  intros H. revert h.
  induction H as [| text x l xs E _ IH]; intros h; cbn [Heap.amap map length seq].
  - unfold Heap.ret. rewrite app_nil_r. reflexivity.
  - unfold Heap.bind at 1. unfold Heap.parse at 1. rewrite E.
    unfold Heap.alloc. unfold Heap.bind at 1. rewrite IH.
    unfold Heap.ret. rewrite length_app, <- app_assoc. cbn [length app].
    rewrite Nat.add_1_r. reflexivity.
Qed.

(** ** The arrays of the pure functions *)

Lemma get_map {A B : Type} (f : A -> B) (l : list A) (i : Z) :
  get (map f l) i = option_map f (get l i).
Proof.
  unfold get. destruct (i <? 0)%Z; [reflexivity |]. apply nth_error_map.
Qed.

Lemma slice_map {A B : Type} (f : A -> B) (l : list A) (s e : Z) :
  slice (map f l) s e = map f (slice l s e).
Proof.
  unfold slice. rewrite length_map, skipn_map, firstn_map. reflexivity.
Qed.

Lemma findIndex_map {A B : Type} (f : A -> B) (g : B -> bool) (l : list A) :
  findIndex g (map f l) = findIndex (fun x => g (f x)) l.
Proof.
  unfold findIndex. generalize 0%Z.
  induction l as [| x l IH]; intros i; cbn [map findIndex_from];
    [reflexivity |].
  destruct (g (f x)); [reflexivity | apply IH].
Qed.

(** ** The flat mode in the heap *)

Section PaginateHeap.

Variable h : Heap.heap.
Variables assets prefixPath : Heap.loc.
Variable cursor : option jsstring.
Variable A : list Heap.Asset.
Variable P : list jsstring.

Hypothesis Hassets : nth_error h assets = Some (Heap.Assets A).
Hypothesis Hprefix : nth_error h prefixPath = Some (Heap.Strings P).
Hypothesis Hpaths :
  forallb (fun asset => is_strings h (Heap.path (Heap.key asset))) A = true.

Lemma path_in_heap (asset : Heap.Asset) :
  In asset A ->
  nth_error h (Heap.path (Heap.key asset))
  = Some (Heap.Strings (path (key (asset_in h asset)))).
Proof.
  intros Hin. rewrite forallb_forall in Hpaths.
  apply is_strings_nth, Hpaths, Hin.
Qed.

(** An array of assets of the argument, allocated by the call, holds them
    for good. *)
Lemma assets_in_page (h1 h2 : Heap.heap) (page : Heap.loc)
  (l : list Heap.Asset) :
  grown h h1 -> grown h1 h2 ->
  nth_error h1 page = Some (Heap.Assets l) ->
  (forall a, In a l -> In a A) ->
  assets_in h2 page = map (asset_in h) l.
Proof.
  intros G1 G2 Hpage Hl. unfold assets_in.
  rewrite (grown_nth _ _ _ _ G2 Hpage).
  apply map_ext_in. intros a Ha. apply asset_in_grown.
  - eapply grown_trans; eassumption.
  - rewrite forallb_forall in Hpaths. apply Hpaths, Hl, Ha.
Qed.

Lemma flat_cursorIndex_heap (h1 : Heap.heap) :
  grown h h1 ->
  exists h2,
    match cursor_truthy cursor with
    | Some c =>
        Heap.bind (Heap.nodes assets)
          (fun l =>
             Heap.afindIndex
               (fun ns =>
                  Heap.bind
                    (Heap.cursorValue prefixPath (Heap.path (Heap.key ns)))
                    (fun v => Heap.ret (str_leb c v)))
               l)
    | None => Heap.ret 0%Z
    end h1
    = Some (flat_cursorIndex (map (asset_in h) A) P cursor, h2)
    /\ grown h1 h2.
Proof.
  intros G. unfold flat_cursorIndex.
  destruct (cursor_truthy cursor) as [c |].
  - rewrite findIndex_map.
    assert (R : returns
                  (Heap.afindIndex
                     (fun ns =>
                        Heap.bind
                          (Heap.cursorValue prefixPath
                             (Heap.path (Heap.key ns)))
                          (fun v => Heap.ret (str_leb c v)))
                     A)
                  h
                  (findIndex
                     (fun x => str_leb c (flat_cursorValue P (asset_in h x)))
                     A)).
    { apply returns_afindIndex. intros x Hx.
      eapply returns_bind; [| apply returns_ret].
      apply returns_cursorValue; [exact Hprefix | apply path_in_heap, Hx]. }
    destruct (R h1 G) as (h2 & E & G2). exists h2. split; [| exact G2].
    unfold Heap.bind at 1, Heap.nodes.
    rewrite (grown_nth _ _ _ _ G Hassets). exact E.
  - exists h1. split; [reflexivity | apply grown_refl].
Qed.

Lemma flat_cursorValue_at_heap (h1 : Heap.heap) (i : Z) (c : jsstring) :
  grown h h1 ->
  flat_cursorValue_at (map (asset_in h) A) P i = Some c ->
  exists h2,
    Heap.flat_cursorValue_at assets prefixPath i h1 = Some (c, h2)
    /\ grown h1 h2.
Proof.
  intros G. unfold flat_cursorValue_at, Heap.flat_cursorValue_at.
  rewrite get_map. unfold Heap.bind, Heap.nodes.
  rewrite (grown_nth _ _ _ _ G Hassets).
  destruct (get A i) as [a |] eqn:Ha; cbn [option_map bind]; [| discriminate].
  intros [= <-]. eexists. split; [| apply grown_snoc].
  apply cursorValue_eq; eapply grown_nth; try exact G;
    [exact Hprefix | apply path_in_heap; eapply get_In; exact Ha].
Qed.

Lemma flat_cursor_heap (h1 : Heap.heap) (b : bool) (i : Z)
  (v : option jsstring) :
  grown h h1 ->
  (if b
   then c <- flat_cursorValue_at (map (asset_in h) A) P i ;; Some (Some c)
   else Some None) = Some v ->
  exists h2,
    (if b
     then Heap.bind (Heap.flat_cursorValue_at assets prefixPath i)
            (fun c => Heap.ret (Some c))
     else Heap.ret None) h1 = Some (v, h2)
    /\ grown h1 h2.
Proof.
  intros G. destruct b.
  - destruct (flat_cursorValue_at (map (asset_in h) A) P i) as [c |] eqn:E;
      cbn [bind]; [| discriminate].
    intros [= <-].
    destruct (flat_cursorValue_at_heap h1 i c G E) as (h2 & E2 & G2).
    exists h2. split; [| exact G2]. unfold Heap.bind. rewrite E2. reflexivity.
  - intros [= <-]. exists h1. split; [reflexivity | apply grown_refl].
Qed.

Lemma buildFlatProps_heap (p : Props) :
  buildFlatProps (map (asset_in h) A) P cursor = Some p ->
  runs (Heap.buildFlatProps assets prefixPath cursor) h
    (fun r h' =>
       represents h' r p
       /\ Heap.displayPathForAsset r = Heap.PathOfKey
       /\ displayPathForAsset p = (fun asset => path (key asset))).
Proof.
  unfold buildFlatProps, Heap.buildFlatProps.
  set (i := flat_cursorIndex (map (asset_in h) A) P cursor).
  rewrite length_map.
  destruct (flat_cursorIndex_heap h (grown_refl h)) as (h1 & E1 & G1).
  fold i in E1. intros Hp.
  eapply runs_step; [exact E1 | exact G1 |].
  apply runs_nodes with (l := A); [eapply grown_nth; eassumption |].
  apply runs_alloc.
  set (h2 := h1 ++ [Heap.Assets (slice A i (i + PAGE_SIZE))]).
  assert (G2 : grown h h2).
  { eapply grown_trans; [exact G1 | apply grown_snoc]. }
  assert (Hpage : nth_error h2 (length h1)
                  = Some (Heap.Assets (slice A i (i + PAGE_SIZE)))).
  { apply nth_snoc. }
  destruct (if (i >? 0)%Z then _ else _) as [prev |] eqn:Eprev in Hp;
    cbn [bind] in Hp; [| discriminate Hp].
  destruct (if (i + PAGE_SIZE <? _)%Z then _ else _) as [next |] eqn:Enext in Hp;
    cbn [bind] in Hp; [| discriminate Hp].
  injection Hp as <-.
  destruct (flat_cursor_heap h2 _ _ _ G2 Eprev) as (h3 & E3 & G3).
  eapply runs_step; [exact E3 | exact G3 |].
  assert (G03 : grown h h3) by (eapply grown_trans; eassumption).
  apply runs_nodes with (l := A); [eapply grown_nth; eassumption |].
  destruct (flat_cursor_heap h3 _ _ _ G03 Enext) as (h4 & E4 & G4).
  eapply runs_step; [exact E4 | exact G4 |].
  apply runs_ret. unfold represents.
  cbn [Heap.displayed Heap.prevCursor Heap.nextCursor
       Heap.displayPathForAsset displayed prevCursor nextCursor
       displayPathForAsset].
  split; [| repeat split]. split; [| repeat split].
  intros h5 G5. rewrite slice_map.
  apply (assets_in_page h2); [exact G2 | | exact Hpage | intros a; apply In_slice].
  eapply grown_trans; [exact G3 |]. eapply grown_trans; eassumption.
Qed.

Lemma namespaceForAsset_eq (asset : Heap.Asset) (X : list jsstring)
  (h1 : Heap.heap) :
  grown h h1 ->
  nth_error h (Heap.path (Heap.key asset)) = Some (Heap.Strings X) ->
  Heap.namespaceForAsset prefixPath asset h1
  = Some (length h1,
          h1 ++ [Heap.Strings
                   (slice X (Z.of_nat (length P)) (Z.of_nat (length P) + 1))]).
Proof.
  intros G HX. unfold Heap.namespaceForAsset, Heap.bind, Heap.strings.
  rewrite (grown_nth _ _ _ _ G Hprefix), (grown_nth _ _ _ _ G HX).
  reflexivity.
Qed.

Lemma returns_namespace_text (asset : Heap.Asset) :
  In asset A ->
  returns
    (Heap.bind (Heap.namespaceForAsset prefixPath asset)
       (fun ns => Heap.stringify ns))
    h (JSON.stringify (namespaceForAsset P (asset_in h asset))).
Proof.
  intros Hin h1 G. eexists. split; [| apply grown_snoc].
  unfold Heap.bind at 1.
  rewrite (namespaceForAsset_eq asset _ h1 G (path_in_heap asset Hin)).
  unfold Heap.stringify, Heap.bind, Heap.strings. rewrite nth_snoc.
  reflexivity.
Qed.

(** [namespaces] returns a new array that refers to new arrays, the
    namespaces of the pure function in their order. *)
Lemma namespaces_heap (h1 : Heap.heap) (nss : list (list jsstring)) :
  grown h h1 ->
  namespaces (map (asset_in h) A) P = Some nss ->
  runs (Heap.namespaces assets prefixPath) h1
    (fun table h' =>
       exists sorted,
         nth_error h' table = Some (Heap.Paths sorted)
         /\ holds h' sorted nss).
Proof.
  intros G. unfold namespaces, Heap.namespaces. rewrite map_map.
  destruct (mapM JSON.parse _) as [parsed |] eqn:Epar; cbn [bind];
    [| discriminate].
  intros [= <-].
  apply runs_nodes with (l := A); [eapply grown_nth; eassumption |].
  eapply runs_returns;
    [apply returns_amap, returns_namespace_text | exact G |].
  intros h2 G2.
  apply runs_alloc. apply runs_strings with (1 := nth_snoc _ _).
  apply runs_alloc. apply runs_strings with (1 := nth_snoc _ _).
  apply mapM_parse_Some in Epar.
  eapply runs_step; [apply amap_parse, Epar | eexists; reflexivity |].
  set (h3 := _ ++ map Heap.Strings parsed).
  destruct (sort_eq h3 _ _ (holds_alloc _ parsed)) as (sorted & Es & Hs).
  exists (length h3), (h3 ++ [Heap.Paths sorted]).
  split; [| split; [apply grown_snoc |]].
  - unfold Heap.bind, Heap.alloc. exact Es.
  - exists sorted. split; [apply nth_snoc |].
    eapply holds_grown; [apply grown_snoc | exact Hs].
Qed.


Lemma spread_eq (x : Heap.loc) (X : list jsstring) (h1 : Heap.heap) :
  grown h h1 -> nth_error h1 x = Some (Heap.Strings X) ->
  Heap.spread prefixPath x h1
  = Some (length h1, h1 ++ [Heap.Strings (P ++ X)]).
Proof.
  intros G HX. unfold Heap.spread, Heap.bind, Heap.strings.
  rewrite (grown_nth _ _ _ _ G Hprefix), HX. reflexivity.
Qed.

Section Table.

(** The sorted array of the namespaces, once [namespaces] has returned. *)
Variable h1 : Heap.heap.
Variable table : Heap.loc.
Variable sorted : list Heap.loc.
Variable nss : list (list jsstring).

Hypothesis G1 : grown h h1.
Hypothesis Htable : nth_error h1 table = Some (Heap.Paths sorted).
Hypothesis Hsorted : holds h1 sorted nss.

Lemma returns_ns_cursorValue (ns : Heap.loc) :
  In ns sorted ->
  returns (Heap.cursorValue prefixPath ns) h1
          (ns_cursorValue P (strings_in h1 ns)).
Proof.
  intros Hin. apply returns_cursorValue.
  - eapply grown_nth; eassumption.
  - eapply holds_In; eassumption.
Qed.

Lemma ns_cursorIndex_heap (h2 : Heap.heap) :
  grown h1 h2 ->
  exists h3,
    match cursor_truthy cursor with
    | Some c =>
        Heap.bind (Heap.paths table)
          (fun l =>
             Heap.afindIndex
               (fun ns =>
                  Heap.bind (Heap.cursorValue prefixPath ns)
                    (fun v => Heap.ret (str_leb c v)))
               l)
    | None => Heap.ret 0%Z
    end h2
    = Some (ns_cursorIndex P cursor nss, h3)
    /\ grown h2 h3.
Proof.
  intros G. unfold ns_cursorIndex.
  destruct (cursor_truthy cursor) as [c |].
  - rewrite <- (holds_strings_in _ _ _ Hsorted), findIndex_map.
    assert (R : returns
                  (Heap.afindIndex
                     (fun ns =>
                        Heap.bind (Heap.cursorValue prefixPath ns)
                          (fun v => Heap.ret (str_leb c v)))
                     sorted)
                  h1
                  (findIndex
                     (fun x => str_leb c (ns_cursorValue P (strings_in h1 x)))
                     sorted)).
    { apply returns_afindIndex. intros x Hx.
      eapply returns_bind; [| apply returns_ret].
      apply returns_ns_cursorValue, Hx. }
    destruct (R h2 G) as (h3 & E & G3). exists h3. split; [| exact G3].
    unfold Heap.bind at 1, Heap.paths.
    rewrite (grown_nth _ _ _ _ G Htable). exact E.
  - exists h2. split; [reflexivity | apply grown_refl].
Qed.

Lemma ns_cursor_heap (h2 : Heap.heap) (b : bool) (i : Z)
  (v : option jsstring) :
  grown h1 h2 ->
  (if b
   then c <- ns_cursorValue_at P nss i ;; Some (Some c)
   else Some None) = Some v ->
  exists h3,
    (if b
     then Heap.bind (Heap.ns_cursorValue_at prefixPath table i)
            (fun c => Heap.ret (Some c))
     else Heap.ret None) h2 = Some (v, h3)
    /\ grown h2 h3.
Proof.
  intros G. destruct b.
  - unfold ns_cursorValue_at, Heap.ns_cursorValue_at.
    rewrite <- (holds_strings_in _ _ _ Hsorted), get_map.
    destruct (get sorted i) as [ns |] eqn:Ens; cbn [option_map bind];
      [| discriminate].
    intros [= <-].
    destruct (returns_ns_cursorValue ns (get_In _ _ _ Ens) h2 G)
      as (h3 & E3 & G3).
    exists h3. split; [| exact G3].
    unfold Heap.bind at 1. unfold Heap.bind at 1. unfold Heap.paths.
    rewrite (grown_nth _ _ _ _ G Htable), Ens, E3. reflexivity.
  - intros [= <-]. exists h2. split; [reflexivity | apply grown_refl].
Qed.

End Table.

Lemma existsb_map {X Y : Type} (f : X -> Y) (q : Y -> bool) (l : list X) :
  existsb q (map f l) = existsb (fun x => q (f x)) l.
Proof.
  induction l as [| x l IH]; [reflexivity |].
  cbn [map existsb]. rewrite IH. reflexivity.
Qed.

Lemma filter_map {X Y : Type} (f : X -> Y) (q : Y -> bool) (l : list X) :
  filter q (map f l) = map f (filter (fun x => q (f x)) l).
Proof.
  induction l as [| x l IH]; [reflexivity |].
  cbn [map filter]. rewrite IH. destruct (q (f x)); reflexivity.
Qed.

(** [filterAssetsByNamespace] allocates its result and reads the rest. *)
Lemma filterAssetsByNamespace_heap (h1 : Heap.heap) (paths_ : Heap.loc)
  (refs : list Heap.loc) (pp : list (list jsstring)) :
  grown h h1 ->
  nth_error h1 paths_ = Some (Heap.Paths refs) ->
  holds h1 refs pp ->
  runs (Heap.filterAssetsByNamespace assets paths_) h1
    (fun page h' =>
       forall h'', grown h' h'' ->
         assets_in h'' page
         = filterAssetsByNamespace (map (asset_in h) A) pp).
Proof.
  intros G Ht Hrefs. unfold Heap.filterAssetsByNamespace.
  apply runs_nodes with (l := A); [eapply grown_nth; eassumption |].
  set (keep := fun asset : Heap.Asset =>
                 existsb
                   (fun p =>
                      every
                        (fun part i =>
                           same_part (path (key (asset_in h asset))) part i)
                        (strings_in h1 p))
                   refs).
  eapply runs_returns with (h0 := h1) (a := filter keep A);
    [| apply grown_refl |].
  { apply returns_afilter. intros asset Hin.
    eapply returns_bind; [apply returns_paths, Ht |].
    apply returns_asome. intros p Hp.
    eapply returns_bind;
      [apply returns_strings; eapply holds_In; eassumption |].
    apply returns_aevery. intros part i _.
    eapply returns_bind; [| apply returns_ret].
    apply returns_strings. eapply grown_nth; [exact G |].
    apply path_in_heap, Hin. }
  intros h2 G2. apply runs_alloc_last. intros h3 G3.
  unfold filterAssetsByNamespace. rewrite filter_map.
  rewrite <- (holds_strings_in _ _ _ Hrefs).
  transitivity (map (asset_in h) (filter keep A)).
  - apply (assets_in_page (h2 ++ [Heap.Assets (filter keep A)]));
      [| exact G3 | apply nth_snoc | intros a Ha; apply filter_In in Ha; tauto].
    eapply grown_trans; [exact G |].
    eapply grown_trans; [exact G2 | apply grown_snoc].
  - f_equal. apply filter_ext. intros a. symmetry. apply existsb_map.
Qed.


Lemma buildNamespaceProps_heap (p : Props) :
  buildNamespaceProps (map (asset_in h) A) P cursor = Some p ->
  runs (Heap.buildNamespaceProps assets prefixPath cursor) h
    (fun r h' =>
       represents h' r p
       /\ Heap.displayPathForAsset r = Heap.NamespaceForAsset prefixPath
       /\ displayPathForAsset p = namespaceForAsset P).
Proof.
  unfold buildNamespaceProps, Heap.buildNamespaceProps.
  destruct (namespaces (map (asset_in h) A) P) as [nss |] eqn:En;
    cbn [bind]; [| discriminate].
  intros Hp.
  eapply runs_bind; [apply (namespaces_heap h nss (grown_refl h) En) |].
  intros table h1 G1 (sorted & Ht & Hs).
  destruct (ns_cursorIndex_heap h1 table sorted nss G1 Ht Hs h1 (grown_refl h1))
    as (h2 & E2 & G2).
  eapply runs_step; [exact E2 | exact G2 |].
  set (i := ns_cursorIndex P cursor nss) in *.
  destruct (i =? -1)%Z.
  - injection Hp as <-. apply runs_alloc. apply runs_ret. unfold represents.
    cbn [Heap.displayed Heap.prevCursor Heap.nextCursor
         Heap.displayPathForAsset displayed prevCursor nextCursor
         displayPathForAsset].
    split; [| repeat split]. split; [| repeat split].
    intros h3 G3. unfold assets_in.
    rewrite (grown_nth _ _ _ _ G3 (nth_snoc _ _)). reflexivity.
  - destruct (if negb (i =? 0)%Z then _ else _) as [prev |] eqn:Eprev in Hp;
      cbn [bind] in Hp; [| discriminate Hp].
    destruct (if (_ >? i + PAGE_SIZE)%Z then _ else _) as [next |] eqn:Enext in Hp;
      cbn [bind] in Hp; [| discriminate Hp].
    injection Hp as <-.
    apply runs_paths with (l := sorted); [eapply grown_nth; eassumption |].
    apply runs_alloc.
    set (h3 := h2 ++ [Heap.Paths (slice sorted i (i + PAGE_SIZE))]).
    assert (G13 : grown h1 h3).
    { eapply grown_trans; [exact G2 | apply grown_snoc]. }
    destruct (ns_cursor_heap h1 table sorted nss G1 Ht Hs h3 _ _ _ G13 Eprev)
      as (h4 & E4 & G4).
    eapply runs_step; [exact E4 | exact G4 |].
    assert (G14 : grown h1 h4) by (eapply grown_trans; eassumption).
    apply runs_paths with (l := sorted); [eapply grown_nth; eassumption |].
    rewrite <- (holds_strings_in _ _ _ Hs), length_map in Enext.
    rewrite (holds_strings_in _ _ _ Hs) in Enext.
    destruct (ns_cursor_heap h1 table sorted nss G1 Ht Hs h4 _ _ _ G14 Enext)
      as (h5 & E5 & G5).
    eapply runs_step; [exact E5 | exact G5 |].
    assert (G15 : grown h1 h5) by (eapply grown_trans; eassumption).
    assert (G35 : grown h3 h5) by (eapply grown_trans; eassumption).
    apply runs_paths with (l := slice sorted i (i + PAGE_SIZE));
      [eapply grown_nth; [exact G35 | apply nth_snoc] |].
    assert (G05 : grown h h5) by (eapply grown_trans; eassumption).
    assert (Hwin : holds h5 (slice sorted i (i + PAGE_SIZE))
                     (slice nss i (i + PAGE_SIZE))).
    { apply holds_slice. exact (holds_grown _ _ _ _ G15 Hs). }
    eapply runs_step.
    { apply (amap_alloc (fun ns => Heap.spread prefixPath ns)
               (fun ns => P ++ strings_in h5 ns) _ h5);
        [| apply grown_refl].
      intros x h' Hx G'. apply spread_eq.
      - eapply grown_trans; eassumption.
      - eapply grown_nth; [exact G' |]. eapply holds_In; eassumption. }
    { eexists. reflexivity. }
    set (h6 := h5 ++ _).
    apply runs_alloc.
    eapply runs_bind.
    { eapply (filterAssetsByNamespace_heap _ _ _
                (map (fun ns => P ++ ns) (slice nss i (i + PAGE_SIZE)))).
      - eapply grown_trans; [exact G05 |].
        eapply grown_trans; [| apply grown_snoc]. eexists. reflexivity.
      - apply nth_snoc.
      - eapply holds_grown; [apply grown_snoc |].
        rewrite <- (holds_strings_in _ _ _ Hwin), map_map.
        rewrite <- (length_map (fun ns => P ++ strings_in h5 ns)).
        apply holds_alloc. }
    intros page h7 G7 Hpage. apply runs_ret. unfold represents.
    cbn [Heap.displayed Heap.prevCursor Heap.nextCursor
         Heap.displayPathForAsset displayed prevCursor nextCursor
         displayPathForAsset].
    split; [| repeat split]. split; [exact Hpage | repeat split].
Qed.

End PaginateHeap.

(** ** Two calls *)

Lemma well_typed_args (h : Heap.heap) (assets prefixPath : Heap.loc) :
  well_typed h assets prefixPath = true ->
  exists A,
    nth_error h assets = Some (Heap.Assets A)
    /\ nth_error h prefixPath
       = Some (Heap.Strings (strings_in h prefixPath))
    /\ forallb (fun asset => is_strings h (Heap.path (Heap.key asset))) A
       = true
    /\ assets_in h assets = map (asset_in h) A.
Proof.
  unfold well_typed, assets_in. intros H.
  apply andb_prop in H. destruct H as [Hp HA].
  destruct (nth_error h assets) as [[l | l | A] |]; try discriminate HA.
  exists A. split; [reflexivity |].
  split; [apply is_strings_nth, Hp |]. split; [exact HA | reflexivity].
Qed.

Lemma well_typed_grown (h h' : Heap.heap) (assets prefixPath : Heap.loc) :
  grown h h' ->
  well_typed h assets prefixPath = true ->
  well_typed h' assets prefixPath = true
  /\ assets_in h' assets = assets_in h assets
  /\ strings_in h' prefixPath = strings_in h prefixPath.
Proof.
  intros G H. destruct (well_typed_args _ _ _ H) as (A & HA & HP & HF & E).
  assert (Hp : is_strings h prefixPath = true) by (eapply nth_is_strings, HP).
  split; [| split].
  - unfold well_typed. rewrite (is_strings_grown _ _ _ G Hp).
    rewrite (grown_nth _ _ _ _ G HA). cbn [andb].
    apply forallb_forall. intros a Ha. rewrite forallb_forall in HF.
    apply (is_strings_grown _ _ _ G), HF, Ha.
  - rewrite E. unfold assets_in. rewrite (grown_nth _ _ _ _ G HA).
    apply assets_in_grown; assumption.
  - apply strings_in_grown; assumption.
Qed.

(** A call in the heap returns what the pure function returns on what the
    arguments hold, and leaves the heap it found and new arrays. *)
Lemma paginate_heap (h : Heap.heap) (assets prefixPath : Heap.loc)
  (cursor : option jsstring) (mode : Mode) :
  well_typed h assets prefixPath = true ->
  exists p,
    paginate (assets_in h assets) (strings_in h prefixPath) cursor mode
    = Some p
    /\ runs (Heap.paginate assets prefixPath cursor mode) h
         (fun r h' =>
            represents h' r p
            /\ Heap.displayPathForAsset r
               = match mode with
                 | flat => Heap.PathOfKey
                 | namespace => Heap.NamespaceForAsset prefixPath
                 end
            /\ displayPathForAsset p
               = match mode with
                 | flat => fun asset => path (key asset)
                 | namespace => namespaceForAsset (strings_in h prefixPath)
                 end).
Proof.
  intros H. destruct (well_typed_args _ _ _ H) as (A & HA & HP & HF & E).
  destruct (paginate_returns (assets_in h assets) (strings_in h prefixPath)
              cursor mode) as (p & Hp).
  exists p. split; [exact Hp |]. rewrite E in Hp.
  destruct mode; cbn [paginate Heap.paginate] in *.
  - exact (buildFlatProps_heap h assets prefixPath cursor A _ HA HP HF p Hp).
  - exact (buildNamespaceProps_heap h assets prefixPath cursor A _ HA HP HF
             p Hp).
Qed.

(** The function [displayPathForAsset] of a result, called on an asset,
    returns an array that holds the display path of the pure function. *)
Lemma call_heap (h : Heap.heap) (prefixPath : Heap.loc) (mode : Mode)
  (asset : Heap.Asset) :
  is_strings h prefixPath = true ->
  is_strings h (Heap.path (Heap.key asset)) = true ->
  exists l new,
    Heap.call match mode with
              | flat => Heap.PathOfKey
              | namespace => Heap.NamespaceForAsset prefixPath
              end asset h
    = Some (l, h ++ new)
    /\ strings_in (h ++ new) l
       = match mode with
         | flat => fun asset => path (key asset)
         | namespace => namespaceForAsset (strings_in h prefixPath)
         end (asset_in h asset).
Proof.
  intros Hp Ha. apply is_strings_nth in Hp. pose proof Ha as Ha'.
  apply is_strings_nth in Ha'. destruct mode; cbn [Heap.call].
  - exists (Heap.path (Heap.key asset)), []. split; [| rewrite app_nil_r; reflexivity].
    unfold Heap.ret. rewrite app_nil_r. reflexivity.
  - eexists. eexists. split.
    + unfold Heap.namespaceForAsset, Heap.bind, Heap.strings.
      rewrite Hp, Ha'. reflexivity.
    + unfold strings_in at 1. rewrite nth_snoc. reflexivity.
Qed.

(** C10: two calls one after the other, with the same arguments, both
    return.  Each leaves the heap that it found and new arrays: no array
    that was there before the call is written to, the arguments among
    them.  The pages of the two results hold the same assets and the
    cursors are the same strings, those of the pure function on what the
    arguments hold; the two [displayPathForAsset] are the same function,
    which returns the display path of the pure function on every asset. *)
Theorem paginate_pure (h : Heap.heap) (assets prefixPath : Heap.loc)
  (cursor : option jsstring) (mode : Mode) :
  well_typed h assets prefixPath = true ->
  exists p r1 new1 r2 new2,
    paginate (assets_in h assets) (strings_in h prefixPath) cursor mode
    = Some p
    /\ Heap.paginate assets prefixPath cursor mode h = Some (r1, h ++ new1)
    /\ Heap.paginate assets prefixPath cursor mode (h ++ new1)
       = Some (r2, (h ++ new1) ++ new2)
    /\ represents ((h ++ new1) ++ new2) r1 p
    /\ represents ((h ++ new1) ++ new2) r2 p
    /\ Heap.displayPathForAsset r1 = Heap.displayPathForAsset r2
    /\ forall asset h',
         grown ((h ++ new1) ++ new2) h' ->
         is_strings h' (Heap.path (Heap.key asset)) = true ->
         exists l new,
           Heap.call (Heap.displayPathForAsset r1) asset h'
           = Some (l, h' ++ new)
           /\ strings_in (h' ++ new) l
              = displayPathForAsset p (asset_in h' asset).
Proof.
  intros H.
  destruct (paginate_heap h assets prefixPath cursor mode H)
    as (p & Hp & r1 & h1 & E1 & [new1 ->] & R1 & C1 & D1).
  destruct (well_typed_grown h (h ++ new1) assets prefixPath
              (ex_intro _ new1 eq_refl) H) as (H1 & EA & EP).
  destruct (paginate_heap (h ++ new1) assets prefixPath cursor mode H1)
    as (p' & Hp' & r2 & h2 & E2 & [new2 ->] & R2 & C2 & D2).
  rewrite EA, EP in Hp'. assert (p' = p) by congruence. subst p'.
  exists p, r1, new1, r2, new2.
  split; [exact Hp |]. split; [exact E1 |]. split; [exact E2 |].
  assert (G12 : grown (h ++ new1) ((h ++ new1) ++ new2))
    by (eexists; reflexivity).
  split.
  { destruct R1 as (Rd & Rp & Rn). split; [| split; assumption].
    intros h' G'. apply Rd. eapply grown_trans; eassumption. }
  split; [exact R2 |]. split; [congruence |].
  intros asset h' G' Ha. rewrite C1, D1.
  assert (G0 : grown h h').
  { eapply grown_trans; [eexists; reflexivity |].
    eapply grown_trans; eassumption. }
  assert (Hpre : is_strings h prefixPath = true).
  { unfold well_typed in H. apply andb_prop in H. apply H. }
  rewrite <- (strings_in_grown _ _ _ G0 Hpre).
  apply call_heap; [eapply is_strings_grown; eassumption | exact Ha].
Qed.

Lemma paginate_pure_witness :
  well_typed two_assets_heap 2 3 = true
  /\ exists p r1 new1 r2 new2,
       paginate (assets_in two_assets_heap 2) (strings_in two_assets_heap 3)
                (Some cursor_b) namespace
       = Some p
       /\ Heap.paginate 2 3 (Some cursor_b) namespace two_assets_heap
          = Some (r1, two_assets_heap ++ new1)
       /\ Heap.paginate 2 3 (Some cursor_b) namespace
                        (two_assets_heap ++ new1)
          = Some (r2, (two_assets_heap ++ new1) ++ new2)
       /\ represents ((two_assets_heap ++ new1) ++ new2) r1 p
       /\ represents ((two_assets_heap ++ new1) ++ new2) r2 p
       /\ Heap.displayPathForAsset r1 = Heap.displayPathForAsset r2
       /\ forall asset h',
            grown ((two_assets_heap ++ new1) ++ new2) h' ->
            is_strings h' (Heap.path (Heap.key asset)) = true ->
            exists l new,
              Heap.call (Heap.displayPathForAsset r1) asset h'
              = Some (l, h' ++ new)
              /\ strings_in (h' ++ new) l
                 = displayPathForAsset p (asset_in h' asset).
Proof.
  split; [reflexivity |].
  exact (paginate_pure two_assets_heap 2 3 (Some cursor_b) namespace eq_refl).
Defined.

(** [sort] itself does write: called on an array that was in the heap
    before the call, it leaves a heap that is not the heap it found and
    new arrays.  [namespaces] calls it on the array that it has just
    allocated. *)
Example sort_writes :
  exists h',
    Heap.sort 2 [Heap.Strings [lit "b"]; Heap.Strings [lit "a"];
                 Heap.Paths [0; 1]%nat]
    = Some (2%nat, h')
    /\ ~ grown [Heap.Strings [lit "b"]; Heap.Strings [lit "a"];
                Heap.Paths [0; 1]%nat] h'.
Proof.
  eexists. split; [vm_compute; reflexivity |].
  intros (new & E). cbn [app] in E. discriminate E.
Qed.
